(** * Metro: resolver coercions, watcher backend and transform cache

    A shallow embedding of the parts of Metro that its specification makes
    claims about:

    - [Js]: the JavaScript string primitives the sources rely on;
    - [ModuleResolution]: [ModuleResolver.resolveDependency] and
      [UnableToResolveError] of
      [metro/src/node-haste/DependencyGraph/ModuleResolution.js];
    - [FSEventsWatcher]: [_handleEvent], the callback that runs it for
      each notification, and [close], of
      [metro-file-map/src/watchers/FSEventsWatcher.js];
    - [Cache]: the layered transform cache, whose implementation is not among
      the sources and is modelled from the specification and its test suite;
    - [ConstantFolding]: the folding pass, likewise known only through the
      specification and its test suite. *)

From Stdlib Require Import ZArith Lia Bool List Ascii String OrderedTypeEx.
From Stdlib Require Import DecimalString.
From Equations Require Import Equations.
From stdpp Require Import gmap strings list.

Local Open Scope Z_scope.

(** ** JavaScript string primitives

    A JavaScript string is taken as a [string]: a sequence of characters
    that stand for its code units. Indices and lengths are integers. *)

Module Js.

(** [s.length] *)
Definition length (s : string) : Z := Z.of_nat (String.length s).

(** The characters of [s] from index [n] on. *)
Fixpoint drop (n : nat) (s : string) : string :=
  match n, s with
  | O, _ => s
  | S _, EmptyString => EmptyString
  | S n', String _ s' => drop n' s'
  end.

(** The first [n] characters of [s]. *)
Fixpoint take (n : nat) (s : string) : string :=
  match n, s with
  | O, _ => EmptyString
  | S _, EmptyString => EmptyString
  | S n', String c s' => String c (take n' s')
  end.

(** An index argument of [slice], made relative to the start and clamped. *)
Definition clampIndex (len i : Z) : Z :=
  if i <? 0 then Z.max (len + i) 0 else Z.min i len.

(** [s.slice(from, to)] for integer arguments. *)
Definition slice (s : string) (from to : Z) : string :=
  let len := length s in
  let f := clampIndex len from in
  let t := clampIndex len to in
  take (Z.to_nat (t - f)) (drop (Z.to_nat f) s).

(** [s[i]]: [None] stands for [undefined]. *)
Definition charAt (s : string) (i : Z) : option ascii :=
  if i <? 0 then None else String.get (Z.to_nat i) s.

(** The largest index [<= k] at which [t] occurs in [s], or [-1]. *)
Fixpoint lastIndexOfFrom (s t : string) (k : nat) : Z :=
  if String.prefix t (drop k s) then Z.of_nat k
  else match k with
       | O => -1
       | S k' => lastIndexOfFrom s t k'
       end.

(** [s.lastIndexOf(t, position)]; [position = None] is the call with one
    argument, which searches from the end. *)
Definition lastIndexOf (s t : string) (position : option Z) : Z :=
  let len := length s in
  let start :=
    match position with
    | None => len
    | Some p => Z.min (Z.max p 0) len
    end in
  lastIndexOfFrom s t (Z.to_nat start).

(** [s.split('\n')]: the lines of [s]; never empty. *)
Fixpoint splitLines (s : string) : list string :=
  match s with
  | EmptyString => [EmptyString]
  | String c s' =>
      if Ascii.eqb c "010"%char then EmptyString :: splitLines s'
      else match splitLines s' with
           | [] => [String c EmptyString]
           | l :: ls => String c l :: ls
           end
  end.

(** [a[i]] on an array, [None] for [undefined]. *)
Definition index {A} (a : list A) (i : Z) : option A :=
  if i <? 0 then None else nth_error a (Z.to_nat i).

(** [a.join(sep)] on an array of strings. *)
Fixpoint join (sep : string) (a : list string) : string :=
  match a with
  | [] => EmptyString
  | [x] => x
  | x :: rest => x +:+ sep +:+ join sep rest
  end.

(** The relational operator [<] on two strings: code units are compared
    from the left, a proper prefix is smaller. *)
Definition lt (a b : string) : bool := String.ltb a b.

End Js.

Example slice_negative : Js.slice "abcdef" (-2) 6 = "ef".
Proof. reflexivity. Qed.

Example lastIndexOf_from : Js.lastIndexOf "a./x./x" "./x" (Some 3) = 1.
Proof. reflexivity. Qed.

Example lastIndexOf_absent : Js.lastIndexOf "abc" "d" None = -1.
Proof. reflexivity. Qed.

Example splitLines_two :
  Js.splitLines ("ab" +:+ String "010"%char "c") = ["ab"; "c"].
Proof. reflexivity. Qed.

(** ** ModuleResolution.js *)

Module ModuleResolution.

Definition nl : string := String "010"%char EmptyString.

(** *** Data exchanged with metro-resolver *)

(** [FileCandidates]: what the resolver probed for one path. *)
Inductive FileCandidates : Type :=
| AssetCandidates (name : string)
| SourceFileCandidates (filePathPrefix : string) (candidateExts : list string).

(** [Resolution], the result of [Resolver.resolve]. *)
Inductive Resolution : Type :=
| sourceFile (filePath : string)
| assetFiles (filePaths : list string)
| empty.

(** [BundlerResolution] is [{type: 'sourceFile', filePath}]. *)
Record BundlerResolution : Type := { filePath : string }.

Record Position : Type := { line : Z; column : Z }.

Record BabelSourceLocation : Type :=
  { loc_start : Position; loc_end : Position }.

(** [TransformResultDependency]: [name] and its [data]. *)
Record TransformResultDependency : Type := {
  name : string;
  key : string;
  asyncType : option string;
  isESMImport : bool;
  locs : list BabelSourceLocation
}.

Record ResolverInputOptions : Type := {
  dev : bool;
  customResolverOptions : option (list (string * string))
}.

(** The arguments of one [resolveDependency] call; all of them reach
    [Resolver.resolve] through the context built from them. *)
Record Request : Type := {
  originModulePath : string;
  dependency : TransformResultDependency;
  allowHaste : bool;
  platform : option string;
  resolverOptions : ResolverInputOptions
}.

(** What [Resolver.resolve] throws: its three error classes, or anything
    else (a custom resolver may throw what it likes). *)
Inductive ResolverError : Type :=
| FailedToResolvePathError (file dir : option FileCandidates)
| FailedToResolveUnsupportedError (message : string)
| FailedToResolveNameError (dirPaths extraPaths : list string)
| OtherResolverError (message : string).

(** What [resolveDependency] can throw. [RangeError] is the error of a
    call stack that is used up ("Maximum call stack size exceeded"). *)
Inductive Thrown : Type :=
| UnableToResolveError
    (origin targetModuleName message : string) (cause : ResolverError)
| Rethrown (error : ResolverError)
| FsError (code : string)
| TypeError
| InvariantViolation (message : string)
| RangeError.

Inductive Completion : Type :=
| Return (resolution : BundlerResolution)
| Throw (error : Thrown).

(** The world outside the resolver at the time of a call: the underlying
    resolver with its file-system lookups, [options.dirExists], and
    [fs.readFileSync(_, 'utf8')], which gives the contents or fails with
    an error code. *)
Record Env : Type := {
  resolve : Request -> Resolution + ResolverError;
  dirExists : string -> bool;
  readFileSync : string -> string + string
}.

(** The location handed to [codeFrameColumns]. *)
Record Location : Type := { start : Position; end_ : option Position }.

(** *** Module-level helpers *)

(** [getArrayLowestItem]; [None] is [undefined]. *)
Definition getArrayLowestItem (a : list string) : option string :=
  match a with
  | [] => None
  | a0 :: rest =>
      Some (fold_left (fun lowest ai => if Js.lt ai lowest then ai else lowest)
                      rest a0)
  end.

Definition isQuote (str : option ascii) : bool :=
  match str with
  | Some c =>
      Ascii.eqb c "034"%char || Ascii.eqb c "039"%char || Ascii.eqb c "096"%char
  | None => false
  end.

(** [===] on two values that are a one-character string or [undefined]. *)
Definition strictEq (a b : option ascii) : bool :=
  match a, b with
  | Some x, Some y => Ascii.eqb x y
  | None, None => true
  | _, _ => false
  end.

(** A value together with the equation that names it, so that a loop
    condition stays known in the branch it guards. *)
Definition inspect {A : Type} (x : A) : { y : A | x = y } :=
  exist _ x eq_refl.

(** The loop condition of the inner loop of [refineDependencyLocation]. *)
Definition roomForQuotes (lineSlice : string) (offset : Z) : bool :=
  negb (offset =? -1) && (0 <? offset) && (offset <? Js.length lineSlice - 1).

Lemma lastIndexOfFrom_le (s t : string) (k : nat) :
  -1 <= Js.lastIndexOfFrom s t k <= Z.of_nat k.
Proof.
  induction k as [|k IH]; simpl; destruct (String.prefix t _); lia.
Qed.

Lemma lastIndexOf_before (s t : string) (offset : Z) :
  0 < offset ->
  (Z.to_nat (Js.lastIndexOf s t (Some (offset - 1)%Z)) < Z.to_nat offset)%nat.
Proof.
  intros Hpos. unfold Js.lastIndexOf.
  pose proof (lastIndexOfFrom_le s t
    (Z.to_nat (Z.min (Z.max (offset - 1) 0) (Js.length s)))) as [_ Hle].
  lia.
Qed.

(** The inner loop of [refineDependencyLocation]: the occurrences of the
    specifier in [lineSlice], from the last one backwards; [None] when the
    loop ends without a [return]. *)
Equations scanOffsets (lineStr lineSlice targetSpecifier : string)
    (minColumn ln offset : Z) : option Location
    by wf (Z.to_nat offset) lt :=
  scanOffsets lineStr lineSlice targetSpecifier minColumn ln offset
    with inspect (roomForQuotes lineSlice offset) := {
    | exist _ true Hroom =>
        let maybeQuoteBefore := Js.charAt lineSlice (minColumn + offset - 1) in
        let maybeQuoteAfter :=
          Js.charAt lineStr (minColumn + offset + Js.length targetSpecifier) in
        if isQuote maybeQuoteBefore && strictEq maybeQuoteBefore maybeQuoteAfter
        then Some {| start := {| line := ln + 1;
                                 column := minColumn + offset + 1 |};
                     end_ := None |}
        else scanOffsets lineStr lineSlice targetSpecifier minColumn ln
               (Js.lastIndexOf lineSlice targetSpecifier (Some (offset - 1)))
    | exist _ false _ => None }.
Next Obligation.
  intros lineStr lineSlice targetSpecifier minColumn ln offset Hroom _ _ _.
  apply lastIndexOf_before. unfold roomForQuotes in Hroom.
  apply andb_prop in Hroom as [Hroom _]. apply andb_prop in Hroom as [_ Hpos].
  lia.
Qed.

(** What the body of the outer loop does for one line: it returns a
    location, throws, or falls through to the next line. *)
Inductive Scan : Type :=
| Found (l : Location)
| NoMatch
| Threw.

(** The body of the outer loop for line index [ln]. Reading [.length] or
    calling [.slice] on a line the file does not have is a [TypeError]. *)
Definition scanLine (loc : BabelSourceLocation) (lines : list string)
    (targetSpecifier : string) (ln : Z) : Scan :=
  let maxColumn :=
    if ln =? line (loc_end loc)
    then Some (column (loc_end loc) + 2)
    else option_map Js.length (Js.index lines ln) in
  match maxColumn with
  | None => Threw
  | Some maxColumn =>
      let minColumn :=
        if ln =? line (loc_start loc) then column (loc_start loc) - 1 else 0 in
      match Js.index lines ln with
      | None => Threw
      | Some lineStr =>
          let lineSlice := Js.slice lineStr minColumn maxColumn in
          match
            scanOffsets lineStr lineSlice targetSpecifier minColumn ln
              (Js.lastIndexOf lineSlice targetSpecifier None)
          with
          | Some l => Found l
          | None => NoMatch
          end
      end
  end.

(** The outer loop: lines [loc.end.line - 1] down to [loc.start.line - 1]. *)
Equations scanLines (loc : BabelSourceLocation) (lines : list string)
    (targetSpecifier : string) (ln : Z) : Scan
    by wf (Z.to_nat (ln - line (loc_start loc) + 2)) lt :=
  scanLines loc lines targetSpecifier ln
    with inspect (ln >=? line (loc_start loc) - 1) := {
    | exist _ true Hin =>
        match scanLine loc lines targetSpecifier ln with
        | NoMatch => scanLines loc lines targetSpecifier (ln - 1)
        | r => r
        end
    | exist _ false _ => NoMatch }.
Next Obligation.
  intros loc lines targetSpecifier ln Hin _. cbv beta in Hin.
  apply Z.geb_le in Hin. lia.
Qed.

Definition plusOne (p : Position) : Position :=
  {| line := line p; column := column p + 1 |}.

(** [refineDependencyLocation(loc, fileContents, targetSpecifier)]; the
    right summand is the [TypeError] of reading a missing line. *)
Definition refineDependencyLocation (loc : BabelSourceLocation)
    (fileContents targetSpecifier : string) : Location + Thrown :=
  let lines := Js.splitLines fileContents in
  match scanLines loc lines targetSpecifier (line (loc_end loc) - 1) with
  | Found l => inl l
  | Threw => inr TypeError
  | NoMatch =>
      if line (loc_start loc) =? line (loc_end loc)
      then inl {| start := plusOne (loc_start loc);
                  end_ := Some (plusOne (loc_end loc)) |}
      else inl {| start := plusOne (loc_start loc); end_ := None |}
  end.

(** The loop of [guessDependencyLocation]: the first line that contains
    the specifier, with the column of its last occurrence there. *)
Fixpoint guessLoop (lines : list string) (targetSpecifier : string)
    (ln : Z) : Z * Z :=
  match lines with
  | [] => (0, -1)
  | l :: rest =>
      let columnLocation := Js.lastIndexOf l targetSpecifier None in
      if columnLocation >=? 0 then (ln, columnLocation)
      else guessLoop rest targetSpecifier (ln + 1)
  end.

(** [guessDependencyLocation(fileContents, targetSpecifier)] *)
Definition guessDependencyLocation (fileContents targetSpecifier : string)
    : Location :=
  let '(lineNumber, col) :=
    guessLoop (Js.splitLines fileContents) targetSpecifier 0 in
  {| start := {| line := lineNumber + 1; column := col + 1 |};
     end_ := None |}.

Definition fooSource : string :=
  "// @flow" +:+ nl +:+ "import bar from './bar';" +:+ nl.

Example refine_points_at_specifier :
  refineDependencyLocation
    {| loc_start := {| line := 2; column := 0 |};
       loc_end := {| line := 2; column := 24 |} |}
    fooSource "./bar"
  = inl {| start := {| line := 2; column := 18 |}; end_ := None |}.
Proof. vm_compute. reflexivity. Qed.

(** *** The class [ModuleResolver] *)

(** The options the modelled methods read. *)
Record Options : Type := { emptyModulePath : string; projectRoot : string }.

(** An instance. [emptyModuleComputed] is not a field of the class: it
    counts how often the assignment to [_cachedEmptyModule] has run. *)
Record ModuleResolver : Type := {
  _options : Options;
  _projectRootFakeModulePath : string;
  _cachedEmptyModule : option BundlerResolution;
  emptyModuleComputed : nat
}.

(** [a.filter(Boolean)] on an array of nullable objects. *)
Fixpoint filterBoolean {A} (a : list (option A)) : list A :=
  match a with
  | [] => []
  | Some x :: rest => x :: filterBoolean rest
  | None :: rest => filterBoolean rest
  end.

(** A string in a condition: the empty string is falsy. *)
Definition truthy (s : string) : bool :=
  match s with
  | EmptyString => false
  | String _ _ => true
  end.

Section Methods.

(** Functions of Node and of the libraries the class calls: [path.join],
    [path.relative], [Resolver.formatFileCandidates] and
    [codeFrameColumns] (with its [forceColor] option fixed). *)
Variable path_join : string -> string -> string.
Variable path_relative : string -> string -> string.
Variable formatFileCandidates : FileCandidates -> string.
Variable codeFrameColumns : string -> Location -> string.

Definition constructor (options : Options) : ModuleResolver :=
  {| _options := options;
     _projectRootFakeModulePath := path_join (projectRoot options) "_";
     _cachedEmptyModule := None;
     emptyModuleComputed := 0 |}.

Definition _removeRoot (this : ModuleResolver) (candidates : FileCandidates)
    : FileCandidates :=
  match candidates with
  | SourceFileCandidates filePathPrefix candidateExts =>
      if truthy filePathPrefix
      then SourceFileCandidates
             (path_relative (projectRoot (_options this)) filePathPrefix)
             candidateExts
      else candidates
  | AssetCandidates _ => candidates
  end.

(** [UnableToResolveError.buildCodeFrameMessage]: [inl None] is the
    [null] returned when the origin cannot be read. *)
Definition buildCodeFrameMessage (env : Env)
    (origin targetModuleName : string)
    (dep : option TransformResultDependency) : option string + Thrown :=
  match readFileSync env origin with
  | inr code =>
      if String.eqb code "ENOENT" || String.eqb code "EISDIR"
      then inl None
      else inr (FsError code)
  | inl file =>
      let location :=
        match dep with
        | Some d =>
            match locs d with
            | loc0 :: _ => refineDependencyLocation loc0 file targetModuleName
            | [] => inl (guessDependencyLocation file targetModuleName)
            end
        | None => inl (guessDependencyLocation file targetModuleName)
        end in
      match location with
      | inr e => inr e
      | inl location =>
          match readFileSync env origin with
          | inr code => inr (FsError code)
          | inl again => inl (Some (codeFrameColumns again location))
          end
      end
  end.

(** The text of [util.format('Unable to resolve module %s from %s: %s', ...)]. *)
Definition formatMessage (targetModuleName origin message : string) : string :=
  "Unable to resolve module " +:+ targetModuleName +:+ " from " +:+ origin
  +:+ ": " +:+ message.

(** The suffix the constructor appends for the code frame. *)
Definition codeFrameSuffix (codeFrameMessage : option string) : string :=
  match codeFrameMessage with
  | Some frame => if truthy frame then nl +:+ frame else EmptyString
  | None => EmptyString
  end.

(** [throw new UnableToResolveError(origin, target, message, {cause,
    dependency})]: what ends up thrown, the new error or what its
    constructor threw. *)
Definition throwUnableToResolveError (env : Env)
    (origin targetModuleName message : string) (cause : ResolverError)
    (dep : option TransformResultDependency) : Thrown :=
  match buildCodeFrameMessage env origin targetModuleName dep with
  | inr e => e
  | inl codeFrameMessage =>
      UnableToResolveError origin targetModuleName
        (formatMessage targetModuleName origin message
         +:+ codeFrameSuffix codeFrameMessage)
        cause
  end.

(** The message built for a [FailedToResolvePathError]. *)
Definition pathErrorMessage (this : ModuleResolver)
    (file dir : option FileCandidates) : string :=
  nl +:+ nl +:+ "None of these files exist:" +:+ nl
  +:+ Js.join nl
        (map (fun candidates =>
                "  * " +:+ formatFileCandidates (_removeRoot this candidates))
             (filterBoolean [file; dir])).

(** The directories listed for a [FailedToResolveNameError]. *)
Definition displayDirPaths (this : ModuleResolver) (env : Env)
    (dirPaths extraPaths : list string) : list string :=
  map (path_relative (projectRoot (_options this)))
      (List.filter (dirExists env) dirPaths)
  ++ extraPaths.

(** The message built for a [FailedToResolveNameError]. *)
Definition nameErrorMessage (this : ModuleResolver) (env : Env)
    (depName : string) (dirPaths extraPaths : list string) : string :=
  let display := displayDirPaths this env dirPaths extraPaths in
  let hint :=
    match display with
    | [] => EmptyString
    | _ :: _ => " or in these directories:"
    end in
  Js.join nl
    ((depName +:+ " could not be found within the project"
      +:+ (if truthy hint then hint else "."))
     :: map (fun dirPath => "  " +:+ dirPath) display).

(** The [catch] clause of [resolveDependency], for an error thrown by
    [Resolver.resolve]. [_removeRoot] rewrites the candidates in place, so
    the cause carries the rewritten ones. *)
Definition catchResolverError (this : ModuleResolver) (env : Env)
    (req : Request) (error : ResolverError) : Thrown :=
  let origin := originModulePath req in
  let dep := dependency req in
  match error with
  | FailedToResolvePathError file dir =>
      throwUnableToResolveError env origin (name dep)
        (pathErrorMessage this file dir)
        (FailedToResolvePathError (option_map (_removeRoot this) file)
                                  (option_map (_removeRoot this) dir))
        (Some dep)
  | FailedToResolveUnsupportedError message =>
      throwUnableToResolveError env origin (name dep) message error (Some dep)
  | FailedToResolveNameError dirPaths extraPaths =>
      throwUnableToResolveError env origin (name dep)
        (nameErrorMessage this env (name dep) dirPaths extraPaths)
        error (Some dep)
  | OtherResolverError _ => Rethrown error
  end.

(** The request [_getEmptyModule] resolves. *)
Definition emptyModuleRequest (this : ModuleResolver) : Request :=
  {| originModulePath := _projectRootFakeModulePath this;
     dependency :=
       {| name := emptyModulePath (_options this);
          key := emptyModulePath (_options this);
          asyncType := None;
          isESMImport := false;
          locs := [] |};
     allowHaste := false;
     platform := None;
     resolverOptions := {| dev := false; customResolverOptions := None |} |}.

(** A call of a method: its completion and the instance afterwards. *)
Definition Call : Type := Completion * ModuleResolver.

(** [_getEmptyModule], over the method it calls back into. *)
Definition _getEmptyModule
    (resolveDependency : ModuleResolver -> Env -> Request -> Call)
    (this : ModuleResolver) (env : Env) : Call :=
  match _cachedEmptyModule this with
  | Some emptyModule => (Return emptyModule, this)
  | None =>
      match resolveDependency this env (emptyModuleRequest this) with
      | (Throw e, this') => (Throw e, this')
      | (Return emptyModule, this') =>
          (Return emptyModule,
           {| _options := _options this';
              _projectRootFakeModulePath := _projectRootFakeModulePath this';
              _cachedEmptyModule := Some emptyModule;
              emptyModuleComputed := S (emptyModuleComputed this') |})
      end
  end.

(** [_getFileResolvedModule], over the method [_getEmptyModule] calls. *)
Definition _getFileResolvedModule
    (resolveDependency : ModuleResolver -> Env -> Request -> Call)
    (this : ModuleResolver) (env : Env) (resolution : Resolution) : Call :=
  match resolution with
  | sourceFile p => (Return {| filePath := p |}, this)
  | assetFiles filePaths =>
      match getArrayLowestItem filePaths with
      | Some arbitrary => (Return {| filePath := arbitrary |}, this)
      | None => (Throw (InvariantViolation "invalid asset resolution"), this)
      end
  | empty => _getEmptyModule resolveDependency this env
  end.

(** [resolveDependency]. Whatever [_getFileResolvedModule] throws is none
    of the resolver's three error classes, so the [catch] clause rethrows
    it unchanged. [stack] is the number of nested calls of
    [resolveDependency] the call stack has room for: [_getEmptyModule]
    calls back into [resolveDependency], and a call for which no room is
    left throws a [RangeError], which every [catch] clause on the way out
    rethrows like any other error. *)
Fixpoint resolveDependency (stack : nat) (this : ModuleResolver) (env : Env)
    (req : Request) : Call :=
  match stack with
  | O => (Throw RangeError, this)
  | S stack' =>
      match resolve env req with
      | inl result =>
          _getFileResolvedModule (resolveDependency stack') this env result
      | inr error => (Throw (catchResolverError this env req error), this)
      end
  end.

End Methods.

(** *** The order behind [getArrayLowestItem] *)

Lemma lt_compare (a b : string) : Js.lt a b = true <-> String.compare a b = Lt.
Proof.
  unfold Js.lt, String.ltb. destruct (String.compare a b); split; congruence.
Qed.

Lemma lt_trans (a b c : string) :
  Js.lt a b = true -> Js.lt b c = true -> Js.lt a c = true.
Proof.
  rewrite !lt_compare. intros Hab Hbc.
  apply String_as_OT.cmp_lt. apply String_as_OT.cmp_lt in Hab, Hbc.
  exact (String_as_OT.lt_trans _ _ _ Hab Hbc).
Qed.

Lemma not_lt_le (a b : string) :
  Js.lt a b = false -> Js.lt b a = true \/ b = a.
Proof.
  intros Hab. destruct (String.compare b a) eqn:Hc.
  - right. now apply String_as_OT.cmp_eq.
  - left. now apply lt_compare.
  - exfalso. rewrite String.compare_antisym in Hc.
    destruct (String.compare a b) eqn:Hc'; try discriminate.
    apply lt_compare in Hc'. congruence.
Qed.

(** [r] is an element of [l] that no element of [l] is below. *)
Definition lowestOf (r : string) (l : list string) : Prop :=
  In r l /\ forall x, In x l -> Js.lt r x = true \/ r = x.

Lemma fold_lowest (rest seen : list string) (lowest : string) :
  lowestOf lowest seen ->
  lowestOf
    (fold_left (fun lowest ai => if Js.lt ai lowest then ai else lowest)
               rest lowest)
    (seen ++ rest).
Proof.
  revert seen lowest.
  induction rest as [|ai rest IH]; intros seen lowest [Hin Hlow]; simpl.
  - rewrite app_nil_r. now split.
  - replace (seen ++ ai :: rest) with ((seen ++ [ai]) ++ rest)
      by now rewrite <- app_assoc.
    apply IH. destruct (Js.lt ai lowest) eqn:Hlt.
    + split; [apply in_or_app; right; now left|].
      intros x Hx. apply in_app_or in Hx as [Hx | [<- | []]]; [|now right].
      destruct (Hlow x Hx) as [Hlx | <-]; left; [|assumption].
      now apply lt_trans with lowest.
    + split; [apply in_or_app; now left|].
      intros x Hx. apply in_app_or in Hx as [Hx | [<- | []]]; [now apply Hlow|].
      now apply not_lt_le in Hlt as [Hlt | ->]; [left | right].
Qed.

Lemma getArrayLowestItem_lowest (a : list string) :
  a <> [] -> exists lowest, getArrayLowestItem a = Some lowest /\ lowestOf lowest a.
Proof.
  destruct a as [|a0 rest]; [congruence|]. intros _. eexists. split; [reflexivity|].
  apply (fold_lowest rest [a0] a0). split; [now left|].
  intros x [<- | []]. now right.
Qed.

(** *** Where [refineDependencyLocation] points *)

Lemma scanOffsets_line (lineStr lineSlice targetSpecifier : string)
    (minColumn ln offset : Z) (l : Location) :
  scanOffsets lineStr lineSlice targetSpecifier minColumn ln offset = Some l ->
  line (start l) = ln + 1.
Proof.
  funelim (scanOffsets lineStr lineSlice targetSpecifier minColumn ln offset);
    [|discriminate].
  intros Hsome. cbv zeta in Hsome.
  destruct (isQuote _ && strictEq _ _).
  - injection Hsome as <-. reflexivity.
  - now apply H.
Qed.

Lemma lastIndexOfFrom_occurs (s t : string) (k : nat) :
  Js.lastIndexOfFrom s t k <> -1 ->
  String.prefix t (Js.drop (Z.to_nat (Js.lastIndexOfFrom s t k)) s) = true.
Proof.
  induction k as [|k IH].
  - change (Js.lastIndexOfFrom s t 0)
      with (if String.prefix t s then Z.of_nat 0 else -1).
    destruct (String.prefix t s) eqn:Hp; [intros _; exact Hp | congruence].
  - change (Js.lastIndexOfFrom s t (S k))
      with (if String.prefix t (Js.drop (S k) s) then Z.of_nat (S k)
            else Js.lastIndexOfFrom s t k).
    destruct (String.prefix t (Js.drop (S k) s)) eqn:Hp; [|exact IH].
    intros _. now rewrite Nat2Z.id.
Qed.

(** The offset is [-1] or that of an occurrence of the specifier. *)
Definition occurrenceOrNone (s t : string) (offset : Z) : Prop :=
  offset = -1 \/ String.prefix t (Js.drop (Z.to_nat offset) s) = true.

Lemma lastIndexOf_occurrenceOrNone (s t : string) (position : option Z) :
  occurrenceOrNone s t (Js.lastIndexOf s t position).
Proof.
  unfold occurrenceOrNone, Js.lastIndexOf.
  destruct (Z.eq_dec (Js.lastIndexOfFrom s t
              (Z.to_nat match position with
                        | Some p => Z.min (Z.max p 0) (Js.length s)
                        | None => Js.length s
                        end)) (-1)) as [Heq | Hne]; [now left|].
  right. now apply lastIndexOfFrom_occurs.
Qed.

(** A location returned by the inner loop is that of an occurrence of the
    specifier in the slice, with room on both sides, where the character
    read before it is a quote and equals the character read after it. *)
Lemma scanOffsets_quoted (lineStr lineSlice targetSpecifier : string)
    (minColumn ln offset : Z) (l : Location) :
  occurrenceOrNone lineSlice targetSpecifier offset ->
  scanOffsets lineStr lineSlice targetSpecifier minColumn ln offset = Some l ->
  exists found,
    0 < found < Js.length lineSlice - 1
    /\ l = {| start := {| line := ln + 1; column := minColumn + found + 1 |};
              end_ := None |}
    /\ String.prefix targetSpecifier (Js.drop (Z.to_nat found) lineSlice) = true
    /\ isQuote (Js.charAt lineSlice (minColumn + found - 1)) = true
    /\ strictEq (Js.charAt lineSlice (minColumn + found - 1))
                (Js.charAt lineStr
                   (minColumn + found + Js.length targetSpecifier)) = true.
Proof.
  funelim (scanOffsets lineStr lineSlice targetSpecifier minColumn ln offset);
    [|discriminate].
  intros Hocc Hsome. cbv zeta in Hsome.
  destruct (isQuote _ && strictEq _ _) eqn:Hquotes.
  - injection Hsome as <-. exists offset.
    pose proof Hroom as Hcond. unfold roomForQuotes in Hcond.
    apply andb_prop in Hcond as [Hcond Hmax].
    apply andb_prop in Hcond as [Hnone Hpos].
    apply andb_prop in Hquotes as [Hq Heq].
    apply Z.ltb_lt in Hmax, Hpos. apply negb_true_iff, Z.eqb_neq in Hnone.
    destruct Hocc as [Hocc | Hocc]; [contradiction|]. auto 10.
  - apply H; [apply lastIndexOf_occurrenceOrNone | exact Hsome].
Qed.

Lemma scanLine_line (loc : BabelSourceLocation) (lines : list string)
    (targetSpecifier : string) (ln : Z) (l : Location) :
  scanLine loc lines targetSpecifier ln = Found l -> line (start l) = ln + 1.
Proof.
  unfold scanLine. destruct (if ln =? _ then _ else _); [|discriminate].
  destruct (Js.index lines ln); [|discriminate].
  destruct (scanOffsets _ _ _ _ _ _) eqn:Hscan; [|discriminate].
  intros [= <-]. exact (scanOffsets_line _ _ _ _ _ _ _ Hscan).
Qed.

Lemma scanLine_defined (loc : BabelSourceLocation) (lines : list string)
    (targetSpecifier : string) (ln : Z) :
  0 <= ln < Z.of_nat (List.length lines) ->
  scanLine loc lines targetSpecifier ln <> Threw.
Proof.
  intros Hln. unfold scanLine, Js.index.
  destruct (ln <? 0) eqn:Hneg; [lia|].
  destruct (nth_error lines (Z.to_nat ln)) eqn:Hnth.
  - simpl. destruct (ln =? _); destruct (scanOffsets _ _ _ _ _ _); discriminate.
  - apply nth_error_None in Hnth. lia.
Qed.

Lemma scanLines_found (loc : BabelSourceLocation) (lines : list string)
    (targetSpecifier : string) (ln : Z) (l : Location) :
  scanLines loc lines targetSpecifier ln = Found l ->
  line (loc_start loc) <= line (start l) <= ln + 1.
Proof.
  funelim (scanLines loc lines targetSpecifier ln); [|discriminate].
  intros Hfound. pose proof (proj1 (Z.geb_le _ _) Hin) as Hle.
  destruct (scanLine loc lines targetSpecifier ln) eqn:Hline.
  - injection Hfound as ->. apply scanLine_line in Hline. lia.
  - specialize (H l Hfound). lia.
  - discriminate.
Qed.

Lemma scanLines_defined (loc : BabelSourceLocation) (lines : list string)
    (targetSpecifier : string) (ln : Z) :
  1 <= line (loc_start loc) ->
  ln < Z.of_nat (List.length lines) ->
  scanLines loc lines targetSpecifier ln <> Threw.
Proof.
  funelim (scanLines loc lines targetSpecifier ln); [|discriminate].
  intros Hstart Hln. pose proof (proj1 (Z.geb_le _ _) Hin) as Hle.
  destruct (scanLine loc lines targetSpecifier ln) eqn:Hline.
  - discriminate.
  - apply H; [assumption | lia].
  - exfalso. revert Hline. apply scanLine_defined. lia.
Qed.

(** A location inside the lines the dependency's [loc] spans. *)
Definition withinRecordedLines (loc : BabelSourceLocation) (l : Location)
    : Prop :=
  line (loc_start loc) <= line (start l)
  <= Z.max (line (loc_start loc)) (line (loc_end loc)).

Lemma refineDependencyLocation_within (loc : BabelSourceLocation)
    (fileContents targetSpecifier : string) (l : Location) :
  refineDependencyLocation loc fileContents targetSpecifier = inl l ->
  withinRecordedLines loc l.
Proof.
  unfold refineDependencyLocation, withinRecordedLines.
  destruct (scanLines _ _ _ _) eqn:Hscan.
  - intros [= <-]. apply scanLines_found in Hscan. lia.
  - destruct (_ =? _); intros [= <-]; simpl; lia.
  - discriminate.
Qed.

Lemma refineDependencyLocation_defined (loc : BabelSourceLocation)
    (fileContents targetSpecifier : string) :
  1 <= line (loc_start loc) ->
  line (loc_end loc) <= Z.of_nat (List.length (Js.splitLines fileContents)) ->
  exists l, refineDependencyLocation loc fileContents targetSpecifier = inl l.
Proof.
  intros Hstart Hend. unfold refineDependencyLocation.
  destruct (scanLines _ _ _ _) eqn:Hscan.
  - eauto.
  - destruct (_ =? _); eauto.
  - exfalso. revert Hscan. apply scanLines_defined; [assumption | lia].
Qed.

(** *** Text contained in a message *)

(** [needle] occurs in [hay]. *)
Definition occursIn (needle hay : string) : Prop :=
  exists before after, hay = before +:+ needle +:+ after.

Lemma append_assoc (a b c : string) : (a +:+ b) +:+ c = a +:+ b +:+ c.
Proof.
  induction a as [|ch a IH]; [reflexivity|].
  change (String ch ((a +:+ b) +:+ c) = String ch (a +:+ b +:+ c)).
  now f_equal.
Qed.

Lemma append_empty_r (a : string) : a +:+ EmptyString = a.
Proof.
  induction a as [|ch a IH]; [reflexivity|].
  change (String ch (a +:+ EmptyString) = String ch a). now f_equal.
Qed.

Lemma occursIn_refl (x : string) : occursIn x x.
Proof.
  exists EmptyString, EmptyString.
  change (x = x +:+ EmptyString). now rewrite append_empty_r.
Qed.

Lemma occursIn_append_r (x a b : string) : occursIn x b -> occursIn x (a +:+ b).
Proof.
  intros (before & after & ->). exists (a +:+ before), after.
  now rewrite append_assoc.
Qed.

Lemma occursIn_append_l (x a b : string) : occursIn x a -> occursIn x (a +:+ b).
Proof.
  intros (before & after & ->). exists before, (after +:+ b).
  now rewrite !append_assoc.
Qed.

Lemma occursIn_join (sep x : string) (l : list string) :
  In x l -> occursIn x (Js.join sep l).
Proof.
  induction l as [|y l IH]; [intros []|].
  intros [-> | Hin]; destruct l as [|z l].
  - apply occursIn_refl.
  - apply occursIn_append_l, occursIn_refl.
  - destruct Hin.
  - change (occursIn x (y +:+ sep +:+ Js.join sep (z :: l))).
    now apply occursIn_append_r, occursIn_append_r, IH.
Qed.

Lemma filterBoolean_In {A} (x : A) (a : list (option A)) :
  In (Some x) a -> In x (filterBoolean a).
Proof.
  induction a as [|[y|] a IH]; simpl; [tauto | | ].
  - intros [[= ->] | Hin]; [now left | right; now apply IH].
  - intros [[=] | Hin]. now apply IH.
Qed.

(** The only thing [refineDependencyLocation] throws is the [TypeError]
    of reading a missing line. *)
Lemma refineDependencyLocation_throws (loc : BabelSourceLocation)
    (fileContents targetSpecifier : string) (e : Thrown) :
  refineDependencyLocation loc fileContents targetSpecifier = inr e ->
  e = TypeError.
Proof.
  unfold refineDependencyLocation.
  destruct (scanLines _ _ _ _); [discriminate | | now intros [= <-]].
  destruct (_ =? _); discriminate.
Qed.

Section Properties.

Variable path_join : string -> string -> string.
Variable path_relative : string -> string -> string.
Variable formatFileCandidates : FileCandidates -> string.
Variable codeFrameColumns : string -> Location -> string.

Local Abbreviation resolveDependency :=
  (resolveDependency path_relative formatFileCandidates codeFrameColumns).

(** C4. When the underlying resolver answers with an [assetFiles]
    resolution whose list of paths is not empty, [resolveDependency]
    returns a [sourceFile] resolution whose path is an element of the list
    that is lexicographically below or equal to every element of it; the
    instance is left as it was. *)
Theorem assetFiles_resolves_to_lowest_path
    (stack : nat) (this : ModuleResolver) (env : Env) (req : Request)
    (filePaths : list string) :
  resolve env req = inl (assetFiles filePaths) ->
  filePaths <> [] ->
  exists lowest,
    resolveDependency (S stack) this env req
      = (Return {| filePath := lowest |}, this)
    /\ In lowest filePaths
    /\ forall p, In p filePaths -> Js.lt lowest p = true \/ lowest = p.
Proof.
  intros Hres Hne.
  destruct (getArrayLowestItem_lowest filePaths Hne) as (lowest & Hget & Hin & Hlow).
  exists lowest. simpl. rewrite Hres. simpl. rewrite Hget. auto.
Qed.

Lemma resolveDependency_S (stack : nat) (this : ModuleResolver) (env : Env)
    (req : Request) :
  resolveDependency (S stack) this env req
  = match resolve env req with
    | inl result =>
        _getFileResolvedModule (resolveDependency stack) this env result
    | inr error =>
        (Throw (catchResolverError path_relative formatFileCandidates
                  codeFrameColumns this env req error), this)
    end.
Proof. reflexivity. Qed.

(** The resolver's three error classes, which the [catch] clause wraps. *)
Definition isFailedToResolve (error : ResolverError) : bool :=
  match error with
  | OtherResolverError _ => false
  | _ => true
  end.

(** C3, amended. When the underlying resolver fails with one of its three
    error classes, [resolveDependency] throws one error and leaves the
    instance as it was. Which error depends on the origin file alone.
    When it can be read, and the first location recorded on the
    dependency is refined without a fault, the error is an
    [UnableToResolveError] whose message is the formatted text followed
    by the code frame of the origin file at the refined location, which
    lies within the recorded lines; with no location recorded the frame
    is at the guessed location. When the first recorded location does not
    lie within the lines of the file, refining it throws, and that
    [TypeError] is what the call throws. When reading the origin file
    fails with [ENOENT] or [EISDIR], the error is an
    [UnableToResolveError] whose message is the formatted text alone;
    when it fails with another code, the call throws that file-system
    error. For a [FailedToResolvePathError] the text names every
    candidate set, file or directory, that the error carries. *)
Theorem resolver_failure_reported_with_code_frame
    (stack : nat) (this : ModuleResolver) (env : Env) (req : Request)
    (error : ResolverError) :
  resolve env req = inr error ->
  isFailedToResolve error = true ->
  exists text cause,
    (forall file dir candidates,
       error = FailedToResolvePathError file dir ->
       In (Some candidates) [file; dir] ->
       occursIn
         ("  * " +:+ formatFileCandidates (_removeRoot path_relative this candidates))
         text)
    /\ match readFileSync env (originModulePath req) with
       | inl fileContents =>
           match locs (dependency req) with
           | loc0 :: _ =>
               match refineDependencyLocation loc0 fileContents
                       (name (dependency req)) with
               | inl location =>
                   resolveDependency (S stack) this env req
                   = (Throw (UnableToResolveError
                               (originModulePath req) (name (dependency req))
                               (formatMessage (name (dependency req))
                                              (originModulePath req) text
                                +:+ codeFrameSuffix
                                      (Some (codeFrameColumns fileContents
                                                              location)))
                               cause),
                      this)
                   /\ withinRecordedLines loc0 location
               | inr e =>
                   resolveDependency (S stack) this env req
                   = (Throw TypeError, this)
                   /\ e = TypeError
                   /\ ~ (1 <= line (loc_start loc0)
                         /\ line (loc_end loc0)
                            <= Z.of_nat
                                 (List.length (Js.splitLines fileContents)))
               end
           | [] =>
               resolveDependency (S stack) this env req
               = (Throw (UnableToResolveError
                           (originModulePath req) (name (dependency req))
                           (formatMessage (name (dependency req))
                                          (originModulePath req) text
                            +:+ codeFrameSuffix
                                  (Some (codeFrameColumns fileContents
                                           (guessDependencyLocation
                                              fileContents
                                              (name (dependency req))))))
                           cause),
                  this)
           end
       | inr code =>
           if String.eqb code "ENOENT" || String.eqb code "EISDIR"
           then resolveDependency (S stack) this env req
                = (Throw (UnableToResolveError
                            (originModulePath req) (name (dependency req))
                            (formatMessage (name (dependency req))
                                           (originModulePath req) text)
                            cause),
                   this)
           else resolveDependency (S stack) this env req
                = (Throw (FsError code), this)
       end.
Proof.
  intros Hres Hkind.
  assert (Hthrown : exists text cause,
    catchResolverError path_relative formatFileCandidates codeFrameColumns
      this env req error
    = throwUnableToResolveError codeFrameColumns env (originModulePath req)
        (name (dependency req)) text cause (Some (dependency req))
    /\ forall file dir candidates,
         error = FailedToResolvePathError file dir ->
         In (Some candidates) [file; dir] ->
         occursIn
           ("  * " +:+ formatFileCandidates (_removeRoot path_relative this candidates))
           text).
  { destruct error as [file dir | message | dirPaths extraPaths | message];
      [| | |discriminate]; simpl; eexists _, _; (split; [reflexivity|]);
      intros file' dir' candidates Heq Hin; try discriminate.
    injection Heq as <- <-. unfold pathErrorMessage.
    do 4 apply occursIn_append_r. apply occursIn_join.
    apply (in_map (fun c => "  * "
             +:+ formatFileCandidates (_removeRoot path_relative this c))).
    now apply filterBoolean_In. }
  destruct Hthrown as (text & cause & Hcatch & Hnames).
  exists text, cause. split; [exact Hnames|].
  rewrite resolveDependency_S, Hres, Hcatch.
  unfold throwUnableToResolveError, buildCodeFrameMessage.
  destruct (readFileSync env (originModulePath req)) as [fileContents | code].
  - destruct (locs (dependency req)) as [|loc0 rest] eqn:Hlocs; [reflexivity|].
    destruct (refineDependencyLocation loc0 fileContents
                (name (dependency req))) as [location | e] eqn:Hloc.
    + split; [reflexivity|]. now apply refineDependencyLocation_within in Hloc.
    + pose proof (refineDependencyLocation_throws _ _ _ _ Hloc) as ->.
      split; [reflexivity|]. split; [reflexivity|]. intros [Hs He].
      destruct (refineDependencyLocation_defined loc0 fileContents
                  (name (dependency req)) Hs He) as [location Hdef].
      congruence.
  - destruct (String.eqb code "ENOENT" || String.eqb code "EISDIR");
      [|reflexivity].
    unfold codeFrameSuffix. now rewrite append_empty_r.
Qed.

(** *** The cached empty module *)

(** The instances a program can hold: a fresh one, or one left behind by
    a call of [resolveDependency]. *)
Inductive reachable (options : Options) : ModuleResolver -> Prop :=
| reachable_new : reachable options (constructor path_join options)
| reachable_call (stack : nat) (this this' : ModuleResolver) (env : Env)
    (req : Request) (c : Completion) :
    reachable options this ->
    resolveDependency stack this env req = (c, this') ->
    reachable options this'.

(** The instances that later calls can turn [this] into. *)
Inductive laterThan (this : ModuleResolver) : ModuleResolver -> Prop :=
| later_now : laterThan this this
| later_call (stack : nat) (this1 this2 : ModuleResolver) (env : Env)
    (req : Request) (c : Completion) :
    laterThan this this1 ->
    resolveDependency stack this1 env req = (c, this2) ->
    laterThan this this2.

(** [this] with the empty module [m] stored by [_getEmptyModule]. *)
Definition withEmptyModule (this : ModuleResolver) (m : BundlerResolution)
    : ModuleResolver :=
  {| _options := _options this;
     _projectRootFakeModulePath := _projectRootFakeModulePath this;
     _cachedEmptyModule := Some m;
     emptyModuleComputed := S (emptyModuleComputed this) |}.

(** The fields set by the constructor are those it set, and the counter
    agrees with the cache. *)
Definition consistent (options : Options) (this : ModuleResolver) : Prop :=
  _options this = options
  /\ _projectRootFakeModulePath this = path_join (projectRoot options) "_"
  /\ emptyModuleComputed this
     = match _cachedEmptyModule this with Some _ => 1%nat | None => 0%nat end.

(** With room for one more call the result is the same, unless the stack
    was used up. *)
Lemma resolveDependency_more_stack (stack : nat) (this : ModuleResolver)
    (env : Env) (req : Request) (c : Completion) (this' : ModuleResolver) :
  resolveDependency stack this env req = (c, this') ->
  c <> Throw RangeError ->
  resolveDependency (S stack) this env req = (c, this').
Proof.
  revert this req c this'.
  induction stack as [|stack IH]; intros this req c this';
    [intros [= <- _]; congruence|].
  intros Hcall Hne. rewrite resolveDependency_S in Hcall |- *.
  destruct (resolve env req) as [[p | filePaths |] | error]; try exact Hcall.
  unfold _getFileResolvedModule, _getEmptyModule in Hcall |- *.
  destruct (_cachedEmptyModule this); [exact Hcall|].
  destruct (ModuleResolution.resolveDependency _ _ _ stack this env _)
    as [[m|e] this''] eqn:Hnested.
  - now rewrite (IH _ _ _ _ Hnested).
  - rewrite (IH _ _ _ _ Hnested); [exact Hcall|]. congruence.
Qed.

Lemma cached_frame (stack : nat) (this this' : ModuleResolver) (env : Env)
    (req : Request) (c : Completion) (m : BundlerResolution) :
  _cachedEmptyModule this = Some m ->
  resolveDependency stack this env req = (c, this') ->
  this' = this.
Proof.
  intros Hcached. destruct stack as [|stack]; [now intros [= _ <-]|]. simpl.
  destruct (resolve env req) as [[p | filePaths |] | error]; simpl.
  - now intros [= _ <-].
  - destruct (getArrayLowestItem filePaths); now intros [= _ <-].
  - unfold _getEmptyModule. rewrite Hcached. now intros [= _ <-].
  - now intros [= _ <-].
Qed.

(** When the empty module path itself resolves to [empty] and nothing is
    cached, [_getEmptyModule] and [resolveDependency] call each other
    until the stack is used up. *)
Lemma empty_module_path_empty_overflows (stack : nat) (this : ModuleResolver)
    (env : Env) :
  _cachedEmptyModule this = None ->
  resolve env (emptyModuleRequest this) = inl empty ->
  resolveDependency stack this env (emptyModuleRequest this)
  = (Throw RangeError, this).
Proof.
  intros Hcached Hres. induction stack as [|stack IH]; [reflexivity|].
  simpl. rewrite Hres. unfold _getFileResolvedModule, _getEmptyModule.
  now rewrite Hcached, IH.
Qed.

(** The call [_getEmptyModule] makes leaves the instance alone. *)
Lemma empty_module_call_frame (stack : nat) (this this' : ModuleResolver)
    (env : Env) (c : Completion) :
  _cachedEmptyModule this = None ->
  resolveDependency stack this env (emptyModuleRequest this) = (c, this') ->
  this' = this.
Proof.
  intros Hcached Hcall.
  destruct (resolve env (emptyModuleRequest this)) as [[p | filePaths |] | error]
    eqn:Hres.
  - destruct stack; [now injection Hcall as _ <-|]. simpl in Hcall.
    rewrite Hres in Hcall. now injection Hcall as _ <-.
  - destruct stack; [now injection Hcall as _ <-|]. simpl in Hcall.
    rewrite Hres in Hcall. simpl in Hcall.
    destruct (getArrayLowestItem filePaths); now injection Hcall as _ <-.
  - rewrite empty_module_path_empty_overflows in Hcall by assumption.
    now injection Hcall as _ <-.
  - destruct stack; [now injection Hcall as _ <-|]. simpl in Hcall.
    rewrite Hres in Hcall. now injection Hcall as _ <-.
Qed.

(** A call either leaves the instance alone, or found nothing cached and
    stored the empty module it returns. *)
Lemma resolveDependency_effect (stack : nat) (this this' : ModuleResolver)
    (env : Env) (req : Request) (c : Completion) :
  resolveDependency stack this env req = (c, this') ->
  this' = this
  \/ exists m, resolve env req = inl empty /\ _cachedEmptyModule this = None
       /\ c = Return m /\ this' = withEmptyModule this m
       /\ exists stack',
            resolveDependency stack' this env (emptyModuleRequest this)
              = (Return m, this).
Proof.
  destruct stack as [|stack]; [intros [= _ <-]; now left|]. simpl.
  destruct (resolve env req) as [[p | filePaths |] | error]; simpl.
  - intros [= _ <-]. now left.
  - destruct (getArrayLowestItem filePaths); intros [= _ <-]; now left.
  - unfold _getEmptyModule.
    destruct (_cachedEmptyModule this) as [m|] eqn:Hcached.
    + intros [= _ <-]. now left.
    + destruct (ModuleResolution.resolveDependency _ _ _ stack this env _)
        as [[m|e] this''] eqn:Hnested.
      * pose proof (empty_module_call_frame _ _ _ _ _ Hcached Hnested) as ->.
        intros [= <- <-]. right. exists m. repeat split; eauto.
      * pose proof (empty_module_call_frame _ _ _ _ _ Hcached Hnested) as ->.
        intros [= _ <-]. now left.
  - intros [= _ <-]. now left.
Qed.

Lemma consistent_new (options : Options) :
  consistent options (constructor path_join options).
Proof. repeat split. Qed.

Lemma consistent_call (options : Options) (stack : nat)
    (this this' : ModuleResolver) (env : Env) (req : Request) (c : Completion) :
  consistent options this ->
  resolveDependency stack this env req = (c, this') ->
  consistent options this'.
Proof.
  intros (Hopt & Hfake & Hcount) Hcall.
  destruct (resolveDependency_effect _ _ _ _ _ _ Hcall)
    as [-> | (m & _ & Hcached & _ & -> & _)]; [now repeat split|].
  repeat split; simpl; try assumption. rewrite Hcount, Hcached. reflexivity.
Qed.

Lemma reachable_consistent (options : Options) (this : ModuleResolver) :
  reachable options this -> consistent options this.
Proof.
  induction 1 as [|stack this this' env req c _ IH Hcall].
  - apply consistent_new.
  - exact (consistent_call _ _ _ _ _ _ _ IH Hcall).
Qed.

Lemma laterThan_cached (this this' : ModuleResolver) (m : BundlerResolution) :
  _cachedEmptyModule this = Some m -> laterThan this this' -> this' = this.
Proof.
  intros Hcached. induction 1 as [|stack this1 this2 env req c _ IH Hcall].
  - reflexivity.
  - subst this1. exact (cached_frame _ _ _ _ _ _ _ Hcached Hcall).
Qed.

(** C10, amended. On an instance a program can hold, let the underlying
    resolver answer [empty]. The request resolved in its place asks for
    the configured [emptyModulePath] from the fake module path at the
    project root. With a cached empty module the call returns it and
    resolves nothing. Without one the call resolves that request: when
    the resolution returns, the call returns its result and stores it;
    when it throws, the call throws the same error and stores nothing, so
    that the next [empty] resolution resolves the request again. The
    store is written at most once per instance. After a call that
    returned, every later [empty] resolution, whatever the world then
    looks like, returns the same value and leaves the instance as it
    is. *)
Theorem empty_resolution_returns_cached_empty_module
    (options : Options) (this : ModuleResolver) (env : Env) (req : Request) :
  reachable options this ->
  resolve env req = inl empty ->
  emptyModuleRequest this
    = {| originModulePath := path_join (projectRoot options) "_";
         dependency :=
           {| name := emptyModulePath options;
              key := emptyModulePath options;
              asyncType := None;
              isESMImport := false;
              locs := [] |};
         allowHaste := false;
         platform := None;
         resolverOptions := {| dev := false; customResolverOptions := None |} |}
  /\ (emptyModuleComputed this <= 1)%nat
  /\ (forall stack m,
        _cachedEmptyModule this = Some m ->
        resolveDependency (S stack) this env req = (Return m, this))
  /\ (forall stack,
        _cachedEmptyModule this = None ->
        resolveDependency (S stack) this env req
        = match resolveDependency stack this env (emptyModuleRequest this) with
          | (Return m, _) => (Return m, withEmptyModule this m)
          | (Throw e, _) => (Throw e, this)
          end)
  /\ (forall stack p,
        _cachedEmptyModule this = None ->
        resolve env (emptyModuleRequest this) = inl (sourceFile p) ->
        resolveDependency (S (S stack)) this env req
        = (Return {| filePath := p |},
           withEmptyModule this {| filePath := p |}))
  /\ (forall stack e this',
        resolveDependency (S stack) this env req = (Throw e, this') ->
        this' = this
        /\ _cachedEmptyModule this = None
        /\ resolveDependency stack this env (emptyModuleRequest this)
           = (Throw e, this))
  /\ (forall stack m this',
        resolveDependency stack this env req = (Return m, this') ->
        _cachedEmptyModule this' = Some m
        /\ emptyModuleComputed this' = 1%nat
        /\ forall this'',
             laterThan this' this'' ->
             this'' = this'
             /\ forall stack2 env2 req2,
                  resolve env2 req2 = inl empty ->
                  resolveDependency (S stack2) this'' env2 req2
                  = (Return m, this'')).
Proof.
  intros Hreach Hres.
  destruct (reachable_consistent _ _ Hreach) as (Hopt & Hfake & Hcount).
  assert (Hcachedcall : forall stack this0 env0 req0 m,
            resolve env0 req0 = inl empty ->
            _cachedEmptyModule this0 = Some m ->
            resolveDependency (S stack) this0 env0 req0 = (Return m, this0)).
  { intros stack this0 env0 req0 m Hres0 Hcached.
    rewrite resolveDependency_S, Hres0.
    unfold _getFileResolvedModule, _getEmptyModule. now rewrite Hcached. }
  assert (Huncached : forall stack,
            _cachedEmptyModule this = None ->
            resolveDependency (S stack) this env req
            = match resolveDependency stack this env (emptyModuleRequest this) with
              | (Return m, _) => (Return m, withEmptyModule this m)
              | (Throw e, _) => (Throw e, this)
              end).
  { intros stack Hcached. rewrite resolveDependency_S, Hres.
    unfold _getFileResolvedModule, _getEmptyModule. rewrite Hcached.
    destruct (ModuleResolution.resolveDependency _ _ _ stack this env _)
      as [[m|e] this''] eqn:Hnested;
      now rewrite (empty_module_call_frame _ _ _ _ _ Hcached Hnested). }
  split; [|split; [|split; [|split; [|split; [|split]]]]].
  - unfold emptyModuleRequest. now rewrite Hfake, Hopt.
  - rewrite Hcount. destruct (_cachedEmptyModule this); lia.
  - intros stack m. now apply Hcachedcall.
  - exact Huncached.
  - intros stack p Hcached Hempty. rewrite (Huncached _ Hcached).
    now rewrite resolveDependency_S, Hempty.
  - intros stack e this' Hcall.
    destruct (_cachedEmptyModule this) as [m|] eqn:Hcached.
    + rewrite (Hcachedcall stack this env req m Hres Hcached) in Hcall.
      discriminate.
    + rewrite (Huncached _ eq_refl) in Hcall.
      destruct (ModuleResolution.resolveDependency _ _ _ stack this env _)
        as [[m|e'] this''] eqn:Hnested; [discriminate|].
      injection Hcall as <- <-.
      now rewrite (empty_module_call_frame _ _ _ _ _ Hcached Hnested).
  - intros stack m this' Hcall.
    assert (Hstored : _cachedEmptyModule this' = Some m).
    { destruct (resolveDependency_effect _ _ _ _ _ _ Hcall)
        as [-> | (m' & _ & _ & [= ->] & -> & _)]; [|reflexivity].
      destruct stack as [|stack]; [discriminate|].
      rewrite resolveDependency_S, Hres in Hcall.
      unfold _getFileResolvedModule, _getEmptyModule in Hcall.
      destruct (_cachedEmptyModule this) as [m'|] eqn:Hcached.
      - now injection Hcall as ->.
      - destruct (ModuleResolution.resolveDependency _ _ _ stack this env _)
          as [[m'|e] this'']; [|discriminate].
        injection Hcall as _ Hthis. rewrite <- Hthis in Hcached. discriminate. }
    split; [exact Hstored|]. split.
    + destruct (consistent_call _ _ _ _ _ _ _
                  (reachable_consistent _ _ Hreach) Hcall) as (_ & _ & Hc).
      now rewrite Hc, Hstored.
    + intros this'' Hlater.
      pose proof (laterThan_cached _ _ _ Hstored Hlater) as ->.
      split; [reflexivity|]. intros stack2 env2 req2 Hres2.
      now apply Hcachedcall.
Qed.

End Properties.

(** *** A small project *)

Definition demoJoin (a b : string) : string := a +:+ "/" +:+ b.

(** [path.relative] for a path below the root. *)
Definition demoRelative (root p : string) : string :=
  if String.prefix (root +:+ "/") p
  then Js.drop (S (String.length root)) p
  else p.

Definition demoFormat (candidates : FileCandidates) : string :=
  match candidates with
  | AssetCandidates n => n
  | SourceFileCandidates prefix exts =>
      prefix +:+ "(" +:+ Js.join "|" exts +:+ ")"
  end.

(** A frame that shows the line pointed at. *)
Definition demoCodeFrame (fileContents : string) (l : Location) : string :=
  match Js.index (Js.splitLines fileContents) (line (start l) - 1) with
  | Some text => "> " +:+ text
  | None => EmptyString
  end.

Definition demoOptions : Options :=
  {| emptyModulePath := "/p/node_modules/metro-runtime/src/modules/empty-module.js";
     projectRoot := "/p" |}.

Definition demoResolver : ModuleResolver := constructor demoJoin demoOptions.

Definition barRequest : Request :=
  {| originModulePath := "/p/src/foo.js";
     dependency :=
       {| name := "./bar"; key := "./bar"; asyncType := None;
          isESMImport := true;
          locs := [ {| loc_start := {| line := 2; column := 0 |};
                       loc_end := {| line := 2; column := 24 |} |} ] |};
     allowHaste := true;
     platform := Some "ios";
     resolverOptions := {| dev := true; customResolverOptions := None |} |}.

(** Neither [/p/src/bar.js] nor [/p/src/bar/index.js] exists. *)
Definition envBarMissing : Env :=
  {| resolve := fun _ =>
       inr (FailedToResolvePathError
              (Some (SourceFileCandidates "/p/src/bar" [".js"]))
              (Some (SourceFileCandidates "/p/src/bar/index" [".js"])));
     dirExists := fun _ => true;
     readFileSync := fun p =>
       if String.eqb p "/p/src/foo.js" then inl fooSource else inr "ENOENT" |}.

(** The same failure with a directory-only specifier's candidates, in a
    file system that does not hold the origin file. *)
Definition envOriginUnreadable : Env :=
  {| resolve := fun _ =>
       inr (FailedToResolvePathError
              (Some (SourceFileCandidates "/p/src/bar" [".js"])) None);
     dirExists := fun _ => true;
     readFileSync := fun _ => inr "ENOENT" |}.

Definition envAssets : Env :=
  {| resolve := fun _ =>
       inl (assetFiles ["/p/img/logo@2x.png"; "/p/img/logo.png";
                        "/p/img/logo@3x.png"]);
     dirExists := fun _ => true;
     readFileSync := fun _ => inr "ENOENT" |}.

(** [fs] is stubbed out; the empty module is a source file. *)
Definition envEmpty : Env :=
  {| resolve := fun r =>
       if String.eqb (name (dependency r)) "./bar" then inl empty
       else inl (sourceFile (name (dependency r)));
     dirExists := fun _ => true;
     readFileSync := fun _ => inr "ENOENT" |}.

(** Nothing resolves except [./bar], which is stubbed out. *)
Definition envEmptyUnresolvable : Env :=
  {| resolve := fun r =>
       if String.eqb (name (dependency r)) "./bar" then inl empty
       else inr (FailedToResolveNameError [] []);
     dirExists := fun _ => false;
     readFileSync := fun _ => inr "ENOENT" |}.

Lemma assetFiles_resolves_to_lowest_path_witness :
  resolve envAssets barRequest
    = inl (assetFiles ["/p/img/logo@2x.png"; "/p/img/logo.png";
                       "/p/img/logo@3x.png"])
  /\ exists lowest,
       resolveDependency demoRelative demoFormat demoCodeFrame 1
         demoResolver envAssets barRequest
       = (Return {| filePath := lowest |}, demoResolver)
       /\ In lowest ["/p/img/logo@2x.png"; "/p/img/logo.png";
                     "/p/img/logo@3x.png"]
       /\ forall p, In p ["/p/img/logo@2x.png"; "/p/img/logo.png";
                          "/p/img/logo@3x.png"] ->
                    Js.lt lowest p = true \/ lowest = p.
Proof.
  split; [reflexivity|].
  apply (assetFiles_resolves_to_lowest_path demoRelative demoFormat
           demoCodeFrame 0 demoResolver envAssets barRequest).
  - reflexivity.
  - discriminate.
Defined.

Example assets_lowest_is_unscaled :
  resolveDependency demoRelative demoFormat demoCodeFrame 1
    demoResolver envAssets barRequest
  = (Return {| filePath := "/p/img/logo.png" |}, demoResolver).
Proof. vm_compute. reflexivity. Qed.

Lemma resolver_failure_reported_with_code_frame_witness :
  resolve envBarMissing barRequest
    = inr (FailedToResolvePathError
             (Some (SourceFileCandidates "/p/src/bar" [".js"]))
             (Some (SourceFileCandidates "/p/src/bar/index" [".js"])))
  /\ isFailedToResolve
       (FailedToResolvePathError
          (Some (SourceFileCandidates "/p/src/bar" [".js"]))
          (Some (SourceFileCandidates "/p/src/bar/index" [".js"]))) = true
  /\ exists text cause,
       resolveDependency demoRelative demoFormat demoCodeFrame 1
         demoResolver envBarMissing barRequest
       = (Throw (UnableToResolveError "/p/src/foo.js" "./bar"
                   (formatMessage "./bar" "/p/src/foo.js" text
                    +:+ codeFrameSuffix
                          (Some (demoCodeFrame fooSource
                                   {| start := {| line := 2; column := 18 |};
                                      end_ := None |})))
                   cause),
          demoResolver)
       /\ withinRecordedLines
            {| loc_start := {| line := 2; column := 0 |};
               loc_end := {| line := 2; column := 24 |} |}
            {| start := {| line := 2; column := 18 |}; end_ := None |}
       /\ occursIn "  * src/bar(.js)" text
       /\ occursIn "  * src/bar/index(.js)" text.
Proof.
  split; [reflexivity|]. split; [reflexivity|].
  destruct (resolver_failure_reported_with_code_frame demoRelative demoFormat
              demoCodeFrame 0 demoResolver envBarMissing barRequest
              (FailedToResolvePathError
                 (Some (SourceFileCandidates "/p/src/bar" [".js"]))
                 (Some (SourceFileCandidates "/p/src/bar/index" [".js"])))
              eq_refl eq_refl)
    as (text & cause & Hnames & Hframe).
  change (readFileSync envBarMissing (originModulePath barRequest))
    with (@inl string string fooSource) in Hframe.
  change (locs (dependency barRequest))
    with [ {| loc_start := {| line := 2; column := 0 |};
              loc_end := {| line := 2; column := 24 |} |} ] in Hframe.
  change (name (dependency barRequest)) with "./bar" in Hframe.
  cbv beta iota in Hframe. rewrite refine_points_at_specifier in Hframe.
  destruct Hframe as [Hthrow Hwithin].
  exists text, cause. split; [exact Hthrow|]. split; [exact Hwithin|]. split.
  - apply (Hnames _ _ (SourceFileCandidates "/p/src/bar" [".js"]) eq_refl).
    now left.
  - apply (Hnames _ _ (SourceFileCandidates "/p/src/bar/index" [".js"]) eq_refl).
    right. now left.
Defined.

Example bar_missing_message :
  resolveDependency demoRelative demoFormat demoCodeFrame 1
    demoResolver envBarMissing barRequest
  = (Throw (UnableToResolveError "/p/src/foo.js" "./bar"
              ("Unable to resolve module ./bar from /p/src/foo.js: "
               +:+ nl +:+ nl +:+ "None of these files exist:" +:+ nl
               +:+ "  * src/bar(.js)" +:+ nl
               +:+ "  * src/bar/index(.js)" +:+ nl
               +:+ "> import bar from './bar';")
              (FailedToResolvePathError
                 (Some (SourceFileCandidates "src/bar" [".js"]))
                 (Some (SourceFileCandidates "src/bar/index" [".js"])))),
     demoResolver).
Proof. vm_compute. reflexivity. Qed.

(** C3 as stated fails where the origin file cannot be read and the error
    carries one candidate set: one [UnableToResolveError] is thrown, its
    message ends with the list of candidates, no code frame follows, and
    only the file candidates are named. *)
Lemma unreadable_origin_has_no_code_frame :
  buildCodeFrameMessage demoCodeFrame envOriginUnreadable
    "/p/src/foo.js" "./bar" (Some (dependency barRequest))
  = inl None
  /\ resolveDependency demoRelative demoFormat demoCodeFrame 1
       demoResolver envOriginUnreadable barRequest
     = (Throw (UnableToResolveError "/p/src/foo.js" "./bar"
                 ("Unable to resolve module ./bar from /p/src/foo.js: "
                  +:+ nl +:+ nl +:+ "None of these files exist:" +:+ nl
                  +:+ "  * src/bar(.js)")
                 (FailedToResolvePathError
                    (Some (SourceFileCandidates "src/bar" [".js"]))
                    None)),
        demoResolver).
Proof. split; vm_compute; reflexivity. Qed.

Lemma empty_resolution_returns_cached_empty_module_witness :
  reachable demoJoin demoRelative demoFormat demoCodeFrame demoOptions
    demoResolver
  /\ resolve envEmpty barRequest = inl empty
  /\ resolveDependency demoRelative demoFormat demoCodeFrame 2
       demoResolver envEmpty barRequest
     = (Return {| filePath := emptyModulePath demoOptions |},
        withEmptyModule demoResolver
          {| filePath := emptyModulePath demoOptions |}).
Proof.
  split; [apply reachable_new|]. split; [reflexivity|].
  destruct (empty_resolution_returns_cached_empty_module demoJoin demoRelative
              demoFormat demoCodeFrame demoOptions demoResolver envEmpty
              barRequest
              (reachable_new demoJoin demoRelative demoFormat demoCodeFrame
                 demoOptions)
              eq_refl)
    as (_ & _ & _ & _ & Hfirst & _).
  apply (Hfirst 0%nat); reflexivity.
Defined.

(** C10 as stated fails where the empty module path does not resolve: the
    request resolves to [empty], the call throws the error of resolving
    the empty module path, and nothing is cached, so that a second call
    on the instance resolves the empty module path again and fails in the
    same way. *)
Lemma empty_resolution_fails_without_caching :
  resolve envEmptyUnresolvable barRequest = inl empty
  /\ resolveDependency demoRelative demoFormat demoCodeFrame 2
       demoResolver envEmptyUnresolvable barRequest
     = (Throw (UnableToResolveError "/p/_" (emptyModulePath demoOptions)
                 (formatMessage (emptyModulePath demoOptions) "/p/_"
                    (emptyModulePath demoOptions
                     +:+ " could not be found within the project."))
                 (FailedToResolveNameError [] [])),
        demoResolver)
  /\ _cachedEmptyModule demoResolver = None
  /\ emptyModuleComputed demoResolver = 0%nat
  /\ resolveDependency demoRelative demoFormat demoCodeFrame 2
       (snd (resolveDependency demoRelative demoFormat demoCodeFrame 2
               demoResolver envEmptyUnresolvable barRequest))
       envEmptyUnresolvable barRequest
     = (Throw (UnableToResolveError "/p/_" (emptyModulePath demoOptions)
                 (formatMessage (emptyModulePath demoOptions) "/p/_"
                    (emptyModulePath demoOptions
                     +:+ " could not be found within the project."))
                 (FailedToResolveNameError [] [])),
        demoResolver).
Proof. repeat split; vm_compute; reflexivity. Qed.

(** *** Further properties of the module-level helpers *)

Lemma lt_irrefl (a : string) : Js.lt a a = false.
Proof.
  destruct (Js.lt a a) eqn:Hlt; [|reflexivity].
  apply lt_compare in Hlt.
  assert (String.compare a a = Eq) by now apply String_as_OT.cmp_eq.
  congruence.
Qed.

Lemma lowestOf_unique (r r' : string) (l : list string) :
  lowestOf r l -> lowestOf r' l -> r = r'.
Proof.
  intros [Hin Hlow] [Hin' Hlow'].
  destruct (Hlow r' Hin') as [Hlt | ->]; [|reflexivity].
  destruct (Hlow' r Hin) as [Hlt' | ->]; [|reflexivity].
  pose proof (lt_trans _ _ _ Hlt Hlt') as Hrr.
  rewrite lt_irrefl in Hrr. discriminate.
Qed.

(** X1. [getArrayLowestItem] does not depend on the order of the array. *)
Theorem getArrayLowestItem_order_independent (a b : list string) :
  Permutation a b -> getArrayLowestItem a = getArrayLowestItem b.
Proof.
  intros Hperm. destruct a as [|a0 resta].
  - apply Permutation_nil in Hperm. now subst.
  - destruct b as [|b0 restb].
    + apply Permutation_sym, Permutation_nil in Hperm. discriminate.
    + destruct (getArrayLowestItem_lowest (a0 :: resta)) as (r & -> & Hin & Hlow);
        [discriminate|].
      destruct (getArrayLowestItem_lowest (b0 :: restb)) as (r' & -> & Hr');
        [discriminate|].
      f_equal. apply (lowestOf_unique r r' (b0 :: restb)); [|exact Hr'].
      split.
      * exact (Permutation_in _ Hperm Hin).
      * intros x Hx. apply Hlow.
        exact (Permutation_in _ (Permutation_sym Hperm) Hx).
Qed.

Lemma getArrayLowestItem_order_independent_witness :
  Permutation ["b.png"; "a.png"; "c.png"] ["c.png"; "b.png"; "a.png"]
  /\ getArrayLowestItem ["b.png"; "a.png"; "c.png"]
     = getArrayLowestItem ["c.png"; "b.png"; "a.png"].
Proof.
  assert (Hperm : Permutation ["b.png"; "a.png"; "c.png"]
                              ["c.png"; "b.png"; "a.png"]).
  { apply Permutation_trans with ["b.png"; "c.png"; "a.png"].
    - apply perm_skip, perm_swap.
    - apply perm_swap. }
  split; [exact Hperm|].
  exact (getArrayLowestItem_order_independent _ _ Hperm).
Defined.

Lemma index_outside {A} (a : list A) (i : Z) :
  i < 0 \/ Z.of_nat (List.length a) <= i -> Js.index a i = None.
Proof.
  intros Hout. unfold Js.index. destruct (i <? 0) eqn:Hneg; [reflexivity|].
  apply Z.ltb_ge in Hneg. apply nth_error_None. lia.
Qed.

Lemma scanLines_missing_line (loc : BabelSourceLocation) (lines : list string)
    (targetSpecifier : string) (ln : Z) :
  line (loc_start loc) - 1 <= ln ->
  ln <> line (loc_end loc) ->
  Js.index lines ln = None ->
  scanLines loc lines targetSpecifier ln = Threw.
Proof.
  funelim (scanLines loc lines targetSpecifier ln).
  - intros _ Hne Hmissing. unfold scanLine.
    apply Z.eqb_neq in Hne. now rewrite Hne, Hmissing.
  - intros Hle _ _. exfalso.
    match goal with E : (_ >=? _) = false |- _ => pose proof E as Hc end.
    rewrite Z.geb_leb in Hc. apply Z.leb_gt in Hc. lia.
Qed.

(** X2. A recorded location that ends outside the file makes
    [refineDependencyLocation] throw a [TypeError]. *)
Theorem refineDependencyLocation_outside_file_throws
    (loc : BabelSourceLocation) (fileContents targetSpecifier : string) :
  line (loc_start loc) <= line (loc_end loc) ->
  line (loc_end loc) < 1
  \/ Z.of_nat (List.length (Js.splitLines fileContents)) < line (loc_end loc) ->
  refineDependencyLocation loc fileContents targetSpecifier = inr TypeError.
Proof.
  intros Horder Hout. unfold refineDependencyLocation.
  rewrite scanLines_missing_line; [reflexivity | lia | lia |].
  apply index_outside. lia.
Qed.

Lemma refineDependencyLocation_outside_file_throws_witness :
  2 <= 3
  /\ (3 < 1 \/ Z.of_nat (List.length (Js.splitLines "import a from 'a';")) < 3)
  /\ refineDependencyLocation
       {| loc_start := {| line := 2; column := 0 |};
          loc_end := {| line := 3; column := 4 |} |}
       "import a from 'a';" "a"
     = inr TypeError.
Proof.
  split; [lia|]. split; [right; vm_compute; reflexivity|].
  apply (refineDependencyLocation_outside_file_throws
           {| loc_start := {| line := 2; column := 0 |};
              loc_end := {| line := 3; column := 4 |} |}).
  - simpl. lia.
  - right. vm_compute. reflexivity.
Defined.

Lemma scanLines_step (loc : BabelSourceLocation) (lines : list string)
    (targetSpecifier : string) (ln : Z) :
  scanLines loc lines targetSpecifier ln
  = if ln >=? line (loc_start loc) - 1 then
      match scanLine loc lines targetSpecifier ln with
      | NoMatch => scanLines loc lines targetSpecifier (ln - 1)
      | r => r
      end
    else NoMatch.
Proof.
  funelim (scanLines loc lines targetSpecifier ln).
  - rewrite Hin. reflexivity.
  - match goal with E : (_ >=? _) = false |- _ => rewrite E end. reflexivity.
Qed.

Lemma scanLines_found_at (loc : BabelSourceLocation) (lines : list string)
    (targetSpecifier : string) (ln : Z) (l : Location) :
  scanLines loc lines targetSpecifier ln = Found l ->
  exists ln',
    line (loc_start loc) - 1 <= ln' <= ln
    /\ scanLine loc lines targetSpecifier ln' = Found l.
Proof.
  funelim (scanLines loc lines targetSpecifier ln); [|discriminate].
  intros Hfound. pose proof (proj1 (Z.geb_le _ _) Hin) as Hle.
  destruct (scanLine loc lines targetSpecifier ln) eqn:Hline.
  - injection Hfound as ->. exists ln. split; [lia | exact Hline].
  - destruct (H l Hfound) as (ln' & Hrange & Hat).
    exists ln'. split; [lia | exact Hat].
  - discriminate.
Qed.

(** The location [refineDependencyLocation] falls back to: the recorded
    one, as a range when it is on one line. *)
Definition recordedFallback (loc : BabelSourceLocation) : Location :=
  if line (loc_start loc) =? line (loc_end loc)
  then {| start := plusOne (loc_start loc);
          end_ := Some (plusOne (loc_end loc)) |}
  else {| start := plusOne (loc_start loc); end_ := None |}.

(** X3. What [refineDependencyLocation] returns is the recorded location, or
    the place of an occurrence of the specifier on one of the recorded
    lines: an occurrence in the slice of that line that leaves room for
    quotes, where the character read before it is a quote and equals the
    character read after it. The slice always runs to the end of the
    line. *)
Theorem refineDependencyLocation_recorded_or_quoted
    (loc : BabelSourceLocation) (fileContents targetSpecifier : string)
    (l : Location) :
  refineDependencyLocation loc fileContents targetSpecifier = inl l ->
  l = recordedFallback loc
  \/ exists ln lineStr found,
       line (loc_start loc) - 1 <= ln <= line (loc_end loc) - 1
       /\ Js.index (Js.splitLines fileContents) ln = Some lineStr
       /\ let minColumn :=
            if ln =? line (loc_start loc)
            then column (loc_start loc) - 1 else 0 in
          let lineSlice := Js.slice lineStr minColumn (Js.length lineStr) in
          l = {| start := {| line := ln + 1;
                             column := minColumn + found + 1 |};
                 end_ := None |}
          /\ 0 < found < Js.length lineSlice - 1
          /\ String.prefix targetSpecifier
                (Js.drop (Z.to_nat found) lineSlice) = true
          /\ isQuote (Js.charAt lineSlice (minColumn + found - 1)) = true
          /\ strictEq (Js.charAt lineSlice (minColumn + found - 1))
                      (Js.charAt lineStr
                         (minColumn + found + Js.length targetSpecifier))
             = true.
Proof.
  unfold refineDependencyLocation, recordedFallback.
  destruct (scanLines _ _ _ _) eqn:Hscan.
  - intros [= <-]. right.
    destruct (scanLines_found_at _ _ _ _ _ Hscan) as (ln & Hrange & Hline).
    unfold scanLine in Hline.
    assert (Hne : (ln =? line (loc_end loc)) = false) by (apply Z.eqb_neq; lia).
    rewrite Hne in Hline.
    destruct (Js.index (Js.splitLines fileContents) ln) as [lineStr|] eqn:Hidx;
      [|discriminate].
    simpl in Hline.
    destruct (scanOffsets _ _ _ _ _ _) as [l'|] eqn:Hoff; [|discriminate].
    injection Hline as ->.
    destruct (scanOffsets_quoted _ _ _ _ _ _ _
                (lastIndexOf_occurrenceOrNone _ _ None) Hoff)
      as (found & Hroom & -> & Hocc & Hq & Heq).
    exists ln, lineStr, found. auto 10.
  - destruct (_ =? _); intros [= <-]; now left.
  - discriminate.
Qed.

Lemma refineDependencyLocation_recorded_or_quoted_witness :
  refineDependencyLocation
    {| loc_start := {| line := 2; column := 0 |};
       loc_end := {| line := 2; column := 24 |} |}
    fooSource "./bar"
  = inl {| start := {| line := 2; column := 18 |}; end_ := None |}
  /\ ({| start := {| line := 2; column := 18 |}; end_ := None |}
      = recordedFallback
          {| loc_start := {| line := 2; column := 0 |};
             loc_end := {| line := 2; column := 24 |} |}
      \/ exists ln lineStr found,
           line (loc_start {| loc_start := {| line := 2; column := 0 |};
                              loc_end := {| line := 2; column := 24 |} |}) - 1
             <= ln <= 2 - 1
           /\ Js.index (Js.splitLines fooSource) ln = Some lineStr
           /\ {| start := {| line := 2; column := 18 |}; end_ := None |}
              = {| start :=
                     {| line := ln + 1;
                        column := (if ln =? 2 then 0 - 1 else 0) + found + 1 |};
                   end_ := None |}).
Proof.
  assert (Hrefine : refineDependencyLocation
            {| loc_start := {| line := 2; column := 0 |};
               loc_end := {| line := 2; column := 24 |} |}
            fooSource "./bar"
          = inl {| start := {| line := 2; column := 18 |}; end_ := None |})
    by (vm_compute; reflexivity).
  split; [exact Hrefine|].
  destruct (refineDependencyLocation_recorded_or_quoted _ _ _ _ Hrefine)
    as [Hfallback | (ln & lineStr & found & Hrange & Hidx & Hl & _)].
  - now left.
  - right. exists ln, lineStr, found. auto.
Defined.

Lemma scanLine_end_column (loc loc' : BabelSourceLocation)
    (lines : list string) (targetSpecifier : string) (ln : Z) :
  loc_start loc = loc_start loc' ->
  line (loc_end loc) = line (loc_end loc') ->
  ln <> line (loc_end loc) ->
  scanLine loc lines targetSpecifier ln = scanLine loc' lines targetSpecifier ln.
Proof.
  intros Hstart Hend Hne. unfold scanLine. rewrite <- Hstart, <- Hend.
  apply Z.eqb_neq in Hne. now rewrite Hne.
Qed.

Lemma scanLines_end_column (loc loc' : BabelSourceLocation)
    (lines : list string) (targetSpecifier : string) (n : nat) :
  loc_start loc = loc_start loc' ->
  line (loc_end loc) = line (loc_end loc') ->
  forall ln,
    ln < line (loc_end loc) ->
    (Z.to_nat (ln - line (loc_start loc) + 2) <= n)%nat ->
    scanLines loc lines targetSpecifier ln
    = scanLines loc' lines targetSpecifier ln.
Proof.
  intros Hstart Hend. induction n as [|n IH]; intros ln Hlt Hmeasure;
    rewrite (scanLines_step loc), (scanLines_step loc'), <- Hstart.
  - destruct (ln >=? line (loc_start loc) - 1) eqn:Hin; [|reflexivity].
    apply Z.geb_le in Hin. lia.
  - destruct (ln >=? line (loc_start loc) - 1) eqn:Hin; [|reflexivity].
    apply Z.geb_le in Hin.
    rewrite <- (scanLine_end_column loc loc') by (auto; lia).
    destruct (scanLine loc lines targetSpecifier ln); try reflexivity.
    apply IH; lia.
Qed.

(** X4. The search for the specifier never uses the end column of the
    recorded location: two locations that differ in it alone are refined
    to the same place, unless both fall back to the recorded range of a
    one-line location. *)
Theorem refineDependencyLocation_ignores_end_column
    (loc loc' : BabelSourceLocation) (fileContents targetSpecifier : string) :
  loc_start loc = loc_start loc' ->
  line (loc_end loc) = line (loc_end loc') ->
  refineDependencyLocation loc fileContents targetSpecifier
  = refineDependencyLocation loc' fileContents targetSpecifier
  \/ (line (loc_start loc) = line (loc_end loc)
      /\ refineDependencyLocation loc fileContents targetSpecifier
         = inl (recordedFallback loc)
      /\ refineDependencyLocation loc' fileContents targetSpecifier
         = inl (recordedFallback loc')).
Proof.
  intros Hstart Hend. unfold refineDependencyLocation, recordedFallback.
  rewrite <- Hend.
  rewrite <- (scanLines_end_column loc loc' _ _
                (Z.to_nat (line (loc_end loc) - 1 - line (loc_start loc) + 2))
                Hstart Hend (line (loc_end loc) - 1))
    by lia.
  destruct (scanLines loc _ _ _); [now left | | now left].
  rewrite <- Hstart.
  destruct (line (loc_start loc) =? line (loc_end loc)) eqn:Hone.
  - right. apply Z.eqb_eq in Hone. auto.
  - now left.
Qed.

Lemma refineDependencyLocation_ignores_end_column_witness :
  loc_start {| loc_start := {| line := 2; column := 0 |};
               loc_end := {| line := 2; column := 24 |} |}
  = loc_start {| loc_start := {| line := 2; column := 0 |};
                 loc_end := {| line := 2; column := 3 |} |}
  /\ refineDependencyLocation
       {| loc_start := {| line := 2; column := 0 |};
          loc_end := {| line := 2; column := 3 |} |}
       fooSource "./bar"
     = inl {| start := {| line := 2; column := 18 |}; end_ := None |}.
Proof.
  split; [reflexivity|].
  destruct (refineDependencyLocation_ignores_end_column
              {| loc_start := {| line := 2; column := 0 |};
                 loc_end := {| line := 2; column := 24 |} |}
              {| loc_start := {| line := 2; column := 0 |};
                 loc_end := {| line := 2; column := 3 |} |}
              fooSource "./bar" eq_refl eq_refl)
    as [Hsame | (_ & Hfallback & _)].
  - rewrite <- Hsame. vm_compute. reflexivity.
  - exfalso. revert Hfallback. vm_compute. discriminate.
Defined.

Lemma lastIndexOf_ge (s t : string) (position : option Z) :
  -1 <= Js.lastIndexOf s t position.
Proof. unfold Js.lastIndexOf. apply lastIndexOfFrom_le. Qed.

Lemma guessLoop_result (lines : list string) (targetSpecifier : string)
    (i ln col : Z) :
  guessLoop lines targetSpecifier i = (ln, col) ->
  (ln = 0 /\ col = -1
   /\ forall s, In s lines -> Js.lastIndexOf s targetSpecifier None = -1)
  \/ exists (k : nat) (lineStr : string),
       ln = i + Z.of_nat k
       /\ nth_error lines k = Some lineStr
       /\ col = Js.lastIndexOf lineStr targetSpecifier None
       /\ 0 <= col
       /\ forall (j : nat) s,
            (j < k)%nat -> nth_error lines j = Some s ->
            Js.lastIndexOf s targetSpecifier None = -1.
Proof.
  revert i. induction lines as [|l rest IH]; intros i; simpl.
  - intros [= <- <-]. left. repeat split. intros s [].
  - destruct (Js.lastIndexOf l targetSpecifier None >=? 0) eqn:Hfound.
    + intros [= <- <-]. right. exists 0%nat, l. apply Z.geb_le in Hfound.
      repeat split; lia.
    + assert (Hnone : Js.lastIndexOf l targetSpecifier None = -1).
      { rewrite Z.geb_leb in Hfound. apply Z.leb_gt in Hfound.
        pose proof (lastIndexOf_ge l targetSpecifier None). lia. }
      intros Hrest.
      destruct (IH _ Hrest) as [(-> & -> & Hall)
                               | (k & lineStr & -> & Hnth & Hcol & Hpos & Hbefore)].
      * left. repeat split. intros s [<- | Hin]; auto.
      * right. exists (S k), lineStr. repeat split; auto; try lia.
        intros [|j] s Hj; simpl; [now intros [= <-]|].
        apply Hbefore. lia.
Qed.

(** X5. [guessDependencyLocation] points at line 1, column 0 when no line
    contains the specifier; otherwise at the first line that contains it,
    one column past the index of its last occurrence on that line. *)
Theorem guessDependencyLocation_first_line_last_occurrence
    (fileContents targetSpecifier : string) :
  end_ (guessDependencyLocation fileContents targetSpecifier) = None
  /\ ((start (guessDependencyLocation fileContents targetSpecifier)
       = {| line := 1; column := 0 |}
       /\ forall s, In s (Js.splitLines fileContents) ->
                    Js.lastIndexOf s targetSpecifier None = -1)
      \/ exists (k : nat) (lineStr : string),
           nth_error (Js.splitLines fileContents) k = Some lineStr
           /\ start (guessDependencyLocation fileContents targetSpecifier)
              = {| line := Z.of_nat k + 1;
                   column := Js.lastIndexOf lineStr targetSpecifier None + 1 |}
           /\ String.prefix targetSpecifier
                 (Js.drop (Z.to_nat (Js.lastIndexOf lineStr targetSpecifier None))
                          lineStr) = true
           /\ forall (j : nat) s,
                (j < k)%nat ->
                nth_error (Js.splitLines fileContents) j = Some s ->
                Js.lastIndexOf s targetSpecifier None = -1).
Proof.
  unfold guessDependencyLocation.
  destruct (guessLoop (Js.splitLines fileContents) targetSpecifier 0)
    as [ln col] eqn:Hloop.
  split; [reflexivity|].
  destruct (guessLoop_result _ _ _ _ _ Hloop)
    as [(-> & -> & Hall) | (k & lineStr & -> & Hnth & -> & Hpos & Hbefore)].
  - left. split; [reflexivity | exact Hall].
  - right. exists k, lineStr. repeat split; auto.
    destruct (lastIndexOf_occurrenceOrNone lineStr targetSpecifier None)
      as [Hnone | Hocc]; [lia | exact Hocc].
Qed.

Lemma join_cons (sep x : string) (rest : list string) :
  Js.join sep (x :: rest)
  = x +:+ match rest with
          | [] => EmptyString
          | _ :: _ => sep +:+ Js.join sep rest
          end.
Proof. destruct rest; simpl; [now rewrite append_empty_r | reflexivity]. Qed.

Lemma occursIn_join_sep (sep x d : string) (rest : list string) :
  In d rest -> occursIn (sep +:+ d) (Js.join sep (x :: rest)).
Proof.
  revert x. induction rest as [|y rest IH]; intros x; [intros []|].
  intros [-> | Hin]; rewrite join_cons.
  - exists x. rewrite join_cons. eexists. now rewrite !append_assoc.
  - apply occursIn_append_r, occursIn_append_r. now apply IH.
Qed.

(** *** The package lookups handed to the resolver *)

Section Packages.

(** The contents of a [package.json], and [path.dirname]. *)
Variable PackageJson : Type.
Variable path_dirname : string -> string.

(** [Packageish]: [path] and [read()], which gives the contents or
    throws. *)
Record Packageish : Type := {
  pkg_path : string;
  read : PackageJson + string
}.

(** What [getPackageOf] finds. *)
Record PackageOf : Type := {
  pkg : Packageish;
  of_packageRelativePath : string
}.

(** [PackageishCache]: each method returns or throws. *)
Record PackageishCache : Type := {
  getPackage : string -> Packageish + string;
  getPackageOf : string -> option PackageOf + string
}.

(** [PackageForModule] *)
Record PackageForModule : Type := {
  rootPath : string;
  packageJson : PackageJson;
  packageRelativePath : string
}.

(** [_getPackage]: whatever is thrown inside the [try] is dropped. *)
Definition _getPackage (packageCache : PackageishCache)
    (packageJsonPath : string) : option PackageJson :=
  match getPackage packageCache packageJsonPath with
  | inl p =>
      match read p with
      | inl json => Some json
      | inr _ => None
      end
  | inr _ => None
  end.

(** [_getPackageForModule]: only the call of [getPackageOf] is inside the
    [try]; [read()] is called after it. The right summand is what is
    thrown. *)
Definition _getPackageForModule (packageCache : PackageishCache)
    (absolutePath : string) : option PackageForModule + string :=
  let result :=
    match getPackageOf packageCache absolutePath with
    | inl r => r
    | inr _ => None
    end in
  match result with
  | Some r =>
      match read (pkg r) with
      | inl json =>
          inl (Some {| rootPath := path_dirname (pkg_path (pkg r));
                       packageJson := json;
                       packageRelativePath := of_packageRelativePath r |})
      | inr e => inr e
      end
  | None => inl None
  end.

(** X6. [_getPackageForModule] throws exactly when [getPackageOf] finds a
    package whose [read()] throws, and then throws what [read()] threw; a
    throwing [getPackageOf] gives [null]. [_getPackage] gives [null] for a
    package whose [read()] throws. *)
Theorem getPackageForModule_throws_only_on_read
    (packageCache : PackageishCache) (absolutePath : string) :
  (forall e,
     _getPackageForModule packageCache absolutePath = inr e
     <-> exists r, getPackageOf packageCache absolutePath = inl (Some r)
                   /\ read (pkg r) = inr e)
  /\ (forall e, getPackageOf packageCache absolutePath = inr e ->
                _getPackageForModule packageCache absolutePath = inl None)
  /\ (forall packageJsonPath p e,
        getPackage packageCache packageJsonPath = inl p ->
        read p = inr e ->
        _getPackage packageCache packageJsonPath = None).
Proof.
  unfold _getPackageForModule, _getPackage. split; [|split].
  - intros e. split.
    + destruct (getPackageOf packageCache absolutePath) as [[r|]|e'];
        try discriminate.
      destruct (read (pkg r)) as [json|e'] eqn:Hread; [discriminate|].
      intros [= <-]. eauto.
    + intros (r & -> & ->). reflexivity.
  - intros e ->. reflexivity.
  - intros packageJsonPath p e -> ->. reflexivity.
Qed.

End Packages.

(** *** Further properties of [resolveDependency] *)

(** The paths of a list, each on a line of its own after a line break,
    indented by two spaces. *)
Fixpoint onOwnLines (paths : list string) : string :=
  match paths with
  | [] => EmptyString
  | d :: rest => nl +:+ "  " +:+ d +:+ onOwnLines rest
  end.

Lemma join_onOwnLines (head : string) (paths : list string) :
  Js.join nl (head :: map (fun dirPath => "  " +:+ dirPath) paths)
  = head +:+ onOwnLines paths.
Proof.
  revert head. induction paths as [|d rest IH]; intros head.
  - rewrite join_cons. reflexivity.
  - rewrite join_cons. change (map _ (d :: rest))
      with (("  " +:+ d) :: map (fun dirPath => "  " +:+ dirPath) rest).
    cbv iota. rewrite IH.
    change (onOwnLines (d :: rest)) with (nl +:+ "  " +:+ d +:+ onOwnLines rest).
    now rewrite (append_assoc "  " d).
Qed.

Section MoreProperties.

Variable path_join : string -> string -> string.
Variable path_relative : string -> string -> string.
Variable formatFileCandidates : FileCandidates -> string.
Variable codeFrameColumns : string -> Location -> string.

Local Abbreviation resolveDependency :=
  (resolveDependency path_relative formatFileCandidates codeFrameColumns).

(** X7. The message for a [FailedToResolveNameError] lists the searched
    directories that exist, in the order searched and relative to the
    project root, followed by the extra paths. It is the name and a hint,
    then each listed path on a line of its own, indented by two spaces,
    and nothing after the last one; with nothing to list it ends in a
    full stop. *)
Theorem nameErrorMessage_lists_directories
    (this : ModuleResolver) (env : Env) (depName : string)
    (dirPaths extraPaths : list string) :
  displayDirPaths path_relative this env dirPaths extraPaths
  = map (path_relative (projectRoot (_options this)))
        (List.filter (dirExists env) dirPaths)
    ++ extraPaths
  /\ nameErrorMessage path_relative this env depName dirPaths extraPaths
     = (depName +:+ " could not be found within the project"
        +:+ match displayDirPaths path_relative this env dirPaths extraPaths
            with
            | [] => "."
            | _ :: _ => " or in these directories:"
            end)
       +:+ onOwnLines
             (displayDirPaths path_relative this env dirPaths extraPaths)
  /\ (forall d,
        In d (displayDirPaths path_relative this env dirPaths extraPaths)
        <-> (exists p, In p dirPaths /\ dirExists env p = true
                       /\ d = path_relative (projectRoot (_options this)) p)
            \/ In d extraPaths).
Proof.
  split; [reflexivity|]. split.
  - unfold nameErrorMessage. rewrite join_onOwnLines.
    now destruct (displayDirPaths path_relative this env dirPaths extraPaths).
  - intros d. unfold displayDirPaths. rewrite in_app_iff, in_map_iff.
    split.
    + intros [(p & <- & Hin) | Hin]; [left | now right].
      apply filter_In in Hin as [Hin Hex]. eauto.
    + intros [(p & Hin & Hex & ->) | Hin]; [left | now right].
      exists p. split; [reflexivity|]. apply filter_In. auto.
Qed.

(** X8. An [assetFiles] resolution without a path fails the invariant
    ['invalid asset resolution']; the error is rethrown as it is and the
    instance is unchanged. *)
Theorem empty_assetFiles_fails_invariant
    (stack : nat) (this : ModuleResolver) (env : Env) (req : Request) :
  resolve env req = inl (assetFiles []) ->
  resolveDependency (S stack) this env req
  = (Throw (InvariantViolation "invalid asset resolution"), this).
Proof. intros Hres. rewrite resolveDependency_S, Hres. reflexivity. Qed.

(** What the construction of an [UnableToResolveError] ends in: the new
    error, or the file-system error or [TypeError] thrown while its code
    frame is built. *)
Lemma throwUnableToResolveError_cases (env : Env)
    (origin targetModuleName message : string) (cause : ResolverError)
    (dep : option TransformResultDependency) :
  (exists m, throwUnableToResolveError codeFrameColumns env origin
               targetModuleName message cause dep
             = UnableToResolveError origin targetModuleName m cause)
  \/ (exists code, throwUnableToResolveError codeFrameColumns env origin
                     targetModuleName message cause dep
                   = FsError code)
  \/ throwUnableToResolveError codeFrameColumns env origin targetModuleName
       message cause dep
     = TypeError.
Proof.
  unfold throwUnableToResolveError, buildCodeFrameMessage.
  destruct (readFileSync env origin) as [file | code].
  - destruct (match dep with
              | Some d =>
                  match locs d with
                  | [] => inl (guessDependencyLocation file targetModuleName)
                  | loc0 :: _ =>
                      refineDependencyLocation loc0 file targetModuleName
                  end
              | None => inl (guessDependencyLocation file targetModuleName)
              end) as [location | e] eqn:Hloc.
    + left. eauto.
    + right; right. destruct dep as [d|]; [|discriminate].
      destruct (locs d); [discriminate|].
      now apply refineDependencyLocation_throws in Hloc.
  - destruct (String.eqb code "ENOENT" || String.eqb code "EISDIR").
    + left. eauto.
    + right; left. eauto.
Qed.

Lemma throwUnableToResolveError_fields (env : Env)
    (origin targetModuleName message : string) (cause : ResolverError)
    (dep : option TransformResultDependency) (o t m : string)
    (c : ResolverError) :
  throwUnableToResolveError codeFrameColumns env origin targetModuleName
    message cause dep
  = UnableToResolveError o t m c ->
  o = origin /\ t = targetModuleName /\ c = cause.
Proof.
  destruct (throwUnableToResolveError_cases env origin targetModuleName
              message cause dep) as [[m' ->] | [[code ->] | ->]];
    [|discriminate|discriminate].
  now intros [= <- <- _ <-].
Qed.

Lemma catchResolverError_fields (this : ModuleResolver) (env : Env)
    (req : Request) (error : ResolverError) (o t m : string)
    (c : ResolverError) :
  catchResolverError path_relative formatFileCandidates codeFrameColumns
    this env req error
  = UnableToResolveError o t m c ->
  isFailedToResolve error = true
  /\ o = originModulePath req /\ t = name (dependency req).
Proof.
  destruct error; simpl; try discriminate; intros Hthrown;
    apply throwUnableToResolveError_fields in Hthrown as (-> & -> & _);
    auto.
Qed.

(** The [catch] clause never throws a [RangeError] of its own. *)
Lemma catchResolverError_not_RangeError (this : ModuleResolver) (env : Env)
    (req : Request) (error : ResolverError) :
  catchResolverError path_relative formatFileCandidates codeFrameColumns
    this env req error
  <> RangeError.
Proof.
  destruct error as [file dir | message | dirPaths extraPaths | message];
    simpl; try discriminate;
    match goal with
    | |- throwUnableToResolveError _ ?env ?o ?t ?m ?c ?d <> _ =>
        destruct (throwUnableToResolveError_cases env o t m c d)
          as [[m' ->] | [[code ->] | ->]]; discriminate
    end.
Qed.

(** X9. An [UnableToResolveError] names the request whose resolution failed:
    the one passed in, or, when that one resolved to [empty], the request
    for the empty module from the fake module path at the project root. *)
Theorem unableToResolveError_names_failed_request
    (stack : nat) (this this' : ModuleResolver) (env : Env) (req : Request)
    (o t m : string) (c : ResolverError) :
  resolveDependency stack this env req
  = (Throw (UnableToResolveError o t m c), this') ->
  (exists error,
     resolve env req = inr error /\ isFailedToResolve error = true
     /\ o = originModulePath req /\ t = name (dependency req))
  \/ (resolve env req = inl empty
      /\ exists error,
           resolve env (emptyModuleRequest this) = inr error
           /\ isFailedToResolve error = true
           /\ o = _projectRootFakeModulePath this
           /\ t = emptyModulePath (_options this)).
Proof.
  destruct stack as [|stack]; [discriminate|]. rewrite resolveDependency_S.
  destruct (resolve env req) as [[p | filePaths |] | error].
  - discriminate.
  - simpl. destruct (getArrayLowestItem filePaths); discriminate.
  - simpl. unfold _getEmptyModule.
    destruct (_cachedEmptyModule this) as [cached|] eqn:Hcached; [discriminate|].
    destruct (ModuleResolution.resolveDependency _ _ _ stack this env _)
      as [[r|e] this''] eqn:Hnested; try discriminate.
    intros [= -> <-]. right. split; [reflexivity|].
    destruct (resolve env (emptyModuleRequest this))
      as [[p | filePaths |] | error] eqn:Hres'.
    + destruct stack as [|stack]; [discriminate|].
      rewrite resolveDependency_S, Hres' in Hnested. discriminate.
    + destruct stack as [|stack]; [discriminate|].
      rewrite resolveDependency_S, Hres' in Hnested. simpl in Hnested.
      destruct (getArrayLowestItem filePaths); discriminate.
    + rewrite (empty_module_path_empty_overflows _ _ _ stack this env
                 Hcached Hres') in Hnested. discriminate.
    + destruct stack as [|stack]; [discriminate|].
      rewrite resolveDependency_S, Hres' in Hnested.
      injection Hnested as Hcatch _.
      apply catchResolverError_fields in Hcatch as (Hkind & -> & ->).
      exists error. auto.
  - intros [= Hcatch <-]. left.
    apply catchResolverError_fields in Hcatch as (Hkind & -> & ->).
    exists error. auto.
Qed.

(** X10. When reading the origin file fails with a code other than [ENOENT]
    and [EISDIR], that I/O error is thrown in place of the
    [UnableToResolveError]. *)
Theorem origin_read_error_replaces_resolution_error
    (stack : nat) (this : ModuleResolver) (env : Env) (req : Request)
    (error : ResolverError) (code : string) :
  resolve env req = inr error ->
  isFailedToResolve error = true ->
  readFileSync env (originModulePath req) = inr code ->
  code <> "ENOENT" ->
  code <> "EISDIR" ->
  resolveDependency (S stack) this env req = (Throw (FsError code), this).
Proof.
  intros Hres Hkind Hread Hne1 Hne2. rewrite resolveDependency_S, Hres.
  apply String.eqb_neq in Hne1, Hne2.
  destruct error; try discriminate; simpl;
    unfold throwUnableToResolveError, buildCodeFrameMessage;
    now rewrite Hread, Hne1, Hne2.
Qed.

(** X11. A call of [resolveDependency] that throws leaves the instance as it
    was: nothing is cached by a failed resolution. *)
Theorem throwing_call_leaves_instance_unchanged
    (stack : nat) (this this' : ModuleResolver) (env : Env) (req : Request)
    (e : Thrown) :
  resolveDependency stack this env req = (Throw e, this') ->
  this' = this.
Proof.
  intros Hcall.
  destruct (resolveDependency_effect _ _ _ _ _ _ _ _ _ Hcall)
    as [-> | (m & _ & _ & Hreturn & _)]; [reflexivity | discriminate].
Qed.

(** X12. When nothing is cached and both the request and the empty module
    path resolve to [empty], [_getEmptyModule] and [resolveDependency]
    call each other until the call stack is used up: whatever room the
    stack has, the call throws a [RangeError] and leaves the instance as
    it was. In every other case a call with room for one nested call
    ends in the same way whatever room is left beyond that, and not in a
    [RangeError]. *)
Theorem resolveDependency_exhausts_stack_iff_empty_module_is_empty
    (this : ModuleResolver) (env : Env) (req : Request) :
  (_cachedEmptyModule this = None
   /\ resolve env req = inl empty
   /\ resolve env (emptyModuleRequest this) = inl empty ->
   forall stack,
     resolveDependency stack this env req = (Throw RangeError, this))
  /\ (~ (_cachedEmptyModule this = None
         /\ resolve env req = inl empty
         /\ resolve env (emptyModuleRequest this) = inl empty) ->
      exists c this',
        c <> Throw RangeError
        /\ forall stack,
             resolveDependency (S (S stack)) this env req = (c, this')).
Proof.
  split.
  - intros (Hcached & Hres & Hres') [|stack]; [reflexivity|].
    rewrite resolveDependency_S, Hres. simpl. unfold _getEmptyModule.
    rewrite Hcached.
    now rewrite (empty_module_path_empty_overflows _ _ _ stack this env
                   Hcached Hres').
  - intros Hnot.
    destruct (resolve env req) as [[p | filePaths |] | error] eqn:Hres.
    + eexists _, _. split; [|intros stack; rewrite resolveDependency_S, Hres;
                              reflexivity]. discriminate.
    + destruct (getArrayLowestItem filePaths) eqn:Hlow; eexists _, _;
        (split; [|intros stack; rewrite resolveDependency_S, Hres; simpl;
                  rewrite Hlow; reflexivity]); discriminate.
    + destruct (_cachedEmptyModule this) as [cached|] eqn:Hcached.
      * eexists _, _. split; [|intros stack; rewrite resolveDependency_S, Hres;
                                simpl; unfold _getEmptyModule;
                                rewrite Hcached; reflexivity]. discriminate.
      * destruct (resolve env (emptyModuleRequest this))
          as [[p | filePaths |] | error] eqn:Hres'.
        -- eexists _, _. split; [|intros stack;
             rewrite resolveDependency_S, Hres;
             unfold _getFileResolvedModule at 1, _getEmptyModule;
             rewrite Hcached, resolveDependency_S, Hres'; reflexivity].
           discriminate.
        -- destruct (getArrayLowestItem filePaths) eqn:Hlow; eexists _, _;
             (split; [|intros stack; rewrite resolveDependency_S, Hres;
                unfold _getFileResolvedModule at 1, _getEmptyModule;
                rewrite Hcached, resolveDependency_S, Hres'; simpl;
                rewrite Hlow; reflexivity]); discriminate.
        -- exfalso. apply Hnot. auto.
        -- eexists _, _. split; [|intros stack;
             rewrite resolveDependency_S, Hres;
             unfold _getFileResolvedModule at 1, _getEmptyModule;
             rewrite Hcached, resolveDependency_S, Hres'; reflexivity].
           intros [= Hcatch].
           exact (catchResolverError_not_RangeError _ _ _ _ Hcatch).
    + eexists _, _. split; [|intros stack; rewrite resolveDependency_S, Hres;
                              reflexivity].
      intros [= Hcatch].
      exact (catchResolverError_not_RangeError _ _ _ _ Hcatch).
Qed.

End MoreProperties.

(** *** More of the small project *)

(** The origin file exists and cannot be read. *)
Definition envOriginForbidden : Env :=
  {| resolve := fun _ => inr (FailedToResolveNameError ["/p/node_modules"] []);
     dirExists := fun _ => true;
     readFileSync := fun _ => inr "EACCES" |}.

Definition envNoAssets : Env :=
  {| resolve := fun _ => inl (assetFiles []);
     dirExists := fun _ => true;
     readFileSync := fun _ => inr "ENOENT" |}.

(** The empty module path is itself stubbed out. *)
Definition envEmptyIsEmpty : Env :=
  {| resolve := fun _ => inl empty;
     dirExists := fun _ => true;
     readFileSync := fun _ => inr "ENOENT" |}.

Example empty_module_stubbed_out_overflows :
  resolveDependency demoRelative demoFormat demoCodeFrame 1000
    demoResolver envEmptyIsEmpty barRequest
  = (Throw RangeError, demoResolver).
Proof. vm_compute. reflexivity. Qed.

Example name_error_message :
  nameErrorMessage demoRelative demoResolver envOriginForbidden "bar"
    ["/p/node_modules"; "/node_modules"] ["/extra"]
  = "bar could not be found within the project or in these directories:"
    +:+ nl +:+ "  node_modules" +:+ nl +:+ "  /node_modules"
    +:+ nl +:+ "  /extra".
Proof. vm_compute. reflexivity. Qed.

Lemma empty_assetFiles_fails_invariant_witness :
  resolve envNoAssets barRequest = inl (assetFiles [])
  /\ resolveDependency demoRelative demoFormat demoCodeFrame 1
       demoResolver envNoAssets barRequest
     = (Throw (InvariantViolation "invalid asset resolution"), demoResolver).
Proof.
  split; [reflexivity|].
  exact (empty_assetFiles_fails_invariant demoRelative demoFormat
           demoCodeFrame 0 demoResolver envNoAssets barRequest eq_refl).
Defined.

Lemma unableToResolveError_names_failed_request_witness :
  resolveDependency demoRelative demoFormat demoCodeFrame 2
    demoResolver envEmptyUnresolvable barRequest
  = (Throw (UnableToResolveError "/p/_" (emptyModulePath demoOptions)
              (formatMessage (emptyModulePath demoOptions) "/p/_"
                 (emptyModulePath demoOptions
                  +:+ " could not be found within the project."))
              (FailedToResolveNameError [] [])),
     demoResolver)
  /\ ((exists error,
         resolve envEmptyUnresolvable barRequest = inr error
         /\ isFailedToResolve error = true
         /\ "/p/_" = originModulePath barRequest
         /\ emptyModulePath demoOptions = name (dependency barRequest))
      \/ (resolve envEmptyUnresolvable barRequest = inl empty
          /\ exists error,
               resolve envEmptyUnresolvable (emptyModuleRequest demoResolver)
               = inr error
               /\ isFailedToResolve error = true
               /\ "/p/_" = _projectRootFakeModulePath demoResolver
               /\ emptyModulePath demoOptions
                  = emptyModulePath (_options demoResolver))).
Proof.
  assert (Hcall : resolveDependency demoRelative demoFormat demoCodeFrame 2
            demoResolver envEmptyUnresolvable barRequest
          = (Throw (UnableToResolveError "/p/_"
                      (emptyModulePath demoOptions)
                      (formatMessage (emptyModulePath demoOptions) "/p/_"
                         (emptyModulePath demoOptions
                          +:+ " could not be found within the project."))
                      (FailedToResolveNameError [] [])),
             demoResolver))
    by (vm_compute; reflexivity).
  split; [exact Hcall|].
  exact (unableToResolveError_names_failed_request demoRelative demoFormat
           demoCodeFrame 2 demoResolver demoResolver envEmptyUnresolvable
           barRequest _ _ _ _ Hcall).
Defined.

Lemma origin_read_error_replaces_resolution_error_witness :
  resolve envOriginForbidden barRequest
  = inr (FailedToResolveNameError ["/p/node_modules"] [])
  /\ readFileSync envOriginForbidden (originModulePath barRequest)
     = inr "EACCES"
  /\ resolveDependency demoRelative demoFormat demoCodeFrame 1
       demoResolver envOriginForbidden barRequest
     = (Throw (FsError "EACCES"), demoResolver).
Proof.
  split; [reflexivity|]. split; [reflexivity|].
  apply (origin_read_error_replaces_resolution_error demoRelative demoFormat
           demoCodeFrame 0 demoResolver envOriginForbidden barRequest
           (FailedToResolveNameError ["/p/node_modules"] []) "EACCES");
    try reflexivity; discriminate.
Defined.

Lemma throwing_call_leaves_instance_unchanged_witness :
  resolveDependency demoRelative demoFormat demoCodeFrame 2
    demoResolver envEmptyUnresolvable barRequest
  = (Throw (UnableToResolveError "/p/_" (emptyModulePath demoOptions)
              (formatMessage (emptyModulePath demoOptions) "/p/_"
                 (emptyModulePath demoOptions
                  +:+ " could not be found within the project."))
              (FailedToResolveNameError [] [])),
     demoResolver)
  /\ demoResolver = demoResolver.
Proof.
  assert (Hcall : resolveDependency demoRelative demoFormat demoCodeFrame 2
            demoResolver envEmptyUnresolvable barRequest
          = (Throw (UnableToResolveError "/p/_"
                      (emptyModulePath demoOptions)
                      (formatMessage (emptyModulePath demoOptions) "/p/_"
                         (emptyModulePath demoOptions
                          +:+ " could not be found within the project."))
                      (FailedToResolveNameError [] [])),
             demoResolver))
    by (vm_compute; reflexivity).
  split; [exact Hcall|].
  exact (throwing_call_leaves_instance_unchanged demoRelative demoFormat
           demoCodeFrame 2 demoResolver demoResolver envEmptyUnresolvable
           barRequest _ Hcall).
Defined.

End ModuleResolution.

(** ** FSEventsWatcher.js *)

Module FSEventsWatcher.

(** The kinds [typeFromStat] tells apart: ['f'], ['d'] and ['l']. *)
Inductive FileType : Type := RegularFile | Directory | Symlink.

(** What [_handleEvent] reads off [fs.Stats]. *)
Record Stats : Type := { st_mode : Z; mtime : Z; size : Z }.

(** A value that is thrown, or that a promise is rejected with, as the
    [catch] clause of [_handleEvent] reads it: [error?.code] and a
    message. *)
Record ThrownValue : Type := { code : option string; message : string }.

(** What [fsPromises.lstat] rejects with. *)
Definition LstatError : Type := ThrownValue.

Record ChangeEventMetadata : Type := {
  type : FileType;
  modifiedTime : Z;
  md_size : Z
}.

Inductive EventName : Type := TOUCH_EVENT | DELETE_EVENT.

(** What the watcher emits: an ['all'] event with its payload, or an
    ['error'] event. *)
Inductive Emitted : Type :=
| All (event : EventName) (relativePath : string)
      (metadata : option ChangeEventMetadata) (root : string)
| Error (error : ThrownValue).

(** One call of [this.emit]: the event, and what the call threw, if
    anything. [emit] runs the listeners of the event one after the other
    inside the call, so it throws what a listener throws; for an
    ['error'] event that nobody listens to it throws the error itself. *)
Record EmitCall : Type := { payload : Emitted; threw : option ThrownValue }.

(** The fields of the class that [_handleEvent] reads and writes. *)
Record Watcher : Type := {
  root : string;
  glob : list string;
  dot : bool;
  doIgnore : string -> bool;
  _tracked : gset string
}.

Definition track (this : Watcher) (filepath : string) : Watcher :=
  {| root := root this; glob := glob this; dot := dot this;
     doIgnore := doIgnore this;
     _tracked := {[ filepath ]} ∪ _tracked this |}.

Definition untrack (this : Watcher) (filepath : string) : Watcher :=
  {| root := root this; glob := glob this; dot := dot this;
     doIgnore := doIgnore this;
     _tracked := _tracked this ∖ {[ filepath ]} |}.

Lemma untrack_not_elem (this : Watcher) (filepath : string) :
  filepath ∉ _tracked (untrack this filepath).
Proof.
  simpl. intros [_ Hne]%elem_of_difference. apply Hne.
  now apply elem_of_singleton.
Qed.

(** What a listener that follows the ['all'] events holds as the set of
    existing paths, when it takes in the events it handles without
    throwing: a touch adds the path, a delete removes it. *)
Definition replayOne (paths : gset string) (call : string * EmitCall)
    : gset string :=
  match call with
  | (p, {| payload := All TOUCH_EVENT _ _ _; threw := None |}) =>
      {[ p ]} ∪ paths
  | (p, {| payload := All DELETE_EVENT _ _ _; threw := None |}) =>
      paths ∖ {[ p ]}
  | _ => paths
  end.

Fixpoint replay (paths : gset string) (trace : list (string * EmitCall))
    : gset string :=
  match trace with
  | [] => paths
  | call :: rest => replay (replayOne paths call) rest
  end.

Lemma replay_app (paths : gset string) (a b : list (string * EmitCall)) :
  replay paths (a ++ b) = replay (replay paths a) b.
Proof.
  revert paths. induction a as [|call a IH]; intros paths; simpl; auto.
Qed.

(** A path the replay holds was held from the start, or a touch for it
    was handled without throwing. *)
Lemma replay_elem (trace : list (string * EmitCall)) (paths : gset string)
    (p : string) :
  p ∈ replay paths trace ->
  p ∈ paths
  \/ exists relativePath metadata r,
       In (p, {| payload := All TOUCH_EVENT relativePath metadata r;
                 threw := None |}) trace.
Proof.
  revert paths. induction trace as [|[q [e t]] trace IH]; intros paths; simpl.
  - now left.
  - intros Hin. destruct (IH _ Hin) as [Hone | (rel & md & r & Hlater)];
      [|right; eauto 6].
    destruct e as [[|] rel md r | error]; destruct t as [error'|];
      simpl in Hone; auto.
    + apply elem_of_union in Hone as [->%elem_of_singleton | Hone]; [|auto].
      right. eauto 6.
    + apply elem_of_difference in Hone as [Hone _]. auto.
Qed.

(** Where an element of a concatenation lies. *)
Lemma app_split_at {A} (l1 l2 pre post : list A) (x : A) :
  l1 ++ l2 = pre ++ x :: post ->
  (exists m, l1 = pre ++ x :: m /\ post = m ++ l2)
  \/ (exists m, pre = l1 ++ m /\ l2 = m ++ x :: post).
Proof.
  revert pre. induction l1 as [|a l1 IH]; intros pre; simpl.
  - intros ->. right. now exists pre.
  - destruct pre as [|b pre]; simpl; intros [= -> Heq].
    + left. now exists l1.
    + destruct (IH _ Heq) as [(m & -> & ->) | (m & -> & ->)].
      * left. now exists m.
      * right. now exists m.
Qed.

Lemma map_pair_split {A B} (p : A) (l : list B) (pre post : list (A * B))
    (q : A) (x : B) :
  map (pair p) l = pre ++ (q, x) :: post ->
  q = p
  /\ exists pre' post',
       l = pre' ++ x :: post'
       /\ pre = map (pair p) pre' /\ post = map (pair p) post'.
Proof.
  revert pre. induction l as [|y l IH]; intros pre; simpl.
  - now destruct pre.
  - destruct pre as [|b pre]; simpl.
    + intros [= <- <- <-]. split; [reflexivity|]. now exists [], l.
    + intros [= <- Heq].
      destruct (IH _ Heq) as (-> & pre' & post' & -> & -> & ->).
      split; [reflexivity|]. now exists (y :: pre'), post'.
Qed.

Section HandleEvent.

(** [path.relative]; [typeFromStat] and [isIncluded] of [./common], which
    return or throw; the listeners registered on the watcher, and what a
    call of [this.emit] does: it gives the listeners afterwards, and what
    the call threw, if anything. *)
Variable path_relative : string -> string -> string.
Variable typeFromStat : Stats -> option FileType + ThrownValue.
Variable isIncluded :
  FileType -> list string -> bool -> (string -> bool) -> string
  -> bool + ThrownValue.
Variable Listeners : Type.
Variable emit : Listeners -> Emitted -> Listeners * option ThrownValue.

(** What running a piece of the class comes to: the calls of [this.emit]
    in order, the watcher and the listeners afterwards, and what was
    thrown, if anything. *)
Record Handled : Type := {
  emitted : list EmitCall;
  watcher : Watcher;
  listeners : Listeners;
  thrown : option ThrownValue
}.

(** Nothing is emitted. *)
Definition silent (this : Watcher) (ls : Listeners)
    (t : option ThrownValue) : Handled :=
  {| emitted := []; watcher := this; listeners := ls; thrown := t |}.

(** A call of [this.emit] and the statement after it, which turns [this]
    into [updated]; when the call throws, that statement is not
    reached. *)
Definition emitThen (ls : Listeners) (e : Emitted) (this updated : Watcher)
    : Handled :=
  let '(ls', t) := emit ls e in
  {| emitted := [{| payload := e; threw := t |}];
     watcher := match t with None => updated | Some _ => this end;
     listeners := ls';
     thrown := t |}.

(** [next] run after [first]. *)
Definition followedBy (first next : Handled) : Handled :=
  {| emitted := emitted first ++ emitted next;
     watcher := watcher next;
     listeners := listeners next;
     thrown := thrown next |}.

(** The [try] block of [_handleEvent], given how [lstat(filepath)]
    settles. A rejected [lstat], a throwing [typeFromStat] or
    [isIncluded], and a throwing listener of the touch all leave the
    block with the thrown value. *)
Definition tryBlock (this : Watcher) (ls : Listeners)
    (filepath relativePath : string) (lstat : Stats + LstatError)
    : Handled :=
  match lstat with
  | inr error => silent this ls (Some error)
  | inl stat =>
      match typeFromStat stat with
      | inr error => silent this ls (Some error)
      | inl None => silent this ls None
      | inl (Some type) =>
          match isIncluded type (glob this) (dot this) (doIgnore this)
                  relativePath with
          | inr error => silent this ls (Some error)
          | inl false => silent this ls None
          | inl true =>
              let metadata :=
                {| type := type; modifiedTime := mtime stat;
                   md_size := size stat |} in
              emitThen ls
                (All TOUCH_EVENT relativePath (Some metadata) (root this))
                this (track this filepath)
          end
      end
  end.

(** The [catch] clause of [_handleEvent], for the value [error] caught.
    What a listener throws here leaves the function. *)
Definition catchClause (this : Watcher) (ls : Listeners)
    (filepath relativePath : string) (error : ThrownValue) : Handled :=
  if negb (bool_decide (code error = Some "ENOENT"))
  then emitThen ls (Error error) this this
  else if negb (bool_decide (filepath ∈ _tracked this))
  then silent this ls None
  else emitThen ls (All DELETE_EVENT relativePath None (root this))
         this (untrack this filepath).

(** [_handleEvent(filepath)], given how [lstat(filepath)] settles;
    [thrown] is what the promise it returns is rejected with. *)
Definition _handleEvent (this : Watcher) (ls : Listeners) (filepath : string)
    (lstat : Stats + LstatError) : Handled :=
  let relativePath := path_relative (root this) filepath in
  let tried := tryBlock this ls filepath relativePath lstat in
  match thrown tried with
  | None => tried
  | Some error =>
      followedBy tried
        (catchClause (watcher tried) (listeners tried) filepath relativePath
           error)
  end.

(** The callback the constructor hands to [fsevents.watch]:
    [this._handleEvent(path).catch(error => this.emit('error', error))].
    What this last call throws is the rejection of a promise nobody
    holds. *)
Definition onFsEvent (this : Watcher) (ls : Listeners) (filepath : string)
    (lstat : Stats + LstatError) : Handled :=
  let handled := _handleEvent this ls filepath lstat in
  match thrown handled with
  | None => handled
  | Some error =>
      followedBy handled
        (emitThen (listeners handled) (Error error) (watcher handled)
           (watcher handled))
  end.

(** A sequence of OS notifications, each with the way its [lstat]
    settles, in the order in which the [lstat] calls settle (what follows
    the [await] in [_handleEvent], and the rejection handler after it,
    run before the next [lstat] settles); every call of [this.emit] is
    paired with the path it was made for. The initial scan of the
    constructor, which adds the paths it finds to [_tracked], is over
    when the run starts: [recReaddir] is not among the sources. *)
Fixpoint handleEvents (this : Watcher) (ls : Listeners)
    (events : list (string * (Stats + LstatError)))
    : list (string * EmitCall) * Watcher * Listeners :=
  match events with
  | [] => ([], this, ls)
  | (filepath, lstat) :: rest =>
      let handled := onFsEvent this ls filepath lstat in
      let '(calls, this', ls') :=
        handleEvents (watcher handled) (listeners handled) rest in
      (map (pair filepath) (emitted handled) ++ calls, this', ls')
  end.

(** *** One notification *)

Ltac handle_step := cbn [thrown emitted watcher listeners negb app].

Ltac handle_cases lstat :=
  unfold onFsEvent, _handleEvent, followedBy, tryBlock, catchClause,
    emitThen, silent;
  destruct lstat as [?stat | ?error]; handle_step;
  repeat match goal with
  | |- context [typeFromStat ?s] =>
      destruct (typeFromStat s) as [[?ty|]|?e] eqn:?Htype; handle_step
  | |- context [isIncluded ?ty ?globs ?dots ?ignore ?rel] =>
      destruct (isIncluded ty globs dots ignore rel) as [[|]|?e]
        eqn:?Hincluded; handle_step
  | |- context [bool_decide ?P] =>
      destruct (bool_decide P) eqn:?Hdecide; handle_step
  | |- context [emit ?l ?ev] =>
      destruct (emit l ev) as [?ls [?t|]] eqn:?Hemit; handle_step
  end.

Ltac decided :=
  repeat match goal with
  | H : bool_decide _ = true |- _ => apply bool_decide_eq_true in H
  | H : bool_decide _ = false |- _ => apply bool_decide_eq_false in H
  end.

Ltac among :=
  simpl; intros;
  repeat match goal with
  | H : _ \/ _ |- _ => destruct H
  | H : False |- _ => destruct H
  end;
  simplify_eq; decided.

(** The watcher keeps its configuration, and its tracked set follows the
    calls of [emit] that returned. *)
Lemma onFsEvent_follows_as (this : Watcher) (ls : Listeners)
    (filepath : string) (lstat : Stats + LstatError) (h : Handled) :
  onFsEvent this ls filepath lstat = h ->
  root (watcher h) = root this
  /\ glob (watcher h) = glob this
  /\ dot (watcher h) = dot this
  /\ doIgnore (watcher h) = doIgnore this
  /\ _tracked (watcher h)
     = replay (_tracked this) (map (pair filepath) (emitted h)).
Proof. handle_cases lstat; intros <-; repeat split. Qed.

Lemma onFsEvent_follows (this : Watcher) (ls : Listeners) (filepath : string)
    (lstat : Stats + LstatError) :
  root (watcher (onFsEvent this ls filepath lstat)) = root this
  /\ glob (watcher (onFsEvent this ls filepath lstat)) = glob this
  /\ dot (watcher (onFsEvent this ls filepath lstat)) = dot this
  /\ doIgnore (watcher (onFsEvent this ls filepath lstat)) = doIgnore this
  /\ _tracked (watcher (onFsEvent this ls filepath lstat))
     = replay (_tracked this)
         (map (pair filepath) (emitted (onFsEvent this ls filepath lstat))).
Proof. exact (onFsEvent_follows_as this ls filepath lstat _ eq_refl). Qed.

(** A delete is emitted for a tracked path only, after the [try] block
    threw a value with the code [ENOENT]. *)
Lemma onFsEvent_delete (this : Watcher) (ls : Listeners) (filepath : string)
    (lstat : Stats + LstatError) (relativePath r : string)
    (metadata : option ChangeEventMetadata) (t : option ThrownValue) :
  In {| payload := All DELETE_EVENT relativePath metadata r; threw := t |}
     (emitted (onFsEvent this ls filepath lstat)) ->
  filepath ∈ _tracked this
  /\ exists error,
       thrown (tryBlock this ls filepath
                 (path_relative (root this) filepath) lstat) = Some error
       /\ code error = Some "ENOENT".
Proof. handle_cases lstat; among; eauto. Qed.

(** A touch is emitted for a path of a recognised type that [isIncluded]
    accepts. *)
Lemma onFsEvent_touch (this : Watcher) (ls : Listeners) (filepath : string)
    (lstat : Stats + LstatError) (relativePath r : string)
    (metadata : option ChangeEventMetadata) (t : option ThrownValue) :
  In {| payload := All TOUCH_EVENT relativePath metadata r; threw := t |}
     (emitted (onFsEvent this ls filepath lstat)) ->
  exists stat ty,
    lstat = inl stat /\ typeFromStat stat = inl (Some ty)
    /\ isIncluded ty (glob this) (dot this) (doIgnore this)
         (path_relative (root this) filepath) = inl true.
Proof. handle_cases lstat; among; eauto. Qed.

(** A delete that the listeners handled is the last event of its
    notification, and leaves the path untracked. *)
Lemma onFsEvent_delete_handled_as (this : Watcher) (ls : Listeners)
    (filepath : string) (lstat : Stats + LstatError) (h : Handled)
    (before after : list EmitCall) (relativePath r : string)
    (metadata : option ChangeEventMetadata) :
  onFsEvent this ls filepath lstat = h ->
  emitted h
  = before ++ {| payload := All DELETE_EVENT relativePath metadata r;
                 threw := None |} :: after ->
  after = [] /\ filepath ∉ _tracked (watcher h).
Proof.
  handle_cases lstat; intros <-; cbn [emitted watcher]; intros Heq;
    destruct before as [|c1 [|c2 [|c3 [|c4 before]]]]; simplify_eq/=;
    (split; [reflexivity|]); apply untrack_not_elem.
Qed.

Lemma onFsEvent_delete_handled (this : Watcher) (ls : Listeners)
    (filepath : string) (lstat : Stats + LstatError)
    (before after : list EmitCall) (relativePath r : string)
    (metadata : option ChangeEventMetadata) :
  emitted (onFsEvent this ls filepath lstat)
  = before ++ {| payload := All DELETE_EVENT relativePath metadata r;
                 threw := None |} :: after ->
  after = []
  /\ filepath ∉ _tracked (watcher (onFsEvent this ls filepath lstat)).
Proof. exact (onFsEvent_delete_handled_as this ls filepath lstat _ _ _ _ _ _ eq_refl). Qed.

(** An lstat failure with a code other than [ENOENT] is reported. *)
Lemma onFsEvent_lstat_failure (this : Watcher) (ls : Listeners)
    (filepath : string) (error : LstatError) :
  code error <> Some "ENOENT" ->
  exists t,
    In {| payload := Error error; threw := t |}
       (emitted (onFsEvent this ls filepath (inr error))).
Proof.
  intros Hcode.
  unfold onFsEvent, _handleEvent, followedBy, tryBlock, catchClause,
    emitThen, silent; simpl.
  rewrite (bool_decide_eq_false_2 _ Hcode). simpl.
  destruct (emit ls (Error error)) as [ls1 [e|]]; simpl.
  - destruct (emit ls1 (Error e)) as [ls2 t]; simpl. eexists. now left.
  - eexists. now left.
Qed.

(** What an ['error'] event carries was thrown by [lstat], with a code
    other than [ENOENT], by [typeFromStat], by [isIncluded], or by a call
    of [emit]. *)
Lemma onFsEvent_error (this : Watcher) (ls : Listeners) (filepath : string)
    (lstat : Stats + LstatError) (error : ThrownValue)
    (t : option ThrownValue) :
  In {| payload := Error error; threw := t |}
     (emitted (onFsEvent this ls filepath lstat)) ->
  (lstat = inr error /\ code error <> Some "ENOENT")
  \/ (exists stat, typeFromStat stat = inr error)
  \/ (exists ty globs dots ignore relativePath,
        isIncluded ty globs dots ignore relativePath = inr error)
  \/ (exists ls0 e ls1, emit ls0 e = (ls1, Some error)).
Proof. handle_cases lstat; among; eauto 12. Qed.

(** Where the value the [try] block throws comes from. *)
Lemma tryBlock_thrown (this : Watcher) (ls : Listeners)
    (filepath relativePath : string) (lstat : Stats + LstatError)
    (error : ThrownValue) :
  thrown (tryBlock this ls filepath relativePath lstat) = Some error ->
  lstat = inr error
  \/ exists stat,
       lstat = inl stat
       /\ (typeFromStat stat = inr error
           \/ exists ty,
                typeFromStat stat = inl (Some ty)
                /\ (isIncluded ty (glob this) (dot this) (doIgnore this)
                      relativePath = inr error
                    \/ (isIncluded ty (glob this) (dot this) (doIgnore this)
                          relativePath = inl true
                        /\ snd (emit ls
                                  (All TOUCH_EVENT relativePath
                                     (Some {| type := ty;
                                              modifiedTime := mtime stat;
                                              md_size := size stat |})
                                     (root this)))
                           = Some error))).
Proof.
  unfold tryBlock, emitThen, silent. destruct lstat as [stat | e]; simpl.
  - intros Hthrown. right. exists stat. split; [reflexivity|].
    destruct (typeFromStat stat) as [[ty|] | e]; simpl in Hthrown;
      [|discriminate|left; congruence].
    right. exists ty. split; [reflexivity|].
    destruct (isIncluded ty _ _ _ _) as [[|] | e]; simpl in Hthrown;
      [|discriminate|left; congruence].
    right. split; [reflexivity|].
    now destruct (emit ls _) as [ls' t].
  - intros [= ->]. now left.
Qed.

(** *** Deletes are only emitted for tracked paths *)

(** In a run, the path of every emitted delete was tracked at the start
    or had a touch emitted for it, and handled by the listeners, earlier
    in the run. *)
Lemma handleEvents_delete_seen
    (events : list (string * (Stats + LstatError))) (this this' : Watcher)
    (ls ls' : Listeners) (trace before after : list (string * EmitCall))
    (filepath relativePath r : string)
    (metadata : option ChangeEventMetadata) (t : option ThrownValue) :
  handleEvents this ls events = (trace, this', ls') ->
  trace = before
          ++ (filepath,
              {| payload := All DELETE_EVENT relativePath metadata r;
                 threw := t |})
          :: after ->
  filepath ∈ _tracked this
  \/ exists relativePath' metadata' r',
       In (filepath,
           {| payload := All TOUCH_EVENT relativePath' metadata' r';
              threw := None |}) before.
Proof.
  revert this ls trace before.
  induction events as [|[fp lstat] rest IH]; intros this ls trace before.
  - intros [= <- _ _] Heq. now destruct before.
  - simpl.
    destruct (handleEvents (watcher (onFsEvent this ls fp lstat))
                (listeners (onFsEvent this ls fp lstat)) rest)
      as [[calls this2] ls2] eqn:Hrest.
    intros [= <- -> ->] Heq.
    apply app_split_at in Heq as [(m & Hone & _) | (m & -> & Hcalls)].
    + apply map_pair_split in Hone as (-> & pre' & post' & Hemitted & _).
      left. eapply onFsEvent_delete. rewrite Hemitted.
      apply in_elt.
    + destruct (IH _ _ _ _ Hrest Hcalls) as [Hin | (rel' & md' & r' & Hin)].
      * destruct (onFsEvent_follows this ls fp lstat)
          as (_ & _ & _ & _ & Htracked).
        rewrite Htracked in Hin.
        apply replay_elem in Hin as [Hin | (rel' & md' & r' & Hin)];
          [now left|].
        right. exists rel', md', r'. apply in_app_iff. now left.
      * right. exists rel', md', r'. apply in_app_iff. now right.
Qed.

(** C8. [_handleEvent] emits a delete only for a path that is in the
    tracked set, after its [try] block threw a value with the code
    [ENOENT]: the rejection of [lstat], or what [typeFromStat],
    [isIncluded] or a listener of the touch threw. In a run of events
    such a path was tracked from the start or had a touch emitted for it,
    and handled by the listeners, before. When the [lstat] fails with
    [ENOENT] and the path is not tracked, nothing is emitted, neither a
    delete nor an error, the watcher and the listeners are unchanged, and
    the promise is fulfilled. *)
Theorem delete_only_for_tracked_path
    (this : Watcher) (ls : Listeners) (filepath : string)
    (error : LstatError) :
  code error = Some "ENOENT" ->
  (filepath ∉ _tracked this ->
     _handleEvent this ls filepath (inr error)
     = {| emitted := []; watcher := this; listeners := ls; thrown := None |}
     /\ onFsEvent this ls filepath (inr error)
        = {| emitted := []; watcher := this; listeners := ls;
             thrown := None |})
  /\ (forall lstat ls0 relativePath metadata r t,
        In {| payload := All DELETE_EVENT relativePath metadata r;
              threw := t |}
           (emitted (onFsEvent this ls0 filepath lstat)) ->
        filepath ∈ _tracked this
        /\ exists error',
             thrown (tryBlock this ls0 filepath
                       (path_relative (root this) filepath) lstat)
             = Some error'
             /\ code error' = Some "ENOENT"
             /\ (lstat = inr error'
                 \/ exists stat,
                      lstat = inl stat
                      /\ (typeFromStat stat = inr error'
                          \/ exists ty,
                               typeFromStat stat = inl (Some ty)
                               /\ (isIncluded ty (glob this) (dot this)
                                     (doIgnore this)
                                     (path_relative (root this) filepath)
                                   = inr error'
                                   \/ (isIncluded ty (glob this) (dot this)
                                         (doIgnore this)
                                         (path_relative (root this) filepath)
                                       = inl true
                                       /\ snd (emit ls0
                                                 (All TOUCH_EVENT
                                                    (path_relative (root this)
                                                       filepath)
                                                    (Some
                                                       {| type := ty;
                                                          modifiedTime :=
                                                            mtime stat;
                                                          md_size :=
                                                            size stat |})
                                                    (root this)))
                                          = Some error')))))
  /\ (forall events ls0 trace this' ls' before after path relativePath
             metadata r t,
        handleEvents this ls0 events = (trace, this', ls') ->
        trace = before
                ++ (path,
                    {| payload := All DELETE_EVENT relativePath metadata r;
                       threw := t |})
                :: after ->
        path ∈ _tracked this
        \/ exists relativePath' metadata' r',
             In (path,
                 {| payload := All TOUCH_EVENT relativePath' metadata' r';
                    threw := None |}) before).
Proof.
  intros Hcode. split; [|split].
  - intros Hnot.
    unfold onFsEvent, _handleEvent, followedBy, tryBlock, catchClause, silent.
    simpl. rewrite (bool_decide_eq_true_2 _ Hcode). simpl.
    rewrite (bool_decide_eq_false_2 _ Hnot). simpl. now split.
  - intros lstat ls0 relativePath metadata r t Hin.
    destruct (onFsEvent_delete _ _ _ _ _ _ _ _ Hin)
      as (Htracked & error' & Hthrown & Hcode').
    split; [exact Htracked|]. exists error'.
    split; [exact Hthrown|]. split; [exact Hcode'|].
    exact (tryBlock_thrown _ _ _ _ _ _ Hthrown).
  - intros events ls0 trace this' ls' before after path relativePath
      metadata r t.
    apply handleEvents_delete_seen.
Qed.

(** *** Runs of events, as a listener sees them *)

(** X13. The tracked set follows the events the listeners handled:
    replaying, on the set tracked at the start of a run, the touches and
    deletes whose call of [emit] returned gives the set tracked at its
    end. A touch or delete whose listener threw leaves the set as it
    was. *)
Theorem tracked_set_mirrors_handled_events
    (events : list (string * (Stats + LstatError))) (this this' : Watcher)
    (ls ls' : Listeners) (trace : list (string * EmitCall)) :
  handleEvents this ls events = (trace, this', ls') ->
  _tracked this' = replay (_tracked this) trace.
Proof.
  revert this ls trace.
  induction events as [|[fp lstat] rest IH]; intros this ls trace; simpl.
  - now intros [= <- <- _].
  - destruct (handleEvents (watcher (onFsEvent this ls fp lstat))
                (listeners (onFsEvent this ls fp lstat)) rest)
      as [[calls this2] ls2] eqn:Hrest.
    intros [= <- -> ->]. rewrite replay_app, (IH _ _ _ Hrest).
    destruct (onFsEvent_follows this ls fp lstat) as (_ & _ & _ & _ & ->).
    reflexivity.
Qed.

(** After a delete that the listeners handled, a run goes on from a
    watcher that does not track the path. *)
Lemma handleEvents_after_delete
    (events : list (string * (Stats + LstatError))) (this this' : Watcher)
    (ls ls' : Listeners) (trace before after : list (string * EmitCall))
    (filepath relativePath r : string)
    (metadata : option ChangeEventMetadata) :
  handleEvents this ls events = (trace, this', ls') ->
  trace = before
          ++ (filepath,
              {| payload := All DELETE_EVENT relativePath metadata r;
                 threw := None |})
          :: after ->
  exists this1 ls1 events1,
    handleEvents this1 ls1 events1 = (after, this', ls')
    /\ filepath ∉ _tracked this1.
Proof.
  revert this ls trace before.
  induction events as [|[fp lstat] rest IH]; intros this ls trace before.
  - intros [= <- _ _] Heq. now destruct before.
  - simpl.
    destruct (handleEvents (watcher (onFsEvent this ls fp lstat))
                (listeners (onFsEvent this ls fp lstat)) rest)
      as [[calls this2] ls2] eqn:Hrest.
    intros [= <- -> ->] Heq.
    apply app_split_at in Heq as [(m & Hone & ->) | (m & -> & Hcalls)].
    + apply map_pair_split in Hone as (-> & pre' & post' & Hemitted & _ & ->).
      apply onFsEvent_delete_handled in Hemitted as [-> Hnot].
      exists (watcher (onFsEvent this ls fp lstat)),
             (listeners (onFsEvent this ls fp lstat)), rest.
      now split.
    + exact (IH _ _ _ _ Hrest Hcalls).
Qed.

(** X14. After a delete for a path that the listeners handled without
    throwing, no further delete is emitted for that path in the run
    before a touch was emitted for it and handled without throwing. *)
Theorem handled_delete_not_repeated_without_touch
    (events : list (string * (Stats + LstatError))) (this this' : Watcher)
    (ls ls' : Listeners)
    (trace before between after : list (string * EmitCall))
    (filepath relativePath1 r1 relativePath2 r2 : string)
    (metadata1 metadata2 : option ChangeEventMetadata)
    (t2 : option ThrownValue) :
  handleEvents this ls events = (trace, this', ls') ->
  trace = before
          ++ (filepath,
              {| payload := All DELETE_EVENT relativePath1 metadata1 r1;
                 threw := None |})
          :: between
          ++ (filepath,
              {| payload := All DELETE_EVENT relativePath2 metadata2 r2;
                 threw := t2 |})
          :: after ->
  exists relativePath metadata r,
    In (filepath,
        {| payload := All TOUCH_EVENT relativePath metadata r;
           threw := None |}) between.
Proof.
  intros Hrun Htrace.
  destruct (handleEvents_after_delete _ _ _ _ _ _ _ _ _ _ _ _ Hrun Htrace)
    as (this1 & ls1 & events1 & Hrun1 & Hnot).
  destruct (handleEvents_delete_seen _ _ _ _ _ _ _ _ _ _ _ _ _ Hrun1 eq_refl)
    as [Hin | Htouch]; [contradiction | exact Htouch].
Qed.

(** X15. Every failure of [lstat] with a code other than [ENOENT] is
    emitted as an ['error'] event that carries it. What an ['error']
    event of a run carries is such a failure, or a value thrown by
    [typeFromStat], by [isIncluded] or by a call of [emit], that is, by a
    listener; so with a [typeFromStat], an [isIncluded] and listeners
    that do not throw, the ['error'] events are exactly those
    failures. *)
Theorem error_events_carry_what_was_thrown
    (events : list (string * (Stats + LstatError))) (this this' : Watcher)
    (ls ls' : Listeners) (trace : list (string * EmitCall))
    (filepath : string) (error : ThrownValue) :
  handleEvents this ls events = (trace, this', ls') ->
  (In (filepath, inr error) events -> code error <> Some "ENOENT" ->
   exists t, In (filepath, {| payload := Error error; threw := t |}) trace)
  /\ (forall t,
        In (filepath, {| payload := Error error; threw := t |}) trace ->
        (In (filepath, inr error) events /\ code error <> Some "ENOENT")
        \/ (exists stat, typeFromStat stat = inr error)
        \/ (exists ty globs dots ignore relativePath,
              isIncluded ty globs dots ignore relativePath = inr error)
        \/ (exists ls0 e ls1, emit ls0 e = (ls1, Some error)))
  /\ ((forall stat e, typeFromStat stat <> inr e) ->
      (forall ty globs dots ignore relativePath e,
         isIncluded ty globs dots ignore relativePath <> inr e) ->
      (forall ls0 e, snd (emit ls0 e) = None) ->
      (exists t,
         In (filepath, {| payload := Error error; threw := t |}) trace)
      <-> In (filepath, inr error) events /\ code error <> Some "ENOENT").
Proof.
  intros Hrun.
  assert (Hreported : In (filepath, inr error) events ->
            code error <> Some "ENOENT" ->
            exists t,
              In (filepath, {| payload := Error error; threw := t |}) trace).
  { revert this ls trace Hrun.
    induction events as [|[fp lstat] rest IH]; intros this ls trace; simpl.
    - intros _ [].
    - destruct (handleEvents (watcher (onFsEvent this ls fp lstat))
                  (listeners (onFsEvent this ls fp lstat)) rest)
        as [[calls this2] ls2] eqn:Hrest.
      intros [= <- -> ->] [[= -> ->] | Hin] Hcode.
      + destruct (onFsEvent_lstat_failure this ls filepath error Hcode)
          as [t Ht].
        exists t. apply in_app_iff. left.
        now apply (in_map (pair filepath)) in Ht.
      + destruct (IH _ _ _ Hrest Hin Hcode) as [t Ht].
        exists t. apply in_app_iff. now right. }
  assert (Horigin : forall t,
            In (filepath, {| payload := Error error; threw := t |}) trace ->
            (In (filepath, inr error) events /\ code error <> Some "ENOENT")
            \/ (exists stat, typeFromStat stat = inr error)
            \/ (exists ty globs dots ignore relativePath,
                  isIncluded ty globs dots ignore relativePath = inr error)
            \/ (exists ls0 e ls1, emit ls0 e = (ls1, Some error))).
  { intros t. clear Hreported. revert this ls trace Hrun.
    induction events as [|[fp lstat] rest IH]; intros this ls trace; simpl.
    - intros [= <- _ _] [].
    - destruct (handleEvents (watcher (onFsEvent this ls fp lstat))
                  (listeners (onFsEvent this ls fp lstat)) rest)
        as [[calls this2] ls2] eqn:Hrest.
      intros [= <- -> ->] [Hin | Hin]%in_app_iff.
      + apply in_map_iff in Hin as (call & [= -> ->] & Hin).
        apply onFsEvent_error in Hin as [[-> Hcode] | Hother]; [|auto].
        left. split; [now left | exact Hcode].
      + destruct (IH _ _ _ Hrest Hin) as [[Hev Hcode] | Hother]; [|auto].
        left. split; [now right | exact Hcode]. }
  split; [exact Hreported|]. split; [exact Horigin|].
  intros Htype Hincluded Hemit. split.
  - intros [t Hin]. destruct (Horigin t Hin)
      as [Hfailure | [(stat & H) | [(ty & g & d & i & rel & H)
                                   | (ls0 & e & ls1 & H)]]].
    + exact Hfailure.
    + now apply Htype in H.
    + now apply Hincluded in H.
    + specialize (Hemit ls0 e). rewrite H in Hemit. discriminate.
  - intros [Hev Hcode]. exact (Hreported Hev Hcode).
Qed.

(** X16. A path that [isIncluded] rejects whatever its type, and that is
    not tracked when a run starts, is never reported in that run, neither
    touched nor deleted, and is not tracked when the run ends. *)
Theorem excluded_path_is_never_reported
    (events : list (string * (Stats + LstatError))) (this this' : Watcher)
    (ls ls' : Listeners) (trace : list (string * EmitCall))
    (filepath : string) :
  handleEvents this ls events = (trace, this', ls') ->
  (forall ty, isIncluded ty (glob this) (dot this) (doIgnore this)
                (path_relative (root this) filepath) = inl false) ->
  filepath ∉ _tracked this ->
  (filepath ∉ _tracked this')
  /\ forall event relativePath metadata r t,
       ~ In (filepath,
             {| payload := All event relativePath metadata r; threw := t |})
            trace.
Proof.
  revert this ls trace.
  induction events as [|[fp lstat] rest IH]; intros this ls trace; simpl.
  - intros [= <- <- _] _ Hnot. split; [exact Hnot|]. intros ? ? ? ? ? [].
  - destruct (handleEvents (watcher (onFsEvent this ls fp lstat))
                (listeners (onFsEvent this ls fp lstat)) rest)
      as [[calls this2] ls2] eqn:Hrest.
    intros [= <- -> ->] Hexcluded Hnot.
    destruct (onFsEvent_follows this ls fp lstat)
      as (Hroot & Hglob & Hdot & Hignore & Htracked).
    assert (Hquiet : forall event relativePath metadata r t,
              ~ In (filepath,
                    {| payload := All event relativePath metadata r;
                       threw := t |})
                   (map (pair fp) (emitted (onFsEvent this ls fp lstat)))).
    { intros event relativePath metadata r t Hin.
      apply in_map_iff in Hin as (call & [= -> ->] & Hin).
      destruct event.
      - apply onFsEvent_touch in Hin as (stat & ty & _ & _ & Hinc).
        rewrite Hexcluded in Hinc. discriminate.
      - apply onFsEvent_delete in Hin as [Hin _]. contradiction. }
    assert (Hnot1 : filepath ∉ _tracked (watcher (onFsEvent this ls fp lstat))).
    { rewrite Htracked. intros [Hin | (rel & md & r & Hin)]%replay_elem;
        [contradiction|]. exact (Hquiet _ _ _ _ _ Hin). }
    destruct (IH _ _ _ Hrest) as [Hend Hcalls].
    { now rewrite Hroot, Hglob, Hdot, Hignore. }
    { exact Hnot1. }
    split; [exact Hend|].
    intros event relativePath metadata r t [Hin | Hin]%in_app_iff.
    + exact (Hquiet _ _ _ _ _ Hin).
    + exact (Hcalls _ _ _ _ _ Hin).
Qed.

End HandleEvent.

(** *** [close] *)

(** The optional argument of [close], when it is a function: whether a
    call of it throws. *)
Record Callback : Type := { throws : bool }.

(** Where the [async] function [close] stands: at one of its three
    [await]s, or settled. [TimerCallbackThrew] is the state in which the
    callback threw inside the timer, so that [resolve] was never called. *)
Inductive Phase : Type :=
| AwaitReaddir
| AwaitStopper
| CoolingDown (deadline : Z)
| Resolved
| Rejected
| TimerCallbackThrew.

(** What [close] does, as seen from outside. *)
Inductive Action : Type :=
| StopperCalled
| WatchStopped
| ListenersRemoved
| TimerSet
| CallbackCalled
| PromiseResolved
| PromiseRejected.

(** One call of [close]: the clock in milliseconds, and the actions so
    far with the time of each. *)
Record CloseState : Type := {
  phase : Phase;
  now : Z;
  log : list (Z * Action)
}.

(** What the event loop can do next: let time pass, settle the initial
    readdir promise, settle the promise of [fsEventsWatchStopper()]
    (fulfilled or not), or run the timer. *)
Inductive LoopEvent : Type :=
| Tick (elapsed : Z)
| ReaddirDone
| StopperDone (fulfilled : bool)
| TimerDue.

Definition act (s : CloseState) (p : Phase) (actions : list Action)
    : CloseState :=
  {| phase := p; now := now s;
     log := log s ++ map (pair (now s)) actions |}.

(** [close(callback)] has just been called, at time [t0]. *)
Definition closeCalled (t0 : Z) : CloseState :=
  {| phase := AwaitReaddir; now := t0; log := [] |}.

(** One turn of the event loop, or [None] when the event cannot happen in
    this state. A timer set with [setTimeout(f, 100)] does not run before
    100 ms have passed, so [TimerDue] needs the clock at the deadline. *)
Definition step (callback : option Callback) (s : CloseState)
    (e : LoopEvent) : option CloseState :=
  match e, phase s with
  | Tick elapsed, _ =>
      if 0 <=? elapsed
      then Some {| phase := phase s; now := now s + elapsed; log := log s |}
      else None
  | ReaddirDone, AwaitReaddir => Some (act s AwaitStopper [StopperCalled])
  | StopperDone true, AwaitStopper =>
      Some (act s (CoolingDown (now s + 100))
                [WatchStopped; ListenersRemoved; TimerSet])
  | StopperDone false, AwaitStopper => Some (act s Rejected [PromiseRejected])
  | TimerDue, CoolingDown deadline =>
      if deadline <=? now s then
        match callback with
        | Some cb =>
            if throws cb
            then Some (act s TimerCallbackThrew [CallbackCalled])
            else Some (act s Resolved [CallbackCalled; PromiseResolved])
        | None => Some (act s Resolved [PromiseResolved])
        end
      else None
  | _, _ => None
  end.

Fixpoint run (callback : option Callback) (s : CloseState)
    (events : list LoopEvent) : option CloseState :=
  match events with
  | [] => Some s
  | e :: rest =>
      match step callback s e with
      | Some s' => run callback s' rest
      | None => None
      end
  end.

(** What holds of a call of [close] at every moment: nothing is resolved
    or called back before the watch stopped and 100 ms went by. *)
Definition cooled (s : CloseState) : Prop :=
  (forall t a, In (t, a) (log s) -> t <= now s)
  /\ (forall t, In (t, PromiseResolved) (log s) \/ In (t, CallbackCalled) (log s) ->
        exists ts, In (ts, WatchStopped) (log s) /\ ts + 100 <= t)
  /\ match phase s with
     | CoolingDown deadline =>
         exists ts, In (ts, WatchStopped) (log s) /\ deadline = ts + 100
     | Resolved =>
         exists tr, In (tr, PromiseResolved) (log s)
     | _ => True
     end
  /\ (phase s <> Resolved -> forall t, ~ In (t, PromiseResolved) (log s)).

Lemma cooled_start (t0 : Z) : cooled (closeCalled t0).
Proof.
  unfold cooled, closeCalled; simpl. split; [|split; [|split]].
  - intros t a [].
  - intros t [[] | []].
  - exact I.
  - intros _ t [].
Qed.

Lemma in_act (s : CloseState) (p : Phase) (actions : list Action)
    (t : Z) (a : Action) :
  In (t, a) (log (act s p actions))
  <-> In (t, a) (log s) \/ (t = now s /\ In a actions).
Proof.
  unfold act; simpl. rewrite in_app_iff, in_map_iff. split.
  - intros [Hin | (a' & [= <- <-] & Hin)]; auto.
  - intros [Hin | [-> Hin]]; eauto.
Qed.

(** Doing [actions] and moving to phase [p] keeps the call cooled when
    resolving and calling back happen only 100 ms after the stop. *)
Lemma cooled_act (s : CloseState) (p : Phase) (actions : list Action) :
  cooled s ->
  (In PromiseResolved actions \/ In CallbackCalled actions ->
     exists ts, In (ts, WatchStopped) (log s) /\ ts + 100 <= now s) ->
  match p with
  | CoolingDown deadline =>
      In WatchStopped actions /\ deadline = now s + 100
  | Resolved => In PromiseResolved actions
  | _ => True
  end ->
  (p <> Resolved -> phase s <> Resolved /\ ~ In PromiseResolved actions) ->
  cooled (act s p actions).
Proof.
  intros (Htime & Hcool & _ & Hunres) Hlate Hp Hnot.
  split; [|split; [|split]].
  - intros t a [Hin | [-> _]]%in_act; [exact (Htime _ _ Hin) | simpl; lia].
  - assert (Hkeep : forall t, (exists ts, In (ts, WatchStopped) (log s)
                                          /\ ts + 100 <= t) ->
              exists ts, In (ts, WatchStopped) (log (act s p actions))
                         /\ ts + 100 <= t).
    { intros t (ts & Hts & Hle). exists ts. split; [|exact Hle].
      apply in_act. now left. }
    intros t [[Hin | [-> Hin]]%in_act | [Hin | [-> Hin]]%in_act];
      apply Hkeep; auto.
  - destruct p; try exact I.
    + destruct Hp as [Hin ->]. exists (now s). split; [|reflexivity].
      apply in_act. now right.
    + exists (now s). apply in_act. now right.
  - intros Hne t [Hin | [_ Hin]]%in_act; destruct (Hnot Hne) as [Hs Ha].
    + exact (Hunres Hs t Hin).
    + exact (Ha Hin).
Qed.

Lemma cooled_step (callback : option Callback) (s s' : CloseState)
    (e : LoopEvent) :
  cooled s -> step callback s e = Some s' -> cooled s'.
Proof.
  intros Hs. unfold step. destruct e as [elapsed | | [|] |].
  - destruct (0 <=? elapsed) eqn:Hpos; [|discriminate]. intros [= <-].
    apply Z.leb_le in Hpos. destruct Hs as (Htime & Hcool & Hphase & Hunres).
    split; [|split; [|split]]; simpl; try assumption.
    intros t a Hin. specialize (Htime t a Hin). lia.
  - destruct (phase s) eqn:Hp; try discriminate. intros [= <-].
    apply cooled_act; simpl; try tauto.
    + intros [[[=] | []] | [[=] | []]].
    + intros _. split; [congruence|]. intros [[=] | []].
  - destruct (phase s) eqn:Hp; try discriminate. intros [= <-].
    apply cooled_act; simpl; try tauto.
    + intros [[[=] | [[=] | [[=] | []]]] | [[=] | [[=] | [[=] | []]]]].
    + intros _. split; [congruence|]. intros [[=] | [[=] | [[=] | []]]].
  - destruct (phase s) eqn:Hp; try discriminate. intros [= <-].
    apply cooled_act; simpl; try tauto.
    + intros [[[=] | []] | [[=] | []]].
    + intros _. split; [congruence|]. intros [[=] | []].
  - destruct (phase s) eqn:Hp; try discriminate.
    destruct (deadline <=? now s) eqn:Hdue; [|discriminate].
    apply Z.leb_le in Hdue.
    assert (Hstopped : exists ts, In (ts, WatchStopped) (log s)
                                  /\ ts + 100 <= now s).
    { destruct Hs as (_ & _ & Hphase & _). rewrite Hp in Hphase.
      destruct Hphase as (ts & Hts & ->). eauto. }
    destruct callback as [[[|]]|]; intros [= <-];
      apply cooled_act; simpl; try tauto.
    intros _. split; [congruence|]. intros [[=] | []].
Qed.

Lemma cooled_run (callback : option Callback) (events : list LoopEvent)
    (s s' : CloseState) :
  cooled s -> run callback s events = Some s' -> cooled s'.
Proof.
  revert s. induction events as [|e rest IH]; intros s Hs; simpl.
  - now intros [= <-].
  - destruct (step callback s e) as [s1|] eqn:Hstep; [|discriminate].
    apply IH. exact (cooled_step _ _ _ _ Hs Hstep).
Qed.

(** C9. However the event loop proceeds after [close(callback)] is
    called, whenever the promise has been resolved or the callback has
    been called, at time [t], the underlying watch had stopped at some
    time [ts] with [ts + 100 <= t]; and the promise counts as resolved
    only from that moment on. *)
Theorem close_resolves_after_cooldown
    (callback : option Callback) (t0 : Z) (events : list LoopEvent)
    (s : CloseState) :
  run callback (closeCalled t0) events = Some s ->
  (forall t,
     In (t, PromiseResolved) (log s) \/ In (t, CallbackCalled) (log s) ->
     exists ts, In (ts, WatchStopped) (log s) /\ ts + 100 <= t)
  /\ (phase s = Resolved ->
      exists ts tr, In (ts, WatchStopped) (log s)
                    /\ In (tr, PromiseResolved) (log s)
                    /\ ts + 100 <= tr <= now s).
Proof.
  intros Hrun.
  destruct (cooled_run _ _ _ _ (cooled_start t0) Hrun)
    as (Htime & Hcool & Hphase & _).
  split; [exact Hcool|]. intros Hres. rewrite Hres in Hphase.
  destruct Hphase as (tr & Htr).
  destruct (Hcool tr) as (ts & Hts & Hle); [now left|].
  exists ts, tr. repeat split; try assumption. exact (Htime _ _ Htr).
Qed.

Lemma close_resolves_after_cooldown_witness :
  run (Some {| throws := false |}) (closeCalled 0)
      [ReaddirDone; Tick 5; StopperDone true; Tick 100; TimerDue]
  = Some {| phase := Resolved; now := 105;
            log := [(0, StopperCalled); (5, WatchStopped);
                    (5, ListenersRemoved); (5, TimerSet);
                    (105, CallbackCalled); (105, PromiseResolved)] |}
  /\ exists ts tr,
       In (ts, WatchStopped)
          [(0, StopperCalled); (5, WatchStopped); (5, ListenersRemoved);
           (5, TimerSet); (105, CallbackCalled); (105, PromiseResolved)]
       /\ In (tr, PromiseResolved)
            [(0, StopperCalled); (5, WatchStopped); (5, ListenersRemoved);
             (5, TimerSet); (105, CallbackCalled); (105, PromiseResolved)]
       /\ ts + 100 <= tr <= 105.
Proof.
  split; [reflexivity|].
  exact (proj2 (close_resolves_after_cooldown (Some {| throws := false |}) 0
                  [ReaddirDone; Tick 5; StopperDone true; Tick 100; TimerDue]
                  _ eq_refl) eq_refl).
Defined.

(** The timer cannot run while the cooldown lasts. *)
Example close_timer_not_due_early :
  run None (closeCalled 0) [ReaddirDone; StopperDone true; Tick 99; TimerDue]
  = None.
Proof. reflexivity. Qed.

(** *** A watcher that tracks nothing yet *)

Definition demoWatcher : Watcher :=
  {| root := "/p"; glob := ["**/*"]; dot := false;
     doIgnore := fun _ => false; _tracked := ∅ |}.

Definition demoRelative (rootDir p : string) : string :=
  if String.prefix (rootDir +:+ "/") p
  then Js.drop (S (String.length rootDir)) p
  else p.

Definition demoTypeFromStat (stat : Stats) : option FileType + ThrownValue :=
  if st_mode stat =? 0 then inl None else inl (Some RegularFile).

Definition demoIsIncluded (_ : FileType) (_ : list string) (_ : bool)
    (ignore : string -> bool) (relativePath : string) : bool + ThrownValue :=
  inl (negb (ignore relativePath)).

(** Listeners that handle every event; they count the events. *)
Definition quietEmit (seen : nat) (_ : Emitted) : nat * option ThrownValue :=
  (S seen, None).

Definition listenerFailed : ThrownValue :=
  {| code := None; message := "listener failed" |}.

(** A listener of the ['all'] events that throws on every delete. *)
Definition pickyEmit (seen : nat) (e : Emitted) : nat * option ThrownValue :=
  match e with
  | All DELETE_EVENT _ _ _ => (S seen, Some listenerFailed)
  | _ => (S seen, None)
  end.

Definition enoent : LstatError :=
  {| code := Some "ENOENT"; message := "no such file or directory" |}.

Definition eacces : LstatError :=
  {| code := Some "EACCES"; message := "permission denied" |}.

Definition seen : Stats + LstatError :=
  inl {| st_mode := 1; mtime := 7; size := 3 |}.

Definition touched (relativePath : string) : Emitted :=
  All TOUCH_EVENT relativePath
      (Some {| type := RegularFile; modifiedTime := 7; md_size := 3 |}) "/p".

Definition handled (e : Emitted) : EmitCall :=
  {| payload := e; threw := None |}.

Lemma delete_only_for_tracked_path_witness :
  code enoent = Some "ENOENT"
  /\ onFsEvent demoRelative demoTypeFromStat demoIsIncluded nat quietEmit
       demoWatcher 0%nat "/p/gone.js" (inr enoent)
     = {| emitted := []; watcher := demoWatcher; listeners := 0%nat;
          thrown := None |}.
Proof.
  split; [reflexivity|].
  apply (proj1 (delete_only_for_tracked_path demoRelative demoTypeFromStat
                  demoIsIncluded nat quietEmit demoWatcher 0%nat
                  "/p/gone.js" enoent eq_refl)).
  apply not_elem_of_empty.
Defined.

(** A file is seen, removed, and reported removed once more. *)
Example touch_then_delete_then_swallowed :
  fst (fst (handleEvents demoRelative demoTypeFromStat demoIsIncluded nat
              quietEmit demoWatcher 0%nat
              [("/p/a.js", seen); ("/p/a.js", inr enoent);
               ("/p/a.js", inr enoent)]))
  = [("/p/a.js", handled (touched "a.js"));
     ("/p/a.js", handled (All DELETE_EVENT "a.js" None "/p"))].
Proof. vm_compute. reflexivity. Qed.

(** With a listener that throws on a delete, the path stays tracked: the
    failure is emitted as an ['error'], and the next notification for the
    missing file emits the delete again. *)
Example throwing_listener_sees_delete_again :
  fst (fst (handleEvents demoRelative demoTypeFromStat demoIsIncluded nat
              pickyEmit demoWatcher 0%nat
              [("/p/a.js", seen); ("/p/a.js", inr enoent);
               ("/p/a.js", inr enoent)]))
  = [("/p/a.js", handled (touched "a.js"));
     ("/p/a.js", {| payload := All DELETE_EVENT "a.js" None "/p";
                    threw := Some listenerFailed |});
     ("/p/a.js", handled (Error listenerFailed));
     ("/p/a.js", {| payload := All DELETE_EVENT "a.js" None "/p";
                    threw := Some listenerFailed |});
     ("/p/a.js", handled (Error listenerFailed))].
Proof. vm_compute. reflexivity. Qed.

(** A file comes and goes twice, and once cannot be read. *)
Definition demoEvents : list (string * (Stats + LstatError)) :=
  [("/p/a.js", seen); ("/p/a.js", inr enoent); ("/p/a.js", inr enoent);
   ("/p/a.js", inr eacces); ("/p/a.js", seen); ("/p/a.js", inr enoent)].

Definition demoTrace : list (string * EmitCall) :=
  [("/p/a.js", handled (touched "a.js"));
   ("/p/a.js", handled (All DELETE_EVENT "a.js" None "/p"));
   ("/p/a.js", handled (Error eacces));
   ("/p/a.js", handled (touched "a.js"));
   ("/p/a.js", handled (All DELETE_EVENT "a.js" None "/p"))].

Definition demoRun : list (string * EmitCall) * Watcher * nat :=
  handleEvents demoRelative demoTypeFromStat demoIsIncluded nat quietEmit
    demoWatcher 0%nat demoEvents.

Lemma demoRun_trace :
  demoRun = (demoTrace, snd (fst demoRun), snd demoRun).
Proof.
  assert (Htrace : fst (fst demoRun) = demoTrace) by (vm_compute; reflexivity).
  rewrite <- Htrace. now destruct demoRun as [[trace this] ls].
Qed.

Lemma tracked_set_mirrors_handled_events_witness :
  demoRun = (demoTrace, snd (fst demoRun), snd demoRun)
  /\ _tracked (snd (fst demoRun)) = replay (_tracked demoWatcher) demoTrace.
Proof.
  split; [exact demoRun_trace|].
  exact (tracked_set_mirrors_handled_events demoRelative demoTypeFromStat
           demoIsIncluded nat quietEmit demoEvents demoWatcher
           (snd (fst demoRun)) 0%nat (snd demoRun) demoTrace demoRun_trace).
Defined.

Lemma handled_delete_not_repeated_without_touch_witness :
  demoRun = (demoTrace, snd (fst demoRun), snd demoRun)
  /\ demoTrace
     = [("/p/a.js", handled (touched "a.js"))]
         ++ ("/p/a.js", handled (All DELETE_EVENT "a.js" None "/p"))
         :: [("/p/a.js", handled (Error eacces));
             ("/p/a.js", handled (touched "a.js"))]
         ++ ("/p/a.js", handled (All DELETE_EVENT "a.js" None "/p")) :: []
  /\ exists relativePath metadata r,
       In ("/p/a.js",
           {| payload := All TOUCH_EVENT relativePath metadata r;
              threw := None |})
          [("/p/a.js", handled (Error eacces));
           ("/p/a.js", handled (touched "a.js"))].
Proof.
  split; [exact demoRun_trace|]. split; [reflexivity|].
  exact (handled_delete_not_repeated_without_touch demoRelative
           demoTypeFromStat demoIsIncluded nat quietEmit demoEvents
           demoWatcher (snd (fst demoRun)) 0%nat (snd demoRun) demoTrace
           [("/p/a.js", handled (touched "a.js"))]
           [("/p/a.js", handled (Error eacces));
            ("/p/a.js", handled (touched "a.js"))] []
           "/p/a.js" "a.js" "/p" "a.js" "/p" None None None
           demoRun_trace eq_refl).
Defined.

Lemma error_events_carry_what_was_thrown_witness :
  demoRun = (demoTrace, snd (fst demoRun), snd demoRun)
  /\ In ("/p/a.js", inr eacces) demoEvents
  /\ code eacces <> Some "ENOENT"
  /\ exists t,
       In ("/p/a.js", {| payload := Error eacces; threw := t |}) demoTrace.
Proof.
  assert (Hin : In ("/p/a.js", @inr Stats LstatError eacces) demoEvents)
    by (do 3 right; left; reflexivity).
  assert (Hcode : code eacces <> Some "ENOENT") by discriminate.
  split; [exact demoRun_trace|]. split; [exact Hin|]. split; [exact Hcode|].
  exact (proj1 (error_events_carry_what_was_thrown demoRelative
                  demoTypeFromStat demoIsIncluded nat quietEmit demoEvents
                  demoWatcher (snd (fst demoRun)) 0%nat (snd demoRun)
                  demoTrace "/p/a.js" eacces demoRun_trace) Hin Hcode).
Defined.

(** A watcher told to ignore [secret.js]. *)
Definition ignoringWatcher : Watcher :=
  {| root := "/p"; glob := ["**/*"]; dot := false;
     doIgnore := String.eqb "secret.js"; _tracked := ∅ |}.

Definition secretEvents : list (string * (Stats + LstatError)) :=
  [("/p/secret.js", seen); ("/p/a.js", seen); ("/p/secret.js", inr enoent)].

Definition secretRun : list (string * EmitCall) * Watcher * nat :=
  handleEvents demoRelative demoTypeFromStat demoIsIncluded nat quietEmit
    ignoringWatcher 0%nat secretEvents.

Lemma excluded_path_is_never_reported_witness :
  secretRun
  = ([("/p/a.js", handled (touched "a.js"))], snd (fst secretRun),
     snd secretRun)
  /\ (forall ty,
        demoIsIncluded ty (glob ignoringWatcher) (dot ignoringWatcher)
          (doIgnore ignoringWatcher)
          (demoRelative (root ignoringWatcher) "/p/secret.js") = inl false)
  /\ ("/p/secret.js" ∉ _tracked ignoringWatcher)
  /\ ("/p/secret.js" ∉ _tracked (snd (fst secretRun)))
  /\ forall event relativePath metadata r t,
       ~ In ("/p/secret.js",
             {| payload := All event relativePath metadata r; threw := t |})
            [("/p/a.js", handled (touched "a.js"))].
Proof.
  assert (Hrun : secretRun
                 = ([("/p/a.js", handled (touched "a.js"))],
                    snd (fst secretRun), snd secretRun)).
  { assert (Htrace : fst (fst secretRun)
                     = [("/p/a.js", handled (touched "a.js"))])
      by (vm_compute; reflexivity).
    rewrite <- Htrace. now destruct secretRun as [[trace this] ls]. }
  assert (Hexcl : forall ty,
            demoIsIncluded ty (glob ignoringWatcher) (dot ignoringWatcher)
              (doIgnore ignoringWatcher)
              (demoRelative (root ignoringWatcher) "/p/secret.js")
            = inl false)
    by (intros ty; reflexivity).
  assert (Hnot : "/p/secret.js" ∉ _tracked ignoringWatcher)
    by apply not_elem_of_empty.
  split; [exact Hrun|]. split; [exact Hexcl|]. split; [exact Hnot|].
  exact (excluded_path_is_never_reported demoRelative demoTypeFromStat
           demoIsIncluded nat quietEmit secretEvents ignoringWatcher
           (snd (fst secretRun)) 0%nat (snd secretRun)
           [("/p/a.js", handled (touched "a.js"))] "/p/secret.js"
           Hrun Hexcl Hnot).
Defined.

(** *** The order of what [close] does *)

(** The actions of a call of [close] that has reached a phase, in the
    order of the statements of [close]. *)
Definition actionsIn (callback : option Callback) (p : Phase) : list Action :=
  match p with
  | AwaitReaddir => []
  | AwaitStopper => [StopperCalled]
  | CoolingDown _ => [StopperCalled; WatchStopped; ListenersRemoved; TimerSet]
  | Resolved =>
      match callback with
      | Some _ => [StopperCalled; WatchStopped; ListenersRemoved; TimerSet;
                   CallbackCalled; PromiseResolved]
      | None => [StopperCalled; WatchStopped; ListenersRemoved; TimerSet;
                 PromiseResolved]
      end
  | Rejected => [StopperCalled; PromiseRejected]
  | TimerCallbackThrew =>
      [StopperCalled; WatchStopped; ListenersRemoved; TimerSet;
       CallbackCalled]
  end.

Lemma actions_act (s : CloseState) (p : Phase) (actions : list Action) :
  map snd (log (act s p actions)) = map snd (log s) ++ actions.
Proof.
  unfold act; simpl. rewrite List.map_app, List.map_map. simpl.
  now rewrite List.map_id.
Qed.

Lemma actions_step (callback : option Callback) (s s' : CloseState)
    (e : LoopEvent) :
  map snd (log s) = actionsIn callback (phase s) ->
  step callback s e = Some s' ->
  map snd (log s') = actionsIn callback (phase s').
Proof.
  intros Hs. unfold step. destruct e as [elapsed | | [|] |].
  - destruct (0 <=? elapsed); [|discriminate]. now intros [= <-].
  - destruct (phase s) eqn:Hp; try discriminate. intros [= <-].
    rewrite actions_act, Hs. reflexivity.
  - destruct (phase s) eqn:Hp; try discriminate. intros [= <-].
    rewrite actions_act, Hs. reflexivity.
  - destruct (phase s) eqn:Hp; try discriminate. intros [= <-].
    rewrite actions_act, Hs. reflexivity.
  - destruct (phase s) eqn:Hp; try discriminate.
    destruct (deadline <=? now s); [|discriminate].
    destruct callback as [[[|]]|]; intros [= <-];
      rewrite actions_act, Hs; reflexivity.
Qed.

Lemma actions_run (callback : option Callback) (events : list LoopEvent)
    (s s' : CloseState) :
  map snd (log s) = actionsIn callback (phase s) ->
  run callback s events = Some s' ->
  map snd (log s') = actionsIn callback (phase s').
Proof.
  revert s. induction events as [|e rest IH]; intros s Hs; simpl.
  - now intros [= <-].
  - destruct (step callback s e) as [s1|] eqn:Hstep; [|discriminate].
    apply IH. exact (actions_step _ _ _ _ Hs Hstep).
Qed.

(** X17. However the event loop proceeds, [close] has done exactly the
    actions of the phase it has reached, each once and in the order of
    its statements: the stopper is called first, the listeners are
    removed after the watch stopped and before the timer is set, the
    callback runs before the promise resolves. *)
Theorem close_actions_in_statement_order
    (callback : option Callback) (t0 : Z) (events : list LoopEvent)
    (s : CloseState) :
  run callback (closeCalled t0) events = Some s ->
  map snd (log s) = actionsIn callback (phase s).
Proof. apply actions_run. reflexivity. Qed.

Lemma throwing_step (cb : Callback) (s s' : CloseState) (e : LoopEvent) :
  throws cb = true -> phase s <> Resolved ->
  step (Some cb) s e = Some s' -> phase s' <> Resolved.
Proof.
  intros Hthrows Hs. unfold step. destruct e as [elapsed | | [|] |].
  - destruct (0 <=? elapsed); [|discriminate]. now intros [= <-].
  - destruct (phase s); try discriminate. now intros [= <-].
  - destruct (phase s); try discriminate. now intros [= <-].
  - destruct (phase s); try discriminate. now intros [= <-].
  - destruct (phase s); try discriminate.
    destruct (deadline <=? now s); [|discriminate].
    rewrite Hthrows. now intros [= <-].
Qed.

Lemma throwing_run (cb : Callback) (events : list LoopEvent)
    (s s' : CloseState) :
  throws cb = true -> phase s <> Resolved ->
  run (Some cb) s events = Some s' -> phase s' <> Resolved.
Proof.
  intros Hthrows. revert s.
  induction events as [|e rest IH]; intros s Hs; simpl.
  - now intros [= <-].
  - destruct (step (Some cb) s e) as [s1|] eqn:Hstep; [|discriminate].
    apply IH. exact (throwing_step _ _ _ _ Hthrows Hs Hstep).
Qed.

(** X18. When the callback given to [close] throws, the promise of
    [close] is never resolved, however long the event loop runs: the
    timer function stops at the call of the callback. *)
Theorem throwing_callback_leaves_close_unresolved
    (cb : Callback) (t0 : Z) (events : list LoopEvent) (s : CloseState) :
  throws cb = true ->
  run (Some cb) (closeCalled t0) events = Some s ->
  phase s <> Resolved
  /\ forall t, ~ In (t, PromiseResolved) (log s).
Proof.
  intros Hthrows Hrun.
  assert (Hphase : phase s <> Resolved).
  { apply (throwing_run cb events (closeCalled t0)); auto; discriminate. }
  split; [exact Hphase|]. intros t Hin.
  apply (in_map snd) in Hin. simpl in Hin.
  rewrite (actions_run _ _ (closeCalled t0) _ eq_refl Hrun) in Hin.
  destruct (phase s); simpl in Hin; intuition congruence.
Qed.

(** X19. When the promise of [fsEventsWatchStopper()] rejects, [close]
    rejects at once: the listeners are not removed, no timer is set and
    the callback is never called. *)
Theorem failed_stop_skips_cleanup_and_callback
    (callback : option Callback) (t0 : Z) (events : list LoopEvent)
    (s : CloseState) (t : Z) :
  run callback (closeCalled t0) events = Some s ->
  In (t, PromiseRejected) (log s) ->
  phase s = Rejected
  /\ forall t' a, In (t', a) (log s) ->
       a = StopperCalled \/ a = PromiseRejected.
Proof.
  intros Hrun Hin.
  pose proof (actions_run _ _ (closeCalled t0) _ eq_refl Hrun) as Hlog.
  apply (in_map snd) in Hin. simpl in Hin. rewrite Hlog in Hin.
  assert (Hphase : phase s = Rejected).
  { destruct (phase s); try reflexivity; exfalso;
      try destruct callback; simpl in Hin;
      repeat (destruct Hin as [[=] | Hin]); contradiction. }
  split; [exact Hphase|]. intros t' a Ha.
  apply (in_map snd) in Ha. simpl in Ha. rewrite Hlog, Hphase in Ha.
  destruct Ha as [<- | [<- | []]]; auto.
Qed.

(** *** [close] on a small run *)

Lemma close_actions_in_statement_order_witness :
  run (Some {| throws := false |}) (closeCalled 0)
      [ReaddirDone; Tick 5; StopperDone true; Tick 100; TimerDue]
  = Some {| phase := Resolved; now := 105;
            log := [(0, StopperCalled); (5, WatchStopped);
                    (5, ListenersRemoved); (5, TimerSet);
                    (105, CallbackCalled); (105, PromiseResolved)] |}
  /\ map snd [(0, StopperCalled); (5, WatchStopped); (5, ListenersRemoved);
              (5, TimerSet); (105, CallbackCalled); (105, PromiseResolved)]
     = actionsIn (Some {| throws := false |}) Resolved.
Proof.
  split; [reflexivity|].
  exact (close_actions_in_statement_order (Some {| throws := false |}) 0
           [ReaddirDone; Tick 5; StopperDone true; Tick 100; TimerDue]
           _ eq_refl).
Defined.

Lemma throwing_callback_leaves_close_unresolved_witness :
  throws {| throws := true |} = true
  /\ run (Some {| throws := true |}) (closeCalled 0)
         [ReaddirDone; StopperDone true; Tick 100; TimerDue; Tick 1000]
     = Some {| phase := TimerCallbackThrew; now := 1100;
               log := [(0, StopperCalled); (0, WatchStopped);
                       (0, ListenersRemoved); (0, TimerSet);
                       (100, CallbackCalled)] |}
  /\ TimerCallbackThrew <> Resolved
  /\ forall t,
       ~ In (t, PromiseResolved)
            [(0, StopperCalled); (0, WatchStopped); (0, ListenersRemoved);
             (0, TimerSet); (100, CallbackCalled)].
Proof.
  split; [reflexivity|]. split; [reflexivity|].
  exact (throwing_callback_leaves_close_unresolved {| throws := true |} 0
           [ReaddirDone; StopperDone true; Tick 100; TimerDue; Tick 1000]
           _ eq_refl eq_refl).
Defined.

Lemma failed_stop_skips_cleanup_and_callback_witness :
  run None (closeCalled 0) [ReaddirDone; Tick 3; StopperDone false; Tick 200]
  = Some {| phase := Rejected; now := 203;
            log := [(0, StopperCalled); (3, PromiseRejected)] |}
  /\ In (3, PromiseRejected) [(0, StopperCalled); (3, PromiseRejected)]
  /\ Rejected = Rejected
  /\ forall t' a,
       In (t', a) [(0, StopperCalled); (3, PromiseRejected)] ->
       a = StopperCalled \/ a = PromiseRejected.
Proof.
  split; [reflexivity|]. split; [right; left; reflexivity|].
  exact (failed_stop_skips_cleanup_and_callback None 0
           [ReaddirDone; Tick 3; StopperDone false; Tick 200]
           _ 3 eq_refl (or_intror (or_introl eq_refl))).
Defined.

End FSEventsWatcher.

(** ** The layered transform cache *)

Module Cache.

(** A JavaScript error value, such as [TypeError('bar')]. *)
Record JsError : Type := { errName : string; errMessage : string }.

(** How a promise settles. *)
Inductive Settled (A E : Type) : Type :=
| Fulfilled (value : A)
| RejectedWith (error : E).
Arguments Fulfilled {A E} value.
Arguments RejectedWith {A E} error.

(** Modelled from the spec: what a call of a method of the CacheStore
    port does (section 6, [get(key) -> value | null | Promise],
    [set(key, value) -> void | Promise<void>]): it returns a value,
    returns a promise that settles later, or throws. [None] as a value is
    [null] or [undefined]. *)
Inductive Behaviour (A : Type) : Type :=
| Returns (value : A)
| Promises (settles : Settled A JsError)
| Throws (error : JsError).
Arguments Returns {A} value.
Arguments Promises {A} settles.
Arguments Throws {A} error.

(** What calling a method ends in: a value, or an error thrown or
    rejected with. *)
Definition outcome {A} (b : Behaviour A) : Settled A JsError :=
  match b with
  | Returns v => Fulfilled v
  | Promises settles => settles
  | Throws e => RejectedWith e
  end.

(** One failed write: the store it is about and what the store threw or
    rejected with. *)
Record WriteError : Type := { store : string; cause : JsError }.

(** The aggregated error of [set]: its message, which lists the failing
    stores, and one error per failed write. *)
Record AggregateError : Type := {
  message : string;
  errors : list WriteError
}.

Section Stores.

(** The type of the cached artifacts. *)
Variable T : Type.

(** Modelled from the spec: the CacheStore port of section 6, a named
    store with [get(key)] and [set(key, value)]. *)
Record Store : Type := {
  name : string;
  get : string -> Behaviour (option T);
  set : string -> T -> Behaviour unit
}.

(** What the stores observe, in order: a method of the store at an index
    is called, or the promise it returned has settled and the cache has
    resumed. *)
Inductive Observed : Type :=
| GetCalled (i : nat) (key : string)
| GetSettled (i : nat)
| SetCalled (i : nat) (key : string) (value : T)
| SetSettled (i : nat).

(** Modelled from the spec: [Cache.js] (the [Cache] class behind
    TransformCache) is not among the sources. Section 4.4 gives [get] as
    trying the stores in order, awaiting a store's promise before
    proceeding, returning the first non-null result and propagating any
    store error; the test suite of the class fixes what happens on a hit.
    Its test of getting with a miss followed by a hit logs no store write,
    and its test "skips all cache stores when a hit is produced, based on
    the same key" has [cache.set] after such a [get] write the stores
    before the hit and no store from the hit on. So [get] remembers the
    store that answered, per key, and writes nothing itself; [_hits] is
    that memory, a store being known by its index. *)
Record Cache : Type := {
  _stores : list Store;
  _hits : gmap string nat
}.

(** Modelled from the spec: [new Cache(stores)], a cache over the given
    stores with no hit recorded. *)
Definition newCache (stores : list Store) : Cache :=
  {| _stores := stores; _hits := ∅ |}.

(** Modelled from the spec: what the store at index [i] observes when
    [get] consults it, the call and then the wait for its promise when it
    returned one (section 4.4, "If a store returns a promise, await it
    before proceeding to the next"). *)
Definition consult (i : nat) (key : string) (b : Behaviour (option T))
    : list Observed :=
  match b with
  | Promises _ => [GetCalled i key; GetSettled i]
  | _ => [GetCalled i key]
  end.

(** Modelled from the spec: the loop of [get] over the stores from index
    [i] on, absent like the class; section 4.4, "Try stores in order",
    "If a store returns a promise, await it before proceeding to the
    next", "On any store error during get: propagate". It gives what the
    stores observe, how the promise of [get] settles, and the index of the
    store that answered. *)
Fixpoint getFrom (stores : list Store) (i : nat) (key : string)
    : list Observed * Settled (option T) JsError * option nat :=
  match stores with
  | [] => ([], Fulfilled None, None)
  | s :: rest =>
      let b := get s key in
      match outcome b with
      | Fulfilled (Some value) => (consult i key b, Fulfilled (Some value), Some i)
      | Fulfilled None =>
          let '(seen, result, hit) := getFrom rest (S i) key in
          (consult i key b ++ seen, result, hit)
      | RejectedWith e => (consult i key b, RejectedWith e, None)
      end
  end.

(** Modelled from the spec: [Cache.get(key)], absent like the class; see
    [Cache] and [getFrom]. *)
Definition cacheGet (this : Cache) (key : string)
    : list Observed * Settled (option T) JsError * Cache :=
  let '(seen, result, hit) := getFrom (_stores this) 0 key in
  (seen, result,
   match hit with
   | Some i => {| _stores := _stores this; _hits := <[key := i]> (_hits this) |}
   | None => this
   end).

(** Modelled from the spec: the stores [set] writes to, absent like the
    class: those before the store that last answered a [get] of this key,
    as the test suite has it (see [Cache]), or all of them (section 4.4,
    "Write to all stores"). *)
Definition writable (this : Cache) (key : string) : list Store :=
  match _hits this !! key with
  | Some stop => take stop (_stores this)
  | None => _stores this
  end.

(** Modelled from the spec: the loop of [set] over the stores from index
    [i] on, absent like the class; section 4.4, "Write to all stores in
    parallel. Collect failures." It gives the calls, the failures of the
    stores that throw at once, and for each promise returned the failure
    it is rejected with, if any. *)
Fixpoint writeFrom (stores : list Store) (i : nat) (key : string) (value : T)
    : list Observed * list WriteError * list (nat * option WriteError) :=
  match stores with
  | [] => ([], [], [])
  | s :: rest =>
      let '(calls, thrown, pending) := writeFrom rest (S i) key value in
      let failure e := {| store := name s; cause := e |} in
      match set s key value with
      | Returns _ => (SetCalled i key value :: calls, thrown, pending)
      | Throws e => (SetCalled i key value :: calls, failure e :: thrown, pending)
      | Promises (Fulfilled _) =>
          (SetCalled i key value :: calls, thrown, (i, None) :: pending)
      | Promises (RejectedWith e) =>
          (SetCalled i key value :: calls, thrown,
           (i, Some (failure e)) :: pending)
      end
  end.

(** Modelled from the spec: [Cache.set(key, value)], absent like the
    class; section 4.4, "Write to all stores in parallel. Collect
    failures. If any failed, throw an aggregated error naming the stores
    that failed, preserving the individual causes", over the stores of
    [writable]. All stores are called before any promise is waited for; a
    store that throws fails at once, so its error comes before those of
    rejected promises, as in the test "throws all errors on a buggy store
    set"; the promises are taken to settle in index order. *)
Definition cacheSet (this : Cache) (key : string) (value : T)
    : list Observed * Settled unit AggregateError :=
  let '(calls, thrown, pending) := writeFrom (writable this key) 0 key value in
  let writeErrors := thrown ++ omap snd pending in
  (calls ++ map (fun p => SetSettled (fst p)) pending,
   match writeErrors with
   | [] => Fulfilled tt
   | _ :: _ =>
       RejectedWith
         {| message :=
              "Cache write failed for store(s): "
              +:+ Js.join ", " (map store writeErrors);
            errors := writeErrors |}
   end).

(** *** What [get] consults *)

(** The store answers a [get] of [key] with null, at once or through a
    promise. *)
Definition misses (key : string) (s : Store) : Prop :=
  outcome (get s key) = Fulfilled None.

(** The stores consulted one after the other, from index [i] on: each
    call, and the wait for its promise, comes before the next call. *)
Fixpoint consultAll (i : nat) (key : string) (stores : list Store)
    : list Observed :=
  match stores with
  | [] => []
  | s :: rest => consult i key (get s key) ++ consultAll (S i) key rest
  end.

Lemma consultAll_app (i : nat) (key : string) (l1 l2 : list Store) :
  consultAll i key (l1 ++ l2)
  = consultAll i key l1 ++ consultAll (i + length l1) key l2.
Proof.
  revert i. induction l1 as [|s l1 IH]; intros i; simpl.
  - now rewrite Nat.add_0_r.
  - rewrite IH, <- app_assoc. now rewrite Nat.add_succ_r.
Qed.

Lemma consultAll_index (i j : nat) (key k : string) (stores : list Store) :
  In (GetCalled j k) (consultAll i key stores) ->
  (i <= j < i + length stores)%nat.
Proof.
  revert i. induction stores as [|s rest IH]; intros i; simpl; [intros []|].
  intros [Hin | Hin]%in_app_or.
  - unfold consult in Hin.
    destruct (get s key); simpl in Hin;
      repeat (destruct Hin as [Hin | Hin]; try discriminate; try injection Hin as <- _);
      try lia; destruct Hin.
  - specialize (IH _ Hin). lia.
Qed.

Lemma consultAll_no_set (i j : nat) (key k : string) (x : T)
    (stores : list Store) :
  ~ In (SetCalled j k x) (consultAll i key stores).
Proof.
  revert i. induction stores as [|s rest IH]; intros i; simpl; [tauto|].
  intros [Hin | Hin]%in_app_or; [|exact (IH _ Hin)].
  unfold consult in Hin. destruct (get s key); simpl in Hin;
    repeat (destruct Hin as [Hin | Hin]; try discriminate); destruct Hin.
Qed.

(** Stores that miss are consulted in turn and the search goes on. *)
Lemma getFrom_misses (before rest : list Store) (i : nat) (key : string) :
  Forall (misses key) before ->
  getFrom (before ++ rest) i key
  = let '(seen, result, hit) := getFrom rest (i + length before) key in
    (consultAll i key before ++ seen, result, hit).
Proof.
  intros Hmiss. revert i.
  induction Hmiss as [|s before Hs _ IH]; intros i; simpl.
  - rewrite Nat.add_0_r. now destruct (getFrom rest i key) as [[? ?] ?].
  - unfold misses in Hs. rewrite Hs, IH, Nat.add_succ_r. simpl.
    destruct (getFrom rest _ key) as [[seen result] hit].
    now rewrite <- app_assoc.
Qed.

(** [this] with the store at index [i] remembered as the one that
    answered [key]. *)
Definition withHit (this : Cache) (key : string) (i : nat) : Cache :=
  {| _stores := _stores this; _hits := <[key := i]> (_hits this) |}.

Lemma cacheGet_decided (this : Cache) (key : string)
    (before after : list Store) (s : Store) :
  _stores this = before ++ s :: after ->
  Forall (misses key) before ->
  cacheGet this key
  = match outcome (get s key) with
    | Fulfilled (Some value) =>
        (consultAll 0 key (before ++ [s]), Fulfilled (Some value),
         withHit this key (length before))
    | Fulfilled None =>
        let '(seen, result, hit) :=
          getFrom after (S (length before)) key in
        (consultAll 0 key (before ++ [s]) ++ seen, result,
         match hit with Some i => withHit this key i | None => this end)
    | RejectedWith e =>
        (consultAll 0 key (before ++ [s]), RejectedWith e, this)
    end.
Proof.
  intros Hstores Hmiss. unfold cacheGet, withHit.
  rewrite Hstores, getFrom_misses by exact Hmiss.
  rewrite consultAll_app. simpl.
  destruct (outcome (get s key)) as [[value|]|e]; rewrite ?app_nil_r;
    try reflexivity.
  destruct (getFrom after (S (length before)) key) as [[seen result] hit].
  now rewrite <- app_assoc.
Qed.

(** C1. The stores that miss before the first other answer are consulted
    in index order, each call followed by the wait for the promise it
    returned before the next store is called. If they are all the stores,
    [get] yields null. If the next store answers with a value, [get]
    yields this value, having consulted the stores up to that one and none
    after it. *)
Theorem get_returns_first_result_in_store_order
    (this : Cache) (key : string) (before rest : list Store) :
  _stores this = before ++ rest ->
  Forall (misses key) before ->
  match rest with
  | [] =>
      cacheGet this key = (consultAll 0 key before, Fulfilled None, this)
  | s :: after =>
      forall value,
        outcome (get s key) = Fulfilled (Some value) ->
        cacheGet this key
        = (consultAll 0 key (before ++ [s]), Fulfilled (Some value),
           withHit this key (length before))
        /\ forall j k,
             In (GetCalled j k) (consultAll 0 key (before ++ [s])) ->
             (j <= length before)%nat
  end.
Proof.
  intros Hstores Hmiss. destruct rest as [|s after].
  - unfold cacheGet. rewrite Hstores, getFrom_misses by exact Hmiss. simpl.
    now rewrite app_nil_r.
  - intros value Hvalue.
    rewrite (cacheGet_decided _ _ _ _ _ Hstores Hmiss), Hvalue.
    split; [reflexivity|]. intros j k Hin.
    apply consultAll_index in Hin. rewrite length_app in Hin. simpl in Hin. lia.
Qed.

(** C7. When the stores before one all miss and that store's [get] throws
    or returns a promise that is rejected, [get] is rejected with the same
    error: no value is returned, no further store is consulted and the
    cache remembers nothing. *)
Theorem get_propagates_store_error
    (this : Cache) (key : string) (before after : list Store) (s : Store)
    (e : JsError) :
  _stores this = before ++ s :: after ->
  Forall (misses key) before ->
  get s key = Throws e \/ get s key = Promises (RejectedWith e) ->
  cacheGet this key = (consultAll 0 key (before ++ [s]), RejectedWith e, this).
Proof.
  intros Hstores Hmiss Hfail.
  rewrite (cacheGet_decided _ _ _ _ _ Hstores Hmiss).
  now destruct Hfail as [-> | ->].
Qed.

(** *** What [set] writes *)

(** The failure a store's [set] ends in, if any. *)
Definition failureOf (key : string) (value : T) (s : Store)
    : option WriteError :=
  match outcome (set s key value) with
  | RejectedWith e => Some {| store := name s; cause := e |}
  | Fulfilled _ => None
  end.

(** How often the store at index [i] has its [set] called in a trace. *)
Definition setCalls (i : nat) (seen : list Observed) : nat :=
  length (List.filter (fun o => match o with
                                | SetCalled j _ _ => Nat.eqb j i
                                | _ => false
                                end) seen).

Definition isSetSettledBelow (n : nat) (o : Observed) : Prop :=
  exists j, o = SetSettled j /\ (j < n)%nat.

Lemma writeFrom_calls (stores : list Store) (i : nat) (key : string)
    (value : T) :
  fst (fst (writeFrom stores i key value))
  = map (fun j => SetCalled j key value) (seq i (length stores)).
Proof.
  revert i. induction stores as [|s rest IH]; intros i; simpl; [reflexivity|].
  specialize (IH (S i)).
  destruct (writeFrom rest (S i) key value) as [[calls thrown] pending].
  simpl in IH. rewrite <- IH.
  now destruct (set s key value) as [? | [? | ?] | ?].
Qed.

Lemma writeFrom_pending (stores : list Store) (i : nat) (key : string)
    (value : T) (p : nat * option WriteError) :
  In p (snd (writeFrom stores i key value)) ->
  (i <= fst p < i + length stores)%nat.
Proof.
  revert i. induction stores as [|s rest IH]; intros i; simpl; [intros []|].
  specialize (IH (S i)).
  destruct (writeFrom rest (S i) key value) as [[calls thrown] pending].
  simpl in IH.
  destruct (set s key value) as [? | [? | ?] | ?]; simpl;
    try (intros [<- | Hin]; [simpl; lia|]); try intros Hin;
    specialize (IH Hin); lia.
Qed.

Lemma writeFrom_errors_cons (s : Store) (rest : list Store) (i : nat)
    (key : string) (value : T) (we : WriteError) :
  In we (snd (fst (writeFrom (s :: rest) i key value))
         ++ omap snd (snd (writeFrom (s :: rest) i key value)))
  <-> failureOf key value s = Some we
      \/ In we (snd (fst (writeFrom rest (S i) key value))
                ++ omap snd (snd (writeFrom rest (S i) key value))).
Proof.
  simpl. unfold failureOf.
  destruct (writeFrom rest (S i) key value) as [[calls thrown] pending].
  destruct (set s key value) as [u | [u | e] | e]; simpl;
    rewrite ?in_app_iff; simpl; intuition congruence.
Qed.

Lemma writeFrom_errors (stores : list Store) (i : nat) (key : string)
    (value : T) (we : WriteError) :
  In we (snd (fst (writeFrom stores i key value))
         ++ omap snd (snd (writeFrom stores i key value)))
  <-> exists s, In s stores /\ failureOf key value s = Some we.
Proof.
  revert i. induction stores as [|s rest IH]; intros i.
  - simpl. split; [intros Hin; destruct Hin | intros (s & [] & _)].
  - rewrite writeFrom_errors_cons, IH. split.
    + intros [Hf | (s0 & Hin & Hf)]; [exists s | exists s0]; split; auto;
        [now left | now right].
    + intros (s0 & [<- | Hin] & Hf); eauto.
Qed.

Lemma setCalls_app (i : nat) (l1 l2 : list Observed) :
  setCalls i (l1 ++ l2) = (setCalls i l1 + setCalls i l2)%nat.
Proof. unfold setCalls. now rewrite List.filter_app, length_app. Qed.

Lemma setCalls_settled (i n : nat) (l : list Observed) :
  Forall (isSetSettledBelow n) l -> setCalls i l = 0%nat.
Proof.
  induction 1 as [|o l (j & -> & _) _ IH]; [reflexivity|exact IH].
Qed.

Lemma setCalls_range (i start n : nat) (key : string) (value : T) :
  setCalls i (map (fun j => SetCalled j key value) (seq start n))
  = if (start <=? i)%nat && (i <? start + n)%nat then 1%nat else 0%nat.
Proof.
  revert start. induction n as [|n IH]; intros start; simpl.
  - destruct (start <=? i)%nat eqn:H1; [|reflexivity].
    destruct (i <? start + 0)%nat eqn:H2; [|reflexivity].
    apply Nat.leb_le in H1. apply Nat.ltb_lt in H2. lia.
  - unfold setCalls in *. simpl. specialize (IH (S start)).
    destruct (Nat.eqb_spec start i) as [-> | Hne]; simpl; rewrite IH.
    + rewrite Nat.leb_refl.
      replace (S i <=? i)%nat with false by (symmetry; apply Nat.leb_gt; lia).
      replace (i <? i + S n)%nat with true by (symmetry; apply Nat.ltb_lt; lia).
      reflexivity.
    + replace (S start + n)%nat with (start + S n)%nat by lia.
      destruct (Nat.leb_spec (S start) i), (Nat.leb_spec start i); try lia;
        reflexivity.
Qed.

Lemma consultAll_setCalls (i j : nat) (key : string) (stores : list Store) :
  setCalls j (consultAll i key stores) = 0%nat.
Proof.
  revert i. induction stores as [|s0 l IH]; intros i; [reflexivity|]. simpl.
  rewrite setCalls_app, IH. unfold consult. now destruct (get s0 key).
Qed.

(** The shape of what [set] does: the calls on the written stores, then
    the waits, and the failures collected. *)
Lemma cacheSet_shape (this : Cache) (key : string) (value : T) :
  exists settles writeErrors,
    cacheSet this key value
    = (map (fun j => SetCalled j key value)
           (seq 0 (length (writable this key))) ++ settles,
       match writeErrors with
       | [] => Fulfilled tt
       | _ :: _ =>
           RejectedWith
             {| message :=
                  "Cache write failed for store(s): "
                  +:+ Js.join ", " (map store writeErrors);
                errors := writeErrors |}
       end)
    /\ Forall (isSetSettledBelow (length (writable this key))) settles
    /\ forall we,
         In we writeErrors
         <-> exists s, In s (writable this key)
                       /\ failureOf key value s = Some we.
Proof.
  unfold cacheSet.
  pose proof (writeFrom_calls (writable this key) 0 key value) as Hcalls.
  pose proof (writeFrom_pending (writable this key) 0 key value) as Hpending.
  pose proof (writeFrom_errors (writable this key) 0 key value) as Herrors.
  destruct (writeFrom (writable this key) 0 key value)
    as [[calls thrown] pending].
  simpl in Hcalls, Hpending, Herrors. subst calls.
  exists (map (fun p => SetSettled (fst p)) pending), (thrown ++ omap snd pending).
  split; [reflexivity|]. split; [|exact Herrors].
  apply List.Forall_forall. intros o (p & <- & Hin)%in_map_iff.
  exists (fst p). split; [reflexivity|]. specialize (Hpending p Hin). lia.
Qed.

(** C6, amended. [set] calls [set] with the value, once each, on every
    store it writes to, in index order and before it waits for any
    promise; these are all the stores unless a [get] of the key was
    answered, and then those before the store that answered. It is
    fulfilled when none of the writes fails. Otherwise it is rejected with
    one aggregated error whose message lists the name of every failing
    store and whose errors are exactly the failed writes, each with the
    store's name and what the store threw or rejected with; the other
    stores have been called all the same. *)
Theorem set_writes_in_parallel_and_aggregates_failures
    (this : Cache) (key : string) (value : T) :
  exists settles writeErrors,
    cacheSet this key value
    = (map (fun j => SetCalled j key value)
           (seq 0 (length (writable this key))) ++ settles,
       match writeErrors with
       | [] => Fulfilled tt
       | _ :: _ =>
           RejectedWith
             {| message :=
                  "Cache write failed for store(s): "
                  +:+ Js.join ", " (map store writeErrors);
                errors := writeErrors |}
       end)
    /\ Forall (isSetSettledBelow (length (writable this key))) settles
    /\ (forall we,
          In we writeErrors
          <-> exists s e,
                In s (writable this key)
                /\ (set s key value = Throws e
                    \/ set s key value = Promises (RejectedWith e))
                /\ we = {| store := name s; cause := e |})
    /\ writable this key
       = match _hits this !! key with
         | Some stop => take stop (_stores this)
         | None => _stores this
         end.
Proof.
  destruct (cacheSet_shape this key value)
    as (settles & writeErrors & Hset & Hsettles & Herrors).
  exists settles, writeErrors.
  split; [exact Hset|]. split; [exact Hsettles|]. split; [|reflexivity].
  intros we. rewrite Herrors. unfold failureOf. split.
  - intros (s & Hin & Hf). exists s.
    destruct (set s key value) as [u | [u | e] | e]; simpl in Hf;
      try discriminate; injection Hf as <-; eauto 6.
  - intros (s & e & Hin & [Hs | Hs] & ->); exists s; rewrite Hs; auto.
Qed.

(** C2, amended. When [get] finds its first non-null result at a store,
    it returns the result and calls no store's [set]; it remembers the
    store. The [set] of that key that follows calls [set] exactly once on
    each store before the one that answered, and never on that store or a
    later one. *)
Theorem hit_limits_following_set_to_earlier_stores
    (this : Cache) (key : string) (before after : list Store) (s : Store)
    (v : T) :
  _stores this = before ++ s :: after ->
  Forall (misses key) before ->
  outcome (get s key) = Fulfilled (Some v) ->
  cacheGet this key
  = (consultAll 0 key (before ++ [s]), Fulfilled (Some v),
     withHit this key (length before))
  /\ (forall j, setCalls j (consultAll 0 key (before ++ [s])) = 0%nat)
  /\ forall value j,
       setCalls j (fst (cacheSet (withHit this key (length before)) key value))
       = if (j <? length before)%nat then 1%nat else 0%nat.
Proof.
  intros Hstores Hmiss Hhit. split; [|split].
  - now rewrite (cacheGet_decided _ _ _ _ _ Hstores Hmiss), Hhit.
  - intros j. apply consultAll_setCalls.
  - intros value j.
    destruct (cacheSet_shape (withHit this key (length before)) key value)
      as (settles & writeErrors & -> & Hsettles & _).
    assert (Hwritable : writable (withHit this key (length before)) key = before).
    { unfold writable, withHit. simpl.
      now rewrite lookup_insert_eq, Hstores, take_app_length. }
    rewrite Hwritable in *. simpl.
    rewrite setCalls_app, setCalls_range, (setCalls_settled _ _ _ Hsettles).
    simpl. rewrite Nat.add_0_r. now destruct (j <? length before)%nat.
Qed.

End Stores.

Arguments name {T} _.
Arguments get {T} _ _.
Arguments set {T} _ _ _.
Arguments GetCalled {T} i key.
Arguments GetSettled {T} i.
Arguments SetCalled {T} i key value.
Arguments SetSettled {T} i.
Arguments _stores {T} _.
Arguments _hits {T} _.
Arguments newCache {T} stores.
Arguments withHit {T} this key i.
Arguments cacheGet {T} this key.
Arguments cacheSet {T} this key value.
Arguments consultAll {T} i key stores.
Arguments setCalls {T} i seen.
Arguments misses {T} key s.

(** *** The stores of the test suite *)

(** [createStore(name)]: [get] answers null and [set] returns at once. *)
Definition createStore (storeName : string) : Store string :=
  {| name := storeName;
     get := fun _ => Returns None;
     set := fun _ _ => Returns tt |}.

(** A store whose [get] answers [value]. *)
Definition storeWith (storeName value : string) : Store string :=
  {| name := storeName;
     get := fun _ => Returns (Some value);
     set := fun _ _ => Returns tt |}.

Definition typeErrorBar : JsError :=
  {| errName := "TypeError"; errMessage := "bar" |}.

Definition rangeErrorFoo : JsError :=
  {| errName := "RangeError"; errMessage := "foo" |}.

(** A store whose [get] returns a promise that is rejected. *)
Definition buggyGetStore : Store string :=
  {| name := "store2";
     get := fun _ => Promises (RejectedWith typeErrorBar);
     set := fun _ _ => Returns tt |}.

Definition badAsyncStore : Store string :=
  {| name := "BadAsyncStore";
     get := fun _ => Returns None;
     set := fun _ _ => Promises (RejectedWith rangeErrorFoo) |}.

Definition badSyncStore : Store string :=
  {| name := "BadSyncStore";
     get := fun _ => Returns None;
     set := fun _ _ => Throws typeErrorBar |}.

(** A store whose [get] returns a promise that is fulfilled with
    [undefined]. *)
Definition slowStore : Store string :=
  {| name := "store1";
     get := fun _ => Promises (Fulfilled None);
     set := fun _ _ => Returns tt |}.

Definition threeStores : Cache string :=
  newCache [createStore "store1"; storeWith "store2" "hit!";
            createStore "store3"].

Definition layered : Cache string :=
  newCache [createStore "Local"; storeWith "Network" "X"].

(** "returns null when no result is found" *)
Example test_returns_null :
  cacheGet (newCache [createStore "store1"; createStore "store2"]) "foo"
  = ([GetCalled 0 "foo"; GetCalled 1 "foo"], Fulfilled None,
     newCache [createStore "store1"; createStore "store2"]).
Proof. reflexivity. Qed.

(** "sequentially searches up until it finds a valid result" *)
Example test_sequential_search :
  fst (cacheGet threeStores "foo")
  = ([GetCalled 0 "foo"; GetCalled 1 "foo"], Fulfilled (Some "hit!")).
Proof. reflexivity. Qed.

(** "skips all cache stores when a hit is produced, based on the same key" *)
Example test_set_after_hit :
  map (fun i => setCalls i
                  (fst (cacheSet (snd (cacheGet threeStores "foo")) "foo" "v")))
      [0; 1; 2]%nat
  = [1; 0; 0]%nat.
Proof. vm_compute. reflexivity. Qed.

(** "awaits for promises on stores, even if they return undefined" *)
Example test_awaits_promises :
  fst (cacheGet (newCache [slowStore; createStore "store2"]) "foo")
  = ([GetCalled 0 "foo"; GetSettled 0; GetCalled 1 "foo"], Fulfilled None).
Proof. reflexivity. Qed.

(** "throws all errors on a buggy store set" *)
Example test_buggy_store_set :
  cacheSet (newCache [createStore "GoodStore"; badAsyncStore; badSyncStore])
           "foo" "arg"
  = ([SetCalled 0 "foo" "arg"; SetCalled 1 "foo" "arg";
      SetCalled 2 "foo" "arg"; SetSettled 1],
     RejectedWith
       {| message :=
            "Cache write failed for store(s): BadSyncStore, BadAsyncStore";
          errors := [ {| store := "BadSyncStore"; cause := typeErrorBar |};
                      {| store := "BadAsyncStore"; cause := rangeErrorFoo |} ] |}).
Proof. vm_compute. reflexivity. Qed.

(** "throws on a buggy store get" *)
Example test_buggy_store_get :
  fst (cacheGet (newCache [createStore "store1"; buggyGetStore]) "foo")
  = ([GetCalled 0 "foo"; GetCalled 1 "foo"; GetSettled 1],
     RejectedWith typeErrorBar).
Proof. reflexivity. Qed.

Lemma get_returns_first_result_in_store_order_witness :
  _stores threeStores
    = [createStore "store1"]
      ++ [storeWith "store2" "hit!"; createStore "store3"]
  /\ Forall (misses "foo") [createStore "store1"]
  /\ cacheGet threeStores "foo"
     = ([GetCalled 0 "foo"; GetCalled 1 "foo"], Fulfilled (Some "hit!"),
        withHit threeStores "foo" 1).
Proof.
  split; [reflexivity|].
  assert (Hmiss : Forall (misses "foo") [createStore "store1"])
    by (constructor; [reflexivity | constructor]).
  split; [exact Hmiss|].
  exact (proj1 (get_returns_first_result_in_store_order string threeStores
                  "foo" [createStore "store1"]
                  [storeWith "store2" "hit!"; createStore "store3"]
                  eq_refl Hmiss "hit!" eq_refl)).
Defined.

Lemma get_propagates_store_error_witness :
  _stores (newCache [createStore "store1"; buggyGetStore])
    = [createStore "store1"] ++ buggyGetStore :: []
  /\ Forall (misses "foo") [createStore "store1"]
  /\ cacheGet (newCache [createStore "store1"; buggyGetStore]) "foo"
     = ([GetCalled 0 "foo"; GetCalled 1 "foo"; GetSettled 1],
        RejectedWith typeErrorBar,
        newCache [createStore "store1"; buggyGetStore]).
Proof.
  split; [reflexivity|].
  assert (Hmiss : Forall (misses "foo") [createStore "store1"])
    by (constructor; [reflexivity | constructor]).
  split; [exact Hmiss|].
  exact (get_propagates_store_error string
           (newCache [createStore "store1"; buggyGetStore]) "foo"
           [createStore "store1"] [] buggyGetStore typeErrorBar
           eq_refl Hmiss (or_intror eq_refl)).
Defined.

(** C2 as stated fails on the layering scenario: [get] returns ["X"]
    from Network, and [Local.set] has not been called, by [get], once. *)
Lemma layered_get_alone_writes_no_store :
  cacheGet layered "k"
  = ([GetCalled 0 "k"; GetCalled 1 "k"], Fulfilled (Some "X"),
     withHit layered "k" 1)
  /\ setCalls 0 (fst (fst (cacheGet layered "k"))) = 0%nat.
Proof. split; reflexivity. Qed.

Lemma hit_limits_following_set_to_earlier_stores_witness :
  _stores layered = [createStore "Local"] ++ storeWith "Network" "X" :: []
  /\ Forall (misses "k") [createStore "Local"]
  /\ cacheGet layered "k"
     = ([GetCalled 0 "k"; GetCalled 1 "k"], Fulfilled (Some "X"),
        withHit layered "k" 1)
  /\ setCalls 0 (fst (cacheSet (withHit layered "k" 1) "k" "X")) = 1%nat
  /\ setCalls 1 (fst (cacheSet (withHit layered "k" 1) "k" "X")) = 0%nat.
Proof.
  split; [reflexivity|].
  assert (Hmiss : Forall (misses "k") [createStore "Local"])
    by (constructor; [reflexivity | constructor]).
  split; [exact Hmiss|].
  destruct (hit_limits_following_set_to_earlier_stores string layered "k"
              [createStore "Local"] [] (storeWith "Network" "X") "X"
              eq_refl Hmiss eq_refl) as (Hget & _ & Hset).
  split; [exact Hget|]. split.
  - exact (Hset "X" 0%nat).
  - exact (Hset "X" 1%nat).
Defined.

(** C6 as stated fails after a hit: the [set] of the key that follows is
    fulfilled, yet it has called neither the store that answered nor the
    store after it, only the store before. *)
Lemma set_after_hit_skips_later_stores :
  cacheSet (snd (cacheGet threeStores "foo")) "foo" "arg"
  = ([SetCalled 0 "foo" "arg"], Fulfilled tt).
Proof. vm_compute. reflexivity. Qed.

End Cache.

(** ** The constant-folding pass *)

Module ConstantFolding.

(** Modelled from the spec: the syntax the folding pass of section 4.5
    works on, as far as the section and the scenarios of section 8 name
    it; [constant-folding-plugin.js] and the Babel AST it rewrites are
    not among the sources. Numeric literals are not negative: [-1] is
    the unary minus of [1]. *)
Inductive BinaryOperator : Type := StrictEq | StrictNotEq | LooseEq | LooseNotEq.

#[local] Set Warnings "-register-all".

Inductive LogicalOperator : Type := And | Or | Nullish.

Inductive UnaryOperator : Type := Not | Plus | Minus | Void.

Inductive Expr : Type :=
| StringLiteral (s : string)
| NumericLiteral (n : N)
| BooleanLiteral (b : bool)
| NullLiteral
| Identifier (x : string)
| BinaryExpression (op : BinaryOperator) (l r : Expr)
| LogicalExpression (op : LogicalOperator) (l r : Expr)
| UnaryExpression (op : UnaryOperator) (argument : Expr)
| ConditionalExpression (test consequent alternate : Expr)
| ObjectExpression (properties : list (string * Expr))
| MemberExpression (object : Expr) (property : string)
| CallExpression (callee : Expr) (arguments : list Expr)
| OptionalCallExpression (callee : Expr) (arguments : list Expr).

Inductive Stmt : Type :=
| VariableDeclaration (x : string) (init : Expr)
| ExpressionStatement (e : Expr)
| IfStatement (test : Expr) (consequent : Stmt) (alternate : option Stmt)
| BlockStatement (body : list Stmt)
| FunctionDeclaration (f : string) (body : list Stmt)
| ExportDefaultDeclaration (e : Expr).

(** The value of an expression that is statically known. *)
Inductive Value : Type :=
| VString (s : string)
| VNumber (n : Z)
| VBoolean (b : bool)
| VNull
| VUndefined.

(** Modelled from the spec: the literals the pass takes as statically
    known (section 4.5, "literal equality", "unary [!]/[+]/[-]", "void
    <literal>"); absent like the plugin. The negation of zero is not one
    of them ("must not rewrite negative-zero"). *)
Definition literalValue (e : Expr) : option Value :=
  match e with
  | StringLiteral s => Some (VString s)
  | NumericLiteral n => Some (VNumber (Z.of_N n))
  | BooleanLiteral b => Some (VBoolean b)
  | NullLiteral => Some VNull
  | Identifier "undefined" => Some VUndefined
  | UnaryExpression Minus (NumericLiteral n) =>
      if (n =? 0)%N then None else Some (VNumber (- Z.of_N n))
  | _ => None
  end.

(** The expression that denotes a known value. *)
Definition valueToNode (v : Value) : Expr :=
  match v with
  | VString s => StringLiteral s
  | VNumber n =>
      if n <? 0 then UnaryExpression Minus (NumericLiteral (Z.to_N (- n)))
      else NumericLiteral (Z.to_N n)
  | VBoolean b => BooleanLiteral b
  | VNull => NullLiteral
  | VUndefined => Identifier "undefined"
  end.

(** [ToBoolean] on a known value. *)
Definition truthy (v : Value) : bool :=
  match v with
  | VString s => negb (String.eqb s EmptyString)
  | VNumber n => negb (n =? 0)
  | VBoolean b => b
  | VNull | VUndefined => false
  end.

(** [===] on two known values. *)
Definition strictEquals (a b : Value) : bool :=
  match a, b with
  | VString x, VString y => String.eqb x y
  | VNumber x, VNumber y => x =? y
  | VBoolean x, VBoolean y => Bool.eqb x y
  | VNull, VNull | VUndefined, VUndefined => true
  | _, _ => false
  end.

Definition sameType (a b : Value) : bool :=
  match a, b with
  | VString _, VString _ | VNumber _, VNumber _ | VBoolean _, VBoolean _
  | VNull, VNull | VUndefined, VUndefined => true
  | _, _ => false
  end.

Definition nullish (v : Value) : bool :=
  match v with
  | VNull | VUndefined => true
  | _ => false
  end.

(** [==] on two known values, where no conversion is involved. *)
Definition looseEquals (a b : Value) : option bool :=
  if sameType a b then Some (strictEquals a b)
  else if nullish a && nullish b then Some true
  else if nullish a || nullish b then Some false
  else None.

(** Modelled from the spec: folding one node whose operands are folded
    (section 4.5: "evaluates statically-known branches (literal equality,
    logical [&&]/[||]/[??], unary [!]/[+]/[-], ternary with literal test,
    [void <literal>], ...)", "must not touch non-literal void
    expressions"); absent like the plugin. *)
Definition foldBinary (op : BinaryOperator) (l r : Expr) : Expr :=
  match literalValue l, literalValue r with
  | Some a, Some b =>
      match op with
      | StrictEq => BooleanLiteral (strictEquals a b)
      | StrictNotEq => BooleanLiteral (negb (strictEquals a b))
      | LooseEq =>
          match looseEquals a b with
          | Some eq => BooleanLiteral eq
          | None => BinaryExpression op l r
          end
      | LooseNotEq =>
          match looseEquals a b with
          | Some eq => BooleanLiteral (negb eq)
          | None => BinaryExpression op l r
          end
      end
  | _, _ => BinaryExpression op l r
  end.

Definition foldLogical (op : LogicalOperator) (l r : Expr) : Expr :=
  match literalValue l with
  | Some a =>
      match op with
      | And => if truthy a then r else l
      | Or => if truthy a then l else r
      | Nullish => if nullish a then r else l
      end
  | None => LogicalExpression op l r
  end.

Definition foldUnary (op : UnaryOperator) (argument : Expr) : Expr :=
  match literalValue argument with
  | Some a =>
      match op, a with
      | Not, _ => BooleanLiteral (negb (truthy a))
      | Plus, VNumber n => valueToNode (VNumber n)
      | Minus, VNumber n =>
          if n =? 0 then UnaryExpression op argument
          else valueToNode (VNumber (- n))
      | Void, _ => Identifier "undefined"
      | _, _ => UnaryExpression op argument
      end
  | None => UnaryExpression op argument
  end.

Definition foldConditional (test consequent alternate : Expr) : Expr :=
  match literalValue test with
  | Some a => if truthy a then consequent else alternate
  | None => ConditionalExpression test consequent alternate
  end.

(** Modelled from the spec: the pass over an expression, operands first
    (section 4.5); absent like the plugin. An optional-chained call is
    kept as one ("must NOT collapse optional-chained calls to
    [undefined]"). *)
Fixpoint foldExpr (e : Expr) : Expr :=
  match e with
  | BinaryExpression op l r => foldBinary op (foldExpr l) (foldExpr r)
  | LogicalExpression op l r => foldLogical op (foldExpr l) (foldExpr r)
  | UnaryExpression op a => foldUnary op (foldExpr a)
  | ConditionalExpression t c a =>
      foldConditional (foldExpr t) (foldExpr c) (foldExpr a)
  | ObjectExpression properties =>
      ObjectExpression (map (fun '(k, v) => (k, foldExpr v)) properties)
  | MemberExpression o p => MemberExpression (foldExpr o) p
  | CallExpression f args => CallExpression (foldExpr f) (map foldExpr args)
  | OptionalCallExpression f args =>
      OptionalCallExpression (foldExpr f) (map foldExpr args)
  | _ => e
  end.

(** Modelled from the spec: the pass over a statement (section 4.5: "[if]
    with literal test", "eliminates dead branches", "must never alter
    [export default] forms"); absent like the plugin. [None] is a
    statement that is removed. *)
Fixpoint foldStmt (s : Stmt) : option Stmt :=
  match s with
  | VariableDeclaration x init => Some (VariableDeclaration x (foldExpr init))
  | ExpressionStatement e => Some (ExpressionStatement (foldExpr e))
  | IfStatement test consequent alternate =>
      let test' := foldExpr test in
      match literalValue test' with
      | Some a =>
          if truthy a then foldStmt consequent
          else match alternate with
               | Some alt => foldStmt alt
               | None => None
               end
      | None =>
          Some (IfStatement test'
                  (match foldStmt consequent with
                   | Some c => c
                   | None => BlockStatement []
                   end)
                  (match alternate with
                   | Some alt => foldStmt alt
                   | None => None
                   end))
      end
  | BlockStatement body =>
      Some (BlockStatement
              ((fix foldAll (l : list Stmt) : list Stmt :=
                  match l with
                  | [] => []
                  | s0 :: rest =>
                      match foldStmt s0 with
                      | Some s1 => s1 :: foldAll rest
                      | None => foldAll rest
                      end
                  end) body))
  | FunctionDeclaration f body =>
      Some (FunctionDeclaration f
              ((fix foldAll (l : list Stmt) : list Stmt :=
                  match l with
                  | [] => []
                  | s0 :: rest =>
                      match foldStmt s0 with
                      | Some s1 => s1 :: foldAll rest
                      | None => foldAll rest
                      end
                  end) body))
  | ExportDefaultDeclaration e => Some (ExportDefaultDeclaration e)
  end.

(** The statements of [l] after the pass, the removed ones left out. *)
Definition foldAll (l : list Stmt) : list Stmt := omap foldStmt l.

(** The identifiers an expression refers to. *)
Fixpoint refsExpr (e : Expr) : list string :=
  match e with
  | Identifier x => [x]
  | BinaryExpression _ l r | LogicalExpression _ l r => refsExpr l ++ refsExpr r
  | UnaryExpression _ a => refsExpr a
  | ConditionalExpression t c a => refsExpr t ++ refsExpr c ++ refsExpr a
  | ObjectExpression properties =>
      flat_map (fun '(_, v) => refsExpr v) properties
  | MemberExpression o _ => refsExpr o
  | CallExpression f args | OptionalCallExpression f args =>
      refsExpr f ++ flat_map refsExpr args
  | _ => []
  end.

(** The identifiers a statement refers to. *)
Fixpoint refsStmt (s : Stmt) : list string :=
  match s with
  | VariableDeclaration _ init => refsExpr init
  | ExpressionStatement e | ExportDefaultDeclaration e => refsExpr e
  | IfStatement test consequent alternate =>
      refsExpr test ++ refsStmt consequent
      ++ match alternate with Some alt => refsStmt alt | None => [] end
  | BlockStatement body | FunctionDeclaration _ body => flat_map refsStmt body
  end.

(** One sweep over the program: the function declarations nothing refers
    to are dropped. *)
Definition dropUnreferenced (program : list Stmt) : list Stmt :=
  let referenced := flat_map refsStmt program in
  List.filter
    (fun s => match s with
              | FunctionDeclaration f _ => existsb (String.eqb f) referenced
              | _ => true
              end)
    program.

(** Modelled from the spec: the folding pass over a program (section 4.5:
    "evaluates statically-known branches ... and eliminates dead branches
    and unreferenced function declarations"); absent like the plugin.
    The sweep is repeated once per statement, which is as often as it can
    drop something. *)
Definition constantFolding (program : list Stmt) : list Stmt :=
  let folded := foldAll program in
  Nat.iter (List.length folded) dropUnreferenced folded.

(** *** Source text *)

Definition printOperator (op : BinaryOperator) : string :=
  match op with
  | StrictEq => "==="
  | StrictNotEq => "!=="
  | LooseEq => "=="
  | LooseNotEq => "!="
  end.

(** The text of an expression, as the code generator writes it. *)
Fixpoint printExpr (e : Expr) : string :=
  match e with
  | StringLiteral s => "'" +:+ s +:+ "'"
  | NumericLiteral n => NilZero.string_of_uint (N.to_uint n)
  | BooleanLiteral b => if b then "true" else "false"
  | NullLiteral => "null"
  | Identifier x => x
  | BinaryExpression op l r =>
      printExpr l +:+ " " +:+ printOperator op +:+ " " +:+ printExpr r
  | LogicalExpression op l r =>
      printExpr l
      +:+ match op with And => " && " | Or => " || " | Nullish => " ?? " end
      +:+ printExpr r
  | UnaryExpression op a =>
      match op with Not => "!" | Plus => "+" | Minus => "-" | Void => "void " end
      +:+ printExpr a
  | ConditionalExpression t c a =>
      printExpr t +:+ " ? " +:+ printExpr c +:+ " : " +:+ printExpr a
  | ObjectExpression properties =>
      "{" +:+ Js.join ", " (map (fun '(k, v) => k +:+ ": " +:+ printExpr v)
                                properties) +:+ "}"
  | MemberExpression o p => printExpr o +:+ "." +:+ p
  | CallExpression f args =>
      printExpr f +:+ "(" +:+ Js.join ", " (map printExpr args) +:+ ")"
  | OptionalCallExpression f args =>
      printExpr f +:+ "?.(" +:+ Js.join ", " (map printExpr args) +:+ ")"
  end.

(** The text of a statement. *)
Fixpoint printStmt (s : Stmt) : string :=
  match s with
  | VariableDeclaration x init => "var " +:+ x +:+ " = " +:+ printExpr init +:+ ";"
  | ExpressionStatement e => printExpr e +:+ ";"
  | IfStatement test consequent alternate =>
      "if (" +:+ printExpr test +:+ ") " +:+ printStmt consequent
      +:+ match alternate with
          | Some alt => " else " +:+ printStmt alt
          | None => EmptyString
          end
  | BlockStatement body => "{ " +:+ Js.join " " (map printStmt body) +:+ " }"
  | FunctionDeclaration f body =>
      "function " +:+ f +:+ "() { " +:+ Js.join " " (map printStmt body) +:+ " }"
  | ExportDefaultDeclaration e => "export default " +:+ printExpr e +:+ ";"
  end.

Definition print (program : list Stmt) : string :=
  Js.join " " (map printStmt program).


(** The three programs of the scenario. *)
Definition ternaryProgram : list Stmt :=
  [VariableDeclaration "a"
     (ConditionalExpression
        (BinaryExpression StrictEq (StringLiteral "android")
                          (StringLiteral "android"))
        (ObjectExpression [("a", NumericLiteral 1)])
        (ObjectExpression [("a", NumericLiteral 0)]))].

Definition optionalCallProgram : list Stmt :=
  [ExpressionStatement (OptionalCallExpression (Identifier "foo") [])].

Definition deadIfProgram : list Stmt :=
  [IfStatement (BooleanLiteral false)
     (BlockStatement [ExpressionStatement (CallExpression (Identifier "x") [])])
     None].

Example ternaryProgram_text :
  print ternaryProgram
  = "var a = 'android' === 'android' ? {a: 1} : {a: 0};".
Proof. vm_compute. reflexivity. Qed.

Example optionalCallProgram_text : print optionalCallProgram = "foo?.();".
Proof. vm_compute. reflexivity. Qed.

Example deadIfProgram_text : print deadIfProgram = "if (false) { x(); }".
Proof. vm_compute. reflexivity. Qed.

(** The program of the test "can optimize conditional expressions with
    constant conditions". *)
Definition conditionsProgram : list Stmt :=
  [ExpressionStatement
     (CallExpression (Identifier "a")
        [BinaryExpression LooseEq (StringLiteral "production")
                          (StringLiteral "production");
         BinaryExpression StrictNotEq (StringLiteral "production")
                          (StringLiteral "development");
         LogicalExpression Or
           (LogicalExpression Or
              (LogicalExpression And (BooleanLiteral false) (NumericLiteral 1))
              (NumericLiteral 0))
           (NumericLiteral 2);
         LogicalExpression Or (BooleanLiteral true) (NumericLiteral 3);
         ConditionalExpression
           (BinaryExpression StrictEq (StringLiteral "android")
                             (StringLiteral "ios"))
           NullLiteral (ObjectExpression []);
         ConditionalExpression
           (BinaryExpression StrictEq (StringLiteral "android")
                             (StringLiteral "android"))
           (ObjectExpression [("a", NumericLiteral 1)])
           (ObjectExpression [("a", NumericLiteral 0)]);
         ConditionalExpression
           (BinaryExpression StrictEq (StringLiteral "foo")
                             (StringLiteral "bar"))
           (Identifier "b") (Identifier "c");
         ConditionalExpression
           (CallExpression (Identifier "f") [])
           (CallExpression (Identifier "g") [])
           (CallExpression (Identifier "h") [])])].

(** The program of the test "can remode an if statement with a falsy
    constant test". *)
Definition falsyIfProgram : list Stmt :=
  [IfStatement
     (LogicalExpression Or
        (BinaryExpression StrictEq (StringLiteral "production")
                          (StringLiteral "development"))
        (BooleanLiteral false))
     (BlockStatement [VariableDeclaration "a" (NumericLiteral 1)])
     None].

Example conditionsProgram_text :
  print conditionsProgram
  = "a('production' == 'production', 'production' !== 'development', "
    +:+ "false && 1 || 0 || 2, true || 3, 'android' === 'ios' ? null : {}, "
    +:+ "'android' === 'android' ? {a: 1} : {a: 0}, "
    +:+ "'foo' === 'bar' ? b : c, f() ? g() : h());".
Proof. vm_compute. reflexivity. Qed.

Example falsyIfProgram_text :
  print falsyIfProgram
  = "if ('production' === 'development' || false) { var a = 1; }".
Proof. vm_compute. reflexivity. Qed.

(** "recursively strips off functions" *)
Example test_strips_functions :
  constantFolding
    (FunctionDeclaration "x" [] :: deadIfProgram)
  = [].
Proof. vm_compute. reflexivity. Qed.

(** "does not mess up with negative numbers" *)
Example test_negative_numbers :
  map foldExpr
    [UnaryExpression Plus (NumericLiteral 0);
     UnaryExpression Minus (NumericLiteral 0);
     UnaryExpression Plus (NumericLiteral 1);
     UnaryExpression Minus (NumericLiteral 1)]
  = [NumericLiteral 0; UnaryExpression Minus (NumericLiteral 0);
     NumericLiteral 1; UnaryExpression Minus (NumericLiteral 1)].
Proof. vm_compute. reflexivity. Qed.

(** A strict comparison of two string literals folds to whether they are
    the same string. *)
Lemma foldBinary_strings (s1 s2 : string) :
  foldBinary StrictEq (StringLiteral s1) (StringLiteral s2)
  = BooleanLiteral (String.eqb s1 s2).
Proof. reflexivity. Qed.









End ConstantFolding.
